(** * curv: parser and semantic analyzer

    A shallow embedding of the front end of curv (src/curv/parser.cc,
    src/curv/analyzer.cc, src/curv/builtin.cc, src/curv/location.cc) and
    proofs about its scope and binding resolver.

    Conventions of the embedding.
    - A [Shared<T>] pointer to an immutable node is the node itself.
    - An [Atom] is its text; [Atom_Map<T>] and [Module::Dictionary] are
      finite maps [gmap Atom T].
    - Slot numbers and counters ([int], [size_t], [slot_t]) are natural
      numbers; no phrase considered here has 2^31 bindings.
    - Numbers are IEEE doubles in the source.  The model keeps them
      symbolic ([strtod lexeme], [pi], ...): no claim depends on their
      numeric value.
    - C++ exceptions are the [Throw] outcome of a computation.  The
      recursion of the parser and of the analyzer is bounded by a fuel
      argument; running out of it is the separate outcome [Out_Of_Fuel].
    - The chain of [Environ] objects linked by [parent_] is a list of
      scopes, innermost first; the analyzer threads it as a state. *)

From Stdlib Require Import String Ascii List Arith Lia.
From stdpp Require Import base option list gmap strings fin_maps.

Local Open Scope string_scope.
Set Warnings "-register-all,-clear-no-such-hyp".

(** ** Tokens and locations (token.h is not part of the sources) *)

(** Modelled from the spec: token.h is missing; the closed set of token
    kinds is the one the spec lists. *)
Inductive Kind : Set :=
| k_end | k_missing | k_phrase | k_num | k_ident | k_string
| k_lparen | k_rparen | k_lbracket | k_rbracket | k_lbrace | k_rbrace
| k_comma | k_semicolon
| k_right_arrow | k_left_call | k_right_call | k_equate | k_colon
| k_range | k_open_range | k_by | k_dot | k_apostrophe | k_ellipsis
| k_power | k_plus | k_minus | k_times | k_over
| k_equal | k_not_equal | k_less | k_greater
| k_less_or_equal | k_greater_or_equal
| k_and | k_or | k_not
| k_if | k_else | k_for | k_let.

Global Instance Kind_eq_dec : EqDecision Kind.
Proof. solve_decision. Defined.

Record Token : Set := mkToken {
  first_white : nat;
  first : nat;
  last : nat;
  kind : Kind
}.

Global Instance Token_eq_dec : EqDecision Token.
Proof. solve_decision. Defined.

(** Modelled from the spec: the default-constructed token [Token{}] of
    token.h; the spec says that a separator of kind [k_missing] marks
    "no separator after last". *)
Definition Token_default : Token := mkToken 0 0 0 k_missing.

Record Script : Set := mkScript {
  name : string;
  text : string
}.

Record Location : Set := mkLocation {
  script_ : Script;
  token_ : Token
}.

Definition Atom : Set := string.

(** ** location.cc *)

Fixpoint count_newlines (n : nat) (s : string) : nat :=
  match n, s with
  | S n', String c s' =>
      (if Ascii.eqb c "010"%char then 1 else 0) + count_newlines n' s'
  | _, _ => 0
  end.

Definition lineno (loc : Location) : nat :=
  1 + count_newlines (first (token_ loc)) (text (script_ loc)).

Definition range (loc : Location) : string :=
  substring (first (token_ loc))
            (last (token_ loc) - first (token_ loc))
            (text (script_ loc)).

Definition starting_at (loc : Location) (tok : Token) : Location :=
  if decide (kind tok = k_missing) then loc
  else mkLocation (script_ loc)
         (mkToken (first_white tok) (first tok) (last (token_ loc)) k_phrase).

Definition ending_at (loc : Location) (tok : Token) : Location :=
  if decide (kind tok = k_missing) then loc
  else mkLocation (script_ loc)
         (mkToken (first_white (token_ loc)) (first (token_ loc))
                  (last tok) k_phrase).

(** ** The phrase tree (phrase.h is not part of the sources)

    The constructors and their fields are the ones parser.cc builds and
    analyzer.cc reads. *)

Record Arg (P : Type) : Type := mkArg {
  expr_ : P;
  comma_ : Token
}.
Arguments mkArg {P} _ _.
Arguments expr_ {P} _.
Arguments comma_ {P} _.

(** [(...)], [[...]] and [{...}]: the bracket tokens and the sequence of
    {expr, comma} pairs between them. *)
Record Delimited (P : Type) : Type := mkDelimited {
  lparen_ : Token;
  args_ : list (Arg P);
  rparen_ : Token
}.
Arguments mkDelimited {P} _ _ _.
Arguments lparen_ {P} _.
Arguments args_ {P} _.
Arguments rparen_ {P} _.

(** An identifier token: its location and the atom made of its text. *)
Record Ident : Set := mkIdent {
  id_loc : Location;
  atom_ : Atom
}.

Inductive Phrase : Type :=
| Identifier (id : Ident)
| Numeral (loc : Location)
| String_Phrase (loc : Location)
| Empty_Phrase (loc : Location)
| Unary_Phrase (op_ : Token) (arg_ : Phrase)
| Binary_Phrase (left_ : Phrase) (op_ : Token) (right_ : Phrase)
| Lambda_Phrase (left_ : Phrase) (op_ : Token) (right_ : Phrase)
                (recursive_ : bool)
| Definition_Phrase (left_ : Phrase) (equate_ : Token) (right_ : Phrase)
| Semicolon_Phrase (sargs_ : list (Arg Phrase))
| Comma_Phrase (cargs_ : list (Arg Phrase))
| Paren_Phrase (parens : Delimited Phrase)
| List_Phrase (brackets : Delimited Phrase)
| Record_Phrase (braces : Delimited Phrase)
| Call_Phrase (function_ : Phrase) (cargs_ : Phrase) (op_ : Token)
| If_Phrase (if_ : Token) (condition_ then_expr_ : Phrase)
            (else_ : Token) (else_expr_ : option Phrase)
| For_Phrase (for_ : Token) (fargs_ : Delimited Phrase) (body_ : Phrase)
| Let_Phrase (let_ : Token) (largs_ : Delimited Phrase) (body_ : Phrase)
| Range_Phrase (first_ : Phrase) (op1_ : Token) (last_ : Phrase)
               (op2_ : Token) (step_ : option Phrase)
| Module_Phrase (body_ : Phrase)
| Program_Phrase (body_ : Phrase) (end_ : Token).

(** ** Values and meanings *)

Inductive Number : Set :=
| strtod (lexeme : string)
| pi | two_pi | INFINITY.

Inductive Function : Set :=
| Sqrt_Function | Abs_Function | Max_Function | Min_Function
| Norm_Function | Len_Function | File_Function | Shape2d_Function.

Inductive Value : Type :=
| Null
| Bool (b : bool)
| Num (n : Number)
| String_Value (s : string)
| Function_Value (f : Function)
| Lambda (body_ : Operation) (nargs_ nslots_ : nat)
| Thunk (expr_ : Operation)
with Operation : Type :=
| Constant (source_ : Phrase) (value_ : Value)
| Not_Expr (source_ : Phrase) (arg_ : Operation)
| Prefix_Expr (source_ : Phrase) (op_ : Kind) (arg_ : Operation)
| Infix_Expr (source_ : Phrase) (op_ : Kind) (arg1_ arg2_ : Operation)
| Or_Expr (source_ : Phrase) (arg1_ arg2_ : Operation)
| And_Expr (source_ : Phrase) (arg1_ arg2_ : Operation)
| Equal_Expr (source_ : Phrase) (arg1_ arg2_ : Operation)
| Not_Equal_Expr (source_ : Phrase) (arg1_ arg2_ : Operation)
| Less_Expr (source_ : Phrase) (arg1_ arg2_ : Operation)
| Greater_Expr (source_ : Phrase) (arg1_ arg2_ : Operation)
| Less_Or_Equal_Expr (source_ : Phrase) (arg1_ arg2_ : Operation)
| Greater_Or_Equal_Expr (source_ : Phrase) (arg1_ arg2_ : Operation)
| Power_Expr (source_ : Phrase) (arg1_ arg2_ : Operation)
| Dot_Expr (source_ : Phrase) (base_ : Operation) (id_ : Atom)
| At_Expr (source_ : Phrase) (arg1_ arg2_ : Operation)
| If_Expr (source_ : Phrase) (arg1_ arg2_ : Operation)
| If_Else_Expr (source_ : Phrase) (arg1_ arg2_ arg3_ : Operation)
| Let_Expr (source_ : Phrase) (first_slot_ : nat) (values_ : list Value)
           (body_ : Operation)
| For_Expr (source_ : Phrase) (slot_ : nat) (list_ body_ : Operation)
| Range_Gen (source_ : Phrase) (arg1_ arg2_ : Operation)
            (arg3_ : option Operation)
| List_Expr (source_ : Phrase) (elems_ : list Operation)
| Sequence_Expr (source_ : Phrase) (elems_ : list Operation)
| Record_Expr (source_ : Phrase) (fields_ : gmap Atom Operation)
| Lambda_Expr (source_ : Phrase) (body_ : Operation)
              (nonlocals_ : Operation) (nargs_ nslots_ : nat)
| Call_Expr (source_ : Phrase) (fun_ : Operation) (args_ : Phrase)
            (argv_ : list Operation)
| Module_Expr (source_ : Phrase) (dictionary_ : gmap Atom nat)
              (slots_ : list Value) (elements_ : Operation)
              (frame_nslots_ : nat)
| Echo_Action (source_ : Phrase) (argv_ : list Operation)
| Arg_Ref (source_ : Phrase) (slot_ : nat)
| Let_Ref (source_ : Phrase) (slot_ : nat)
| Module_Ref (source_ : Phrase) (slot_ : nat)
| Nonlocal_Ref (source_ : Phrase) (slot_ : nat)
| Nonlocal_Function_Ref (source_ : Phrase) (slot_ : nat).

Inductive Meaning : Type :=
| Op (op : Operation)
| Echo_Metafunction (source_ : Phrase).

(** ** Exceptions and outcomes *)

Inductive Context : Type :=
| At_Phrase (ph : Phrase)
| At_Token (tok : Token).

Inductive Exception_ : Type :=
| Exception (cx : Context) (msg : string)
| bad_cast.

(** The outcome of running a piece of the front end.  [Undefined] marks
    what the sources do not determine: the analysis of a phrase variant
    that analyzer.cc does not define, and states the program cannot be
    in (an [Environ] without the scope that was just pushed). *)
Inductive Result (A : Type) : Type :=
| Ok (a : A)
| Throw (e : Exception_)
| Out_Of_Fuel
| Undefined.
Arguments Ok {A} _.
Arguments Throw {A} _.
Arguments Out_Of_Fuel {A}.
Arguments Undefined {A}.

Definition Result_bind {A B} (r : Result A) (k : A -> Result B) : Result B :=
  match r with
  | Ok a => k a
  | Throw e => Throw e
  | Out_Of_Fuel => Out_Of_Fuel
  | Undefined => Undefined
  end.

(** ** Builtins (builtin.cc) *)

Inductive Builtin : Type :=
| Builtin_Value (value_ : Value)
| Builtin_Meaning_Echo.

Definition Namespace : Type := gmap Atom Builtin.

(** [Builtin_Value::to_meaning] is in builtin.cc.  Modelled from the
    spec: [Builtin_Meaning<Echo_Metafunction>::to_meaning] is in the
    missing builtin.h; the spec has it produce a Metafunction instance. *)
Definition to_meaning (b : Builtin) (id : Ident) : Meaning :=
  match b with
  | Builtin_Value v => Op (Constant (Identifier id) v)
  | Builtin_Meaning_Echo => Echo_Metafunction (Identifier id)
  end.

Definition builtin_namespace : Namespace :=
  list_to_map
    [ ("pi", Builtin_Value (Num pi));
      ("tau", Builtin_Value (Num two_pi));
      ("inf", Builtin_Value (Num INFINITY));
      ("null", Builtin_Value Null);
      ("false", Builtin_Value (Bool false));
      ("true", Builtin_Value (Bool true));
      ("sqrt", Builtin_Value (Function_Value Sqrt_Function));
      ("abs", Builtin_Value (Function_Value Abs_Function));
      ("max", Builtin_Value (Function_Value Max_Function));
      ("min", Builtin_Value (Function_Value Min_Function));
      ("norm", Builtin_Value (Function_Value Norm_Function));
      ("len", Builtin_Value (Function_Value Len_Function));
      ("file", Builtin_Value (Function_Value File_Function));
      ("shape2d", Builtin_Value (Function_Value Shape2d_Function));
      ("echo", Builtin_Meaning_Echo) ].

(** ** Definitions and bindings *)

Record Definition_ : Type := mkDefinition {
  name_ : Ident;
  definiens_ : Phrase
}.

Record Bindings : Type := mkBindings {
  cur_position_ : nat;
  dictionary_ : gmap Atom nat;
  slot_phrases_ : list Phrase
}.

Definition Bindings_empty : Bindings := mkBindings 0 ∅ [].

Definition isa_Lambda_Phrase (ph : Phrase) : bool :=
  match ph with Lambda_Phrase _ _ _ _ => true | _ => false end.

Definition set_recursive (ph : Phrase) : Phrase :=
  match ph with
  | Lambda_Phrase l op r _ => Lambda_Phrase l op r true
  | _ => ph
  end.

(** [Bindings::add_definition].  The source sets [recursive_] on the
    lambda node that [def->definiens_] points to; the model sets it on
    the phrase stored in [slot_phrases_], the only place that node is
    analyzed from. *)
Definition add_definition (def : Definition_) (b : Bindings) : Result Bindings :=
  let name := atom_ (name_ def) in
  match dictionary_ b !! name with
  | Some _ =>
      Throw (Exception (At_Phrase (Identifier (name_ def)))
                       (name ++ ": multiply defined"))
  | None =>
      Ok (mkBindings (S (cur_position_ b))
                     (<[name := cur_position_ b]> (dictionary_ b))
                     (slot_phrases_ b ++ [set_recursive (definiens_ def)]))
  end.

Definition is_recursive_function (b : Bindings) (slot : nat) : bool :=
  match slot_phrases_ b !! slot with
  | Some ph => isa_Lambda_Phrase ph
  | None => false
  end.

(** The [Binding] struct local to [Let_Phrase::analyze]. *)
Record Binding : Type := mkBinding {
  slot_ : nat;
  phrase_ : Phrase
}.

(** ** The Environ chain *)

Inductive Scope_Class : Type :=
| Builtin_Environ (names : Namespace)
| Bindings_Environ (bindings_ : Bindings)
| Arg_Environ (names_ : gmap Atom nat)
              (nonlocal_dictionary_ : gmap Atom nat)
              (nonlocal_exprs_ : list Operation)
              (recursive_ : bool)
| Let_Environ (names : gmap Atom Binding)
| For_Environ (name_ : Atom) (slot_ : nat).

Record Scope : Type := mkScope {
  self : Scope_Class;
  frame_nslots : nat;
  frame_maxslots : nat
}.

(** An [Environ&] is the list of scopes from the innermost one outward:
    the head is the object itself, the tail is its [parent_] chain. *)
Definition Environ : Type := list Scope.

Definition env_nslots (env : Environ) : nat :=
  match env with e :: _ => frame_nslots e | [] => 0 end.

Definition env_maxslots (env : Environ) : nat :=
  match env with e :: _ => frame_maxslots e | [] => 0 end.

(** [env.frame_maxslots = n] *)
Definition set_maxslots (n : nat) (env : Environ) : Environ :=
  match env with
  | e :: parent => mkScope (self e) (frame_nslots e) n :: parent
  | [] => []
  end.

(** The constructors of the Environ subclasses.  The base constructor
    [Environ(parent)] is in the missing analyzer.h; [Let_Environ] adds
    to the counters it leaves behind when the parent is null, so it sets
    them to zero. *)
Definition Builtin_Environ_new (names : Namespace) : Scope :=
  mkScope (Builtin_Environ names) 0 0.

Definition Arg_Environ_new (names : gmap Atom nat) (recursive : bool) : Scope :=
  mkScope (Arg_Environ names ∅ [] recursive) (size names) (size names).

Definition Let_Environ_new (p : Environ) (n : gmap Atom Binding) : Scope :=
  let nslots := env_nslots p + size n in
  mkScope (Let_Environ n) nslots (Nat.max (env_maxslots p) nslots).

Definition For_Environ_new (p : Environ) (name : Atom) (slot : nat) : Scope :=
  let nslots := env_nslots p + 1 in
  mkScope (For_Environ name slot) nslots (Nat.max (env_maxslots p) nslots).

(** Modelled from the spec: the constructor of [Bindings::Environ] is in
    the missing analyzer.h; by the spec "a child scope initializes both
    from its parent's current counters". *)
Definition Bindings_Environ_new (p : Environ) (b : Bindings) : Scope :=
  mkScope (Bindings_Environ b) (env_nslots p) (env_maxslots p).

(** [single_lookup], the virtual function of the five scope classes.
    The result [None] is the null pointer ("ask the parent"); it leaves
    every scope as it was.  [Some (m, e', parent')] is a meaning together
    with this scope and its parent chain after the call: a non-recursive
    [Arg_Environ] calls [parent_->lookup(id)], whose outcome is
    [parent_lookup], and records what it captures. *)
Definition single_lookup (e : Scope) (parent : Environ)
    (parent_lookup : Result (Meaning * Environ)) (id : Ident)
  : Result (option (Meaning * Scope * Environ)) :=
  match self e with
  | Builtin_Environ names =>
      match names !! atom_ id with
      | Some p => Ok (Some (to_meaning p id, e, parent))
      | None => Ok None
      end
  | Bindings_Environ bindings =>
      match dictionary_ bindings !! atom_ id with
      | Some slot =>
          if is_recursive_function bindings slot
          then Ok (Some (Op (Nonlocal_Function_Ref (Identifier id) slot),
                         e, parent))
          else Ok (Some (Op (Module_Ref (Identifier id) slot), e, parent))
      | None => Ok None
      end
  | Arg_Environ names nonlocal_dictionary nonlocal_exprs recursive =>
      match names !! atom_ id with
      | Some slot => Ok (Some (Op (Arg_Ref (Identifier id) slot), e, parent))
      | None =>
          if recursive then Ok None
          else
            match nonlocal_dictionary !! atom_ id with
            | Some n =>
                Ok (Some (Op (Nonlocal_Ref (Identifier id) n), e, parent))
            | None =>
                Result_bind parent_lookup (fun '(m, parent') =>
                  match m with
                  | Op (Constant _ _) => Ok (Some (m, e, parent'))
                  | Op expr =>
                      let slot := length nonlocal_exprs in
                      Ok (Some
                            (Op (Nonlocal_Ref (Identifier id) slot),
                             mkScope
                               (Arg_Environ names
                                  (<[atom_ id := slot]> nonlocal_dictionary)
                                  (nonlocal_exprs ++ [expr])
                                  recursive)
                               (frame_nslots e) (frame_maxslots e),
                             parent'))
                  | _ => Ok (Some (m, e, parent'))
                  end)
            end
      end
  | Let_Environ names =>
      match names !! atom_ id with
      | Some b => Ok (Some (Op (Let_Ref (Identifier id) (slot_ b)), e, parent))
      | None => Ok None
      end
  | For_Environ name slot =>
      if decide (atom_ id = name)
      then Ok (Some (Op (Let_Ref (Identifier id) slot), e, parent))
      else Ok None
  end.

(** [Environ::lookup]: the loop over the parent chain. *)
Fixpoint lookup (env : Environ) (id : Ident) : Result (Meaning * Environ) :=
  match env with
  | [] =>
      Throw (Exception (At_Phrase (Identifier id))
                       (atom_ id ++ ": not defined"))
  | e :: parent =>
      match single_lookup e parent (lookup parent id) id with
      | Ok (Some (m, e', parent')) => Ok (m, e' :: parent')
      | Ok None =>
          match lookup parent id with
          | Ok (m, parent') => Ok (m, e :: parent')
          | Throw ex => Throw ex
          | Out_Of_Fuel => Out_Of_Fuel
          | Undefined => Undefined
          end
      | Throw ex => Throw ex
      | Out_Of_Fuel => Out_Of_Fuel
      | Undefined => Undefined
      end
  end.

(** ** The state and exception monad of the front end

    A computation takes the state ([Scanner] for the parser, the
    [Environ] chain for the analyzer) and ends in an outcome and the
    state after it. *)

Definition St (S A : Type) : Type := S -> Result (A * S).

Definition ret {S A} (a : A) : St S A := fun s => Ok (a, s).

Definition bind {S A B} (c : St S A) (k : A -> St S B) : St S B :=
  fun s =>
    match c s with
    | Ok (a, s') => k a s'
    | Throw e => Throw e
    | Out_Of_Fuel => Out_Of_Fuel
    | Undefined => Undefined
    end.

Definition raise {S A} (cx : Context) (msg : string) : St S A :=
  fun _ => Throw (Exception cx msg).

Definition lift {S A} (r : Result A) : St S A :=
  fun s => Result_bind r (fun a => Ok (a, s)).

Definition M (A : Type) : Type := St Environ A.

Definition throw {A} (ph : Phrase) (msg : string) : M A :=
  raise (At_Phrase ph) msg.

Notation "'let*' x ':=' c1 'in' c2" := (bind c1 (fun x => c2))
  (at level 10, x pattern, c1 at level 100, c2 at level 200).

(** Run [c] in the child scope [child] of the current environment, as
    the source does with a stack-allocated Environ subclass whose parent
    is [&env]; return the result and the child scope as [c] leaves it. *)
Definition in_scope {A} (child : Scope) (c : M A) : M (A * Scope) :=
  fun env =>
    match c (child :: env) with
    | Ok (a, child' :: env') => Ok ((a, child'), env')
    | Ok (_, []) => Undefined
    | Throw e => Throw e
    | Out_Of_Fuel => Out_Of_Fuel
    | Undefined => Undefined
    end.

Definition get_env : M Environ := fun env => Ok (env, env).

(** [Metafunction::to_operation] and [Operation::to_operation] *)
Definition to_operation (m : Meaning) : M Operation :=
  match m with
  | Op op => ret op
  | Echo_Metafunction source => throw source "not an operation"
  end.

(** [Phrase::analyze_def] (the default, absent) and
    [Definition_Phrase::analyze_def].  The [Lambda_Phrase] made for
    [f(x) = body] starts with [recursive_] unset. *)
Definition analyze_def (ph : Phrase) : Result (option Definition_) :=
  match ph with
  | Definition_Phrase left_ equate right_ =>
      match left_ with
      | Identifier id => Ok (Some (mkDefinition id right_))
      | Call_Phrase function args _ =>
          match function with
          | Identifier id =>
              Ok (Some (mkDefinition id
                          (Lambda_Phrase args equate right_ false)))
          | _ => Throw (Exception (At_Phrase function) "not an identifier")
          end
      | _ => Throw (Exception (At_Phrase left_) "invalid definiendum")
      end
  | _ => Ok None
  end.

(** Phase 1 of [Lambda_Phrase::analyze]: the dictionary of parameters.
    [params[id->atom_] = slot++] overwrites the entry of a name that is
    already there. *)
Fixpoint lambda_params_loop (args : list (Arg Phrase))
    (params : gmap Atom nat) (slot : nat) : Result (gmap Atom nat) :=
  match args with
  | [] => Ok params
  | a :: rest =>
      match expr_ a with
      | Identifier id =>
          lambda_params_loop rest (<[atom_ id := slot]> params) (S slot)
      | other => Throw (Exception (At_Phrase other) "not a parameter")
      end
  end.

Definition lambda_params (left_ : Phrase) : Result (gmap Atom nat) :=
  match left_ with
  | Identifier id => Ok (<[atom_ id := 0]> ∅)
  | Paren_Phrase parens => lambda_params_loop (args_ parens) ∅ 0
  | other => Throw (Exception (At_Phrase other) "not a parameter")
  end.

Definition nonlocal_exprs_of (e : Scope) : list Operation :=
  match self e with
  | Arg_Environ _ _ exprs _ => exprs
  | _ => []
  end.

(** Phase 1 of [Let_Phrase::analyze]: the dictionary of bindings. *)
Fixpoint let_bindings_loop (args : list (Arg Phrase))
    (bindings : gmap Atom Binding) (slot : nat)
  : Result (gmap Atom Binding) :=
  match args with
  | [] => Ok bindings
  | b :: rest =>
      Result_bind (analyze_def (expr_ b)) (fun def =>
        match def with
        | None => Throw (Exception (At_Phrase (expr_ b)) "not a definition")
        | Some def =>
            let name := atom_ (name_ def) in
            match bindings !! name with
            | Some _ =>
                Throw (Exception (At_Phrase (Identifier (name_ def)))
                                 (name ++ ": multiply defined"))
            | None =>
                let_bindings_loop rest
                  (<[name := mkBinding slot (definiens_ def)]> bindings)
                  (S slot)
            end
        end)
  end.

(** The [Statements] adapter: the items of a semicolon phrase, or the
    phrase itself. *)
Definition Statements (ph : Phrase) : list Phrase :=
  match ph with
  | Semicolon_Phrase args => map expr_ args
  | _ => [ph]
  end.

(** Phase 1 of [Module_Phrase::analyze_module]. *)
Fixpoint module_fields_loop (stmts : list Phrase) (fields : Bindings)
    (elements : list Phrase) : Result (Bindings * list Phrase) :=
  match stmts with
  | [] => Ok (fields, elements)
  | st :: rest =>
      Result_bind (analyze_def st) (fun def =>
        match def with
        | Some def =>
            Result_bind (add_definition def fields) (fun fields' =>
              module_fields_loop rest fields' elements)
        | None => module_fields_loop rest fields (elements ++ [st])
        end)
  end.

(** The iteration order of an [Atom_Map] is fixed by the missing atom.h;
    the model iterates in the order of [map_to_list]. *)
Definition Atom_Map_items {T} (m : gmap Atom T) : list (Atom * T) :=
  map_to_list m.

Section Analyze.

(** [ph.analyze(env)] for the phrases below the one at hand. *)
Variable analyze : Phrase -> M Meaning.

Definition analyze_op (ph : Phrase) : M Operation :=
  let* m := analyze ph in to_operation m.

(** The loops that analyze every [args_[i].expr_] in order. *)
Fixpoint analyze_ops (args : list (Arg Phrase)) : M (list Operation) :=
  match args with
  | [] => ret []
  | a :: rest =>
      let* x := analyze_op (expr_ a) in
      let* xs := analyze_ops rest in
      ret (x :: xs)
  end.

Fixpoint analyze_phrases (phs : list Phrase) : M (list Operation) :=
  match phs with
  | [] => ret []
  | ph :: rest =>
      let* x := analyze_op ph in
      let* xs := analyze_phrases rest in
      ret (x :: xs)
  end.

Definition Identifier_analyze (id : Ident) : M Meaning :=
  fun env => lookup env id.

Definition Numeral_analyze (this : Phrase) (loc : Location) : M Meaning :=
  ret (Op (Constant this (Num (strtod (range loc))))).

Definition String_Phrase_analyze (this : Phrase) (loc : Location)
  : M Meaning :=
  let str := range loc in
  ret (Op (Constant this
             (String_Value (substring 1 (String.length str - 2) str)))).

Definition Unary_Phrase_analyze (this : Phrase) (op : Token) (arg : Phrase)
  : M Meaning :=
  match kind op with
  | k_not =>
      let* a := analyze_op arg in ret (Op (Not_Expr this a))
  | k =>
      let* a := analyze_op arg in ret (Op (Prefix_Expr this k a))
  end.

(** Phase 2 of [Lambda_Phrase::analyze]. *)
Definition Lambda_Phrase_analyze (this left_ right_ : Phrase)
    (recursive : bool) : M Meaning :=
  let* params := lift (lambda_params left_) in
  let* r := in_scope (Arg_Environ_new params recursive) (analyze_op right_) in
  let '(expr, env2) := r in
  ret (Op (Lambda_Expr this expr
             (List_Expr this (nonlocal_exprs_of env2))
             (size params) (frame_maxslots env2))).

Definition binary (mk : Operation -> Operation -> Operation)
    (left_ right_ : Phrase) : M Meaning :=
  let* l := analyze_op left_ in
  let* r := analyze_op right_ in
  ret (Op (mk l r)).

(** The source passes the analyses of the two operands as arguments of
    one call, which C++ may evaluate in either order; the model runs
    the left one first. *)
Definition Binary_Phrase_analyze (this left_ : Phrase) (op : Token)
    (right_ : Phrase) : M Meaning :=
  match kind op with
  | k_or => binary (Or_Expr this) left_ right_
  | k_and => binary (And_Expr this) left_ right_
  | k_equal => binary (Equal_Expr this) left_ right_
  | k_not_equal => binary (Not_Equal_Expr this) left_ right_
  | k_less => binary (Less_Expr this) left_ right_
  | k_greater => binary (Greater_Expr this) left_ right_
  | k_less_or_equal => binary (Less_Or_Equal_Expr this) left_ right_
  | k_greater_or_equal => binary (Greater_Or_Equal_Expr this) left_ right_
  | k_power => binary (Power_Expr this) left_ right_
  | k_dot =>
      match right_ with
      | Identifier id =>
          let* l := analyze_op left_ in
          ret (Op (Dot_Expr this l (atom_ id)))
      | List_Phrase list =>
          match args_ list with
          | [a] =>
              if decide (kind (comma_ a) = k_missing) then
                let* index := analyze_op (expr_ a) in
                let* l := analyze_op left_ in
                ret (Op (At_Expr this l index))
              else throw this "not an expression"
          | _ => throw this "not an expression"
          end
      | _ => throw right_ "invalid expression after '.'"
      end
  | k => binary (Infix_Expr this k) left_ right_
  end.

Definition Semicolon_Phrase_analyze (this : Phrase)
    (args : list (Arg Phrase)) : M Meaning :=
  match args with
  | [a] => let* x := analyze_op (expr_ a) in ret (Op x)
  | _ => throw this "; phrase not implemented"
  end.

(** [Comma_Phrase::analyze] and [Paren_Phrase::analyze] *)
Definition sequence_analyze (this : Phrase) (args : list (Arg Phrase))
  : M Meaning :=
  match args with
  | [a] =>
      if decide (kind (comma_ a) = k_missing) then
        let* x := analyze_op (expr_ a) in ret (Op x)
      else
        let* xs := analyze_ops args in ret (Op (Sequence_Expr this xs))
  | _ => let* xs := analyze_ops args in ret (Op (Sequence_Expr this xs))
  end.

Definition List_Phrase_analyze (this : Phrase) (args : list (Arg Phrase))
  : M Meaning :=
  let* xs := analyze_ops args in ret (Op (List_Expr this xs)).

Definition analyze_args (args : Phrase) : M (list Operation) :=
  match args with
  | Paren_Phrase patom => analyze_ops (args_ patom)
  | _ => let* x := analyze_op args in ret [x]
  end.

(** [Call_Phrase::analyze]: [Operation::call] builds a [Call_Expr],
    [Echo_Metafunction::call] an [Echo_Action]. *)
Definition Call_Phrase_analyze (this function args : Phrase) : M Meaning :=
  let* m := analyze function in
  match m with
  | Op f =>
      let* argv := analyze_args args in
      ret (Op (Call_Expr this f args argv))
  | Echo_Metafunction _ =>
      let* argv := analyze_args args in
      ret (Op (Echo_Action this argv))
  end.

Definition analyze_definition (def : Definition_)
    (dict : gmap Atom Operation) : M (gmap Atom Operation) :=
  let name := atom_ (name_ def) in
  match dict !! name with
  | Some _ =>
      throw (Identifier (name_ def)) (name ++ ": multiply defined")
  | None =>
      let* x := analyze_op (definiens_ def) in
      ret (<[name := x]> dict)
  end.

Fixpoint Record_Phrase_loop (args : list (Arg Phrase))
    (fields : gmap Atom Operation) : M (gmap Atom Operation) :=
  match args with
  | [] => ret fields
  | i :: rest =>
      let* def := lift (analyze_def (expr_ i)) in
      match def with
      | Some def =>
          let* fields' := analyze_definition def fields in
          Record_Phrase_loop rest fields'
      | None => throw (expr_ i) "not a definition"
      end
  end.

Definition Record_Phrase_analyze (this : Phrase) (args : list (Arg Phrase))
  : M Meaning :=
  let* fields := Record_Phrase_loop args ∅ in
  ret (Op (Record_Expr this fields)).

(** [Bindings::analyze_values].  [dynamic_cast<Lambda_Expr&>] throws
    [std::bad_cast] on another class of expression. *)
Fixpoint analyze_values (slot_phrases : list Phrase) : M (list Value) :=
  match slot_phrases with
  | [] => ret []
  | ph :: rest =>
      let* expr := analyze_op ph in
      let* v := (if isa_Lambda_Phrase ph then
              match expr with
              | Lambda_Expr _ body _ nargs nslots =>
                  ret (Lambda body nargs nslots)
              | _ => fun _ => Throw bad_cast
              end
            else ret (Thunk expr)) in
      let* vs := analyze_values rest in
      ret (v :: vs)
  end.

Definition analyze_module (this body : Phrase) : M Meaning :=
  let* r := lift (module_fields_loop (Statements body) Bindings_empty []) in
  let '(fields, elements) := r in
  let* env := get_env in
  let* r2 := in_scope (Bindings_Environ_new env fields)
          (let* slots := analyze_values (slot_phrases_ fields) in
           let* xelements := analyze_phrases elements in
           ret (slots, xelements)) in
  let '(slots, xelements, env2) := r2 in
  ret (Op (Module_Expr this (dictionary_ fields) slots
             (List_Expr this xelements) (frame_maxslots env2))).

Definition If_Phrase_analyze (this condition then_expr : Phrase)
    (else_expr : option Phrase) : M Meaning :=
  match else_expr with
  | None =>
      let* c := analyze_op condition in
      let* t := analyze_op then_expr in
      ret (Op (If_Expr this c t))
  | Some else_expr =>
      let* c := analyze_op condition in
      let* t := analyze_op then_expr in
      let* e := analyze_op else_expr in
      ret (Op (If_Else_Expr this c t e))
  end.

(** The loop [for (auto b : bindings)] of [Let_Phrase::analyze]. *)
Fixpoint let_values_loop (items : list (Atom * Binding)) (first_slot : nat)
    (values : list Value) : M (list Value) :=
  match items with
  | [] => ret values
  | b :: rest =>
      let* expr := analyze_op (phrase_ b.2) in
      let_values_loop rest first_slot
        (<[slot_ b.2 - first_slot := Thunk expr]> values)
  end.

Definition Let_Phrase_analyze (this : Phrase) (args : Delimited Phrase)
    (body : Phrase) : M Meaning :=
  let* env := get_env in
  let* bindings := lift (let_bindings_loop (args_ args) ∅ (env_nslots env)) in
  let first_slot := env_nslots env in
  let* r := in_scope (Let_Environ_new env bindings)
         (let* values := let_values_loop (Atom_Map_items bindings) first_slot
                      (replicate (size bindings) Null) in
          let* body' := analyze_op body in
          ret (values, body')) in
  let '(values, body', env2) := r in
  fun env' =>
    Ok (Op (Let_Expr this first_slot values body'),
        set_maxslots (frame_maxslots env2) env').

Definition For_Phrase_analyze (this : Phrase) (args : Delimited Phrase)
    (body : Phrase) : M Meaning :=
  match args_ args with
  | [a] =>
      match expr_ a with
      | Definition_Phrase left_ _ right_ =>
          match left_ with
          | Identifier id =>
              let name := atom_ id in
              let* list := analyze_op right_ in
              let* env := get_env in
              let slot := env_nslots env in
              let* r := in_scope (For_Environ_new env name slot)
                     (analyze_op body) in
              let '(body', body_env) := r in
              fun env' =>
                Ok (Op (For_Expr this slot list body'),
                    set_maxslots (frame_maxslots body_env) env')
          | _ => throw left_ "for: not an identifier"
          end
      | defexpr => throw defexpr "for: not a definition"
      end
  | _ => throw (Paren_Phrase args) "for: malformed argument"
  end.

Definition Range_Phrase_analyze (this first last : Phrase)
    (step : option Phrase) : M Meaning :=
  let* f := analyze_op first in
  let* l := analyze_op last in
  match step with
  | Some step =>
      let* s := analyze_op step in ret (Op (Range_Gen this f l (Some s)))
  | None => ret (Op (Range_Gen this f l None))
  end.

(** The virtual call [ph.analyze(env)].  analyzer.cc does not define
    the analysis of [Empty_Phrase] and [Program_Phrase]. *)
Definition analyze_phrase (ph : Phrase) : M Meaning :=
  match ph with
  | Identifier id => Identifier_analyze id
  | Numeral loc => Numeral_analyze ph loc
  | String_Phrase loc => String_Phrase_analyze ph loc
  | Empty_Phrase _ => fun _ => Undefined
  | Unary_Phrase op arg => Unary_Phrase_analyze ph op arg
  | Binary_Phrase left_ op right_ => Binary_Phrase_analyze ph left_ op right_
  | Lambda_Phrase left_ _ right_ recursive =>
      Lambda_Phrase_analyze ph left_ right_ recursive
  | Definition_Phrase _ _ _ => throw ph "not an operation"
  | Semicolon_Phrase args => Semicolon_Phrase_analyze ph args
  | Comma_Phrase args => sequence_analyze ph args
  | Paren_Phrase parens => sequence_analyze ph (args_ parens)
  | List_Phrase brackets => List_Phrase_analyze ph (args_ brackets)
  | Record_Phrase braces => Record_Phrase_analyze ph (args_ braces)
  | Call_Phrase function args _ => Call_Phrase_analyze ph function args
  | If_Phrase _ condition then_expr _ else_expr =>
      If_Phrase_analyze ph condition then_expr else_expr
  | For_Phrase _ args body => For_Phrase_analyze ph args body
  | Let_Phrase _ args body => Let_Phrase_analyze ph args body
  | Range_Phrase first _ last _ step =>
      Range_Phrase_analyze ph first last step
  | Module_Phrase body => analyze_module ph body
  | Program_Phrase _ _ => fun _ => Undefined
  end.

End Analyze.

(** [Phrase::analyze], the recursion bounded by [fuel]. *)
Fixpoint analyze (fuel : nat) (ph : Phrase) (env : Environ) {struct fuel}
  : Result (Meaning * Environ) :=
  match fuel with
  | 0 => Out_Of_Fuel
  | S fuel' => analyze_phrase (analyze fuel') ph env
  end.

(** ** The parser (parser.cc) *)

(** Modelled from the spec: the scanner is an external collaborator
    (scanner.h is missing).  [get_token] returns the next token and, at
    the end of the script, a [k_end] token again and again; [push_token]
    returns one token to the stream. *)
Record Scanner : Set := mkScanner {
  scanner_script : Script;
  tokens : list Token
}.

Definition Parser (A : Type) : Type := St Scanner A.

Definition end_token (sc : Scanner) : Token :=
  let n := String.length (text (scanner_script sc)) in
  mkToken n n n k_end.

Definition get_token : Parser Token :=
  fun sc =>
    match tokens sc with
    | tok :: rest => Ok (tok, mkScanner (scanner_script sc) rest)
    | [] => Ok (end_token sc, sc)
    end.

Definition push_token (tok : Token) : Parser unit :=
  fun sc => Ok (tt, mkScanner (scanner_script sc) (tok :: tokens sc)).

Definition get_script : Parser Script :=
  fun sc => Ok (scanner_script sc, sc).

Definition is_list_end_token (k : Kind) : bool :=
  match k with
  | k_end | k_rparen | k_rbracket | k_rbrace => true
  | _ => false
  end.

Definition is_semicolon_end_token (k : Kind) : bool :=
  match k with
  | k_end | k_comma | k_rparen | k_rbracket | k_rbrace => true
  | _ => false
  end.

(** Modelled from the spec: the constructors of the token phrases and of
    the delimited phrases are in the missing phrase.h.  An identifier's
    atom is the text of its token.  A delimited phrase holds "a sequence
    of {expr, comma} pairs": none for an empty body, the pairs of a comma
    phrase, and otherwise the body alone with no separator. *)
Definition make_Identifier (script : Script) (tok : Token) : Phrase :=
  let loc := mkLocation script tok in
  Identifier (mkIdent loc (range loc)).

Definition delimited_args (body : Phrase) : list (Arg Phrase) :=
  match body with
  | Empty_Phrase _ => []
  | Comma_Phrase args => args
  | _ => [mkArg body Token_default]
  end.

Inductive Delimiter : Set := Parens | Brackets | Braces.

Definition make_Delimited (d : Delimiter) (tok : Token) (body : Phrase)
    (tok2 : Token) : Phrase :=
  let args := mkDelimited tok (delimited_args body) tok2 in
  match d with
  | Parens => Paren_Phrase args
  | Brackets => List_Phrase args
  | Braces => Record_Phrase args
  end.

Definition close_of (d : Delimiter) : Kind :=
  match d with
  | Parens => k_rparen
  | Brackets => k_rbracket
  | Braces => k_rbrace
  end.

(** [cast<Paren_Phrase>(p)] *)
Definition cast_Paren_Phrase (p : Phrase) : option (Delimited Phrase) :=
  match p with Paren_Phrase args => Some args | _ => None end.

Definition out_of_fuel {S A} : St S A := fun _ => Out_Of_Fuel.
Definition undefined {S A} : St S A := fun _ => Undefined.

Section Parse.

(** The recursive calls that go back up the grammar; every [for (;;)]
    loop runs on the natural number [fuel]. *)
Variable parse_commas_rec : Parser Phrase.
Variable parse_item_rec : Parser Phrase.
Variable parse_unary_rec : Parser Phrase.
Variable parse_primary_rec : option string -> Parser (option Phrase).
Variable fuel : nat.

Definition parse_delimited (d : Delimiter) (tok : Token) : Parser Phrase :=
  let* body := parse_commas_rec in
  let* tok2 := get_token in
  if decide (kind tok2 = k_end) then
    raise (At_Token tok) "unmatched delimiter"
  else if decide (kind tok2 = close_of d) then
    ret (make_Delimited d tok body tok2)
  else
    raise (At_Token tok2) "syntax error in delimited phrase".

(** [what = None] is the null pointer: an optional primary. *)
Definition parse_primary (what : option string) : Parser (option Phrase) :=
  let* tok := get_token in
  let* script := get_script in
  match kind tok with
  | k_num => ret (Some (Numeral (mkLocation script tok)))
  | k_ident => ret (Some (make_Identifier script tok))
  | k_string => ret (Some (String_Phrase (mkLocation script tok)))
  | k_let =>
      let* p := parse_primary_rec (Some "argument following 'let'") in
      match p with
      | None => undefined
      | Some p =>
          match cast_Paren_Phrase p with
          | None => raise (At_Phrase p) "let: malformed argument"
          | Some args =>
              let* body := parse_item_rec in
              ret (Some (Let_Phrase tok args body))
          end
      end
  | k_lparen => let* p := parse_delimited Parens tok in ret (Some p)
  | k_lbracket => let* p := parse_delimited Brackets tok in ret (Some p)
  | k_lbrace => let* p := parse_delimited Braces tok in ret (Some p)
  | k_end =>
      match what with
      | Some what => raise (At_Token tok) ("missing " ++ what)
      | None => let* _ := push_token tok in ret None
      end
  | _ =>
      match what with
      | Some what =>
          raise (At_Token tok) ("unexpected token when expecting " ++ what)
      | None => let* _ := push_token tok in ret None
      end
  end.

(** A call with a non-null [what] returns a phrase or throws. *)
Definition parse_primary_what (what : string) : Parser Phrase :=
  let* p := parse_primary (Some what) in
  match p with
  | Some p => ret p
  | None => undefined
  end.

Fixpoint parse_postfix_loop (n : nat) (postfix : Phrase) : Parser Phrase :=
  match n with
  | 0 => out_of_fuel
  | S n' =>
      let* tok := get_token in
      match kind tok with
      | k_power =>
          let* u := parse_unary_rec in
          ret (Binary_Phrase postfix tok u)
      | k_dot =>
          let* p := parse_primary_what "expression following ." in
          parse_postfix_loop n' (Binary_Phrase postfix tok p)
      | k_apostrophe =>
          let* p := parse_primary_what "expression following '" in
          parse_postfix_loop n' (Binary_Phrase postfix tok p)
      | _ =>
          let* _ := push_token tok in
          let* primary := parse_primary None in
          match primary with
          | None => ret postfix
          | Some primary =>
              parse_postfix_loop n'
                (Call_Phrase postfix primary Token_default)
          end
      end
  end.

Definition parse_postfix : Parser Phrase :=
  let* postfix := parse_primary_what "expression" in
  parse_postfix_loop fuel postfix.

Definition parse_unary : Parser Phrase :=
  let* tok := get_token in
  match kind tok with
  | k_plus | k_minus | k_not =>
      let* u := parse_unary_rec in
      ret (Unary_Phrase tok u)
  | _ =>
      let* _ := push_token tok in
      parse_postfix
  end.

Fixpoint parse_product_loop (n : nat) (left_ : Phrase) : Parser Phrase :=
  match n with
  | 0 => out_of_fuel
  | S n' =>
      let* tok := get_token in
      match kind tok with
      | k_times | k_over =>
          let* r := parse_unary in
          parse_product_loop n' (Binary_Phrase left_ tok r)
      | _ => let* _ := push_token tok in ret left_
      end
  end.

Definition parse_product : Parser Phrase :=
  let* left_ := parse_unary in
  parse_product_loop fuel left_.

Fixpoint parse_sum_loop (n : nat) (left_ : Phrase) : Parser Phrase :=
  match n with
  | 0 => out_of_fuel
  | S n' =>
      let* tok := get_token in
      match kind tok with
      | k_plus | k_minus =>
          let* r := parse_product in
          parse_sum_loop n' (Binary_Phrase left_ tok r)
      | _ => let* _ := push_token tok in ret left_
      end
  end.

Definition parse_sum : Parser Phrase :=
  let* left_ := parse_product in
  parse_sum_loop fuel left_.

Definition parse_range : Parser Phrase :=
  let* left_ := parse_sum in
  let* tok := get_token in
  match kind tok with
  | k_range | k_open_range =>
      let* right_ := parse_sum in
      let* tok2 := get_token in
      if decide (kind tok2 = k_by) then
        let* step := parse_sum in
        ret (Range_Phrase left_ tok right_ tok2 (Some step))
      else
        let* _ := push_token tok2 in
        ret (Range_Phrase left_ tok right_ Token_default None)
  | _ => let* _ := push_token tok in ret left_
  end.

Definition parse_relation : Parser Phrase :=
  let* left_ := parse_range in
  let* tok := get_token in
  match kind tok with
  | k_equal | k_not_equal | k_less | k_less_or_equal
  | k_greater | k_greater_or_equal =>
      let* r := parse_range in
      ret (Binary_Phrase left_ tok r)
  | _ => let* _ := push_token tok in ret left_
  end.

Fixpoint parse_conjunction_loop (n : nat) (left_ : Phrase)
  : Parser Phrase :=
  match n with
  | 0 => out_of_fuel
  | S n' =>
      let* tok := get_token in
      match kind tok with
      | k_and =>
          let* r := parse_relation in
          parse_conjunction_loop n' (Binary_Phrase left_ tok r)
      | _ => let* _ := push_token tok in ret left_
      end
  end.

Definition parse_conjunction : Parser Phrase :=
  let* left_ := parse_relation in
  parse_conjunction_loop fuel left_.

Fixpoint parse_disjunction_loop (n : nat) (left_ : Phrase)
  : Parser Phrase :=
  match n with
  | 0 => out_of_fuel
  | S n' =>
      let* tok := get_token in
      match kind tok with
      | k_or =>
          let* r := parse_conjunction in
          parse_disjunction_loop n' (Binary_Phrase left_ tok r)
      | k_right_call =>
          let* f := parse_conjunction in
          parse_disjunction_loop n' (Call_Phrase f left_ tok)
      | _ => let* _ := push_token tok in ret left_
      end
  end.

Definition parse_disjunction : Parser Phrase :=
  let* left_ := parse_conjunction in
  parse_disjunction_loop fuel left_.

Definition parse_item : Parser Phrase :=
  let* tok := get_token in
  match kind tok with
  | k_ellipsis =>
      let* i := parse_item_rec in
      ret (Unary_Phrase tok i)
  | k_if =>
      let* condition := parse_primary_what "condition following 'if'" in
      let* then_expr := parse_item_rec in
      let* tok2 := get_token in
      if decide (kind tok2 = k_else) then
        let* else_expr := parse_item_rec in
        ret (If_Phrase tok condition then_expr tok2 (Some else_expr))
      else
        let* _ := push_token tok2 in
        ret (If_Phrase tok condition then_expr Token_default None)
  | k_for =>
      let* p := parse_primary_what "argument following 'for'" in
      match cast_Paren_Phrase p with
      | None => raise (At_Phrase p) "for: malformed argument"
      | Some args =>
          let* body := parse_item_rec in
          ret (For_Phrase tok args body)
      end
  | _ =>
      let* _ := push_token tok in
      let* left_ := parse_disjunction in
      let* tok := get_token in
      match kind tok with
      | k_equate =>
          let* i := parse_item_rec in
          ret (Definition_Phrase left_ tok i)
      | k_colon =>
          let* i := parse_item_rec in
          ret (Binary_Phrase left_ tok i)
      | k_right_arrow =>
          let* i := parse_item_rec in
          ret (Lambda_Phrase left_ tok i false)
      | k_left_call =>
          let* i := parse_item_rec in
          ret (Call_Phrase left_ i tok)
      | _ => let* _ := push_token tok in ret left_
      end
  end.

(** The loop of [parse_semicolons]; [args] is [semis->args_]. *)
Fixpoint parse_semicolons_loop (n : nat) (args : list (Arg Phrase))
  : Parser Phrase :=
  match n with
  | 0 => out_of_fuel
  | S n' =>
      let* item := parse_item in
      let* tok := get_token in
      if decide (kind tok = k_semicolon) then
        let args' := (args ++ [mkArg item tok])%list in
        let* tok := get_token in
        let* _ := push_token tok in
        if is_semicolon_end_token (kind tok) then
          ret (Semicolon_Phrase args')
        else parse_semicolons_loop n' args'
      else if is_semicolon_end_token (kind tok) then
        let* _ := push_token tok in
        match args with
        | [] => ret item
        | _ => ret (Semicolon_Phrase (args ++ [mkArg item Token_default]))
        end
      else raise (At_Token tok) "syntax error in semicolon phrase"
  end.

Definition parse_semicolons : Parser Phrase :=
  parse_semicolons_loop fuel [].

(** The loop of [parse_commas]; [args] is [commas->args_]. *)
Fixpoint parse_commas_loop (n : nat) (args : list (Arg Phrase))
  : Parser Phrase :=
  match n with
  | 0 => out_of_fuel
  | S n' =>
      let* semis := parse_semicolons in
      let* tok := get_token in
      if decide (kind tok = k_comma) then
        let args' := (args ++ [mkArg semis tok])%list in
        let* tok := get_token in
        let* _ := push_token tok in
        if is_list_end_token (kind tok) then
          ret (Comma_Phrase args')
        else parse_commas_loop n' args'
      else if is_list_end_token (kind tok) then
        let* _ := push_token tok in
        match args with
        | [] => ret semis
        | _ => ret (Comma_Phrase (args ++ [mkArg semis Token_default]))
        end
      else raise (At_Token tok) "syntax error in comma phrase"
  end.

Definition parse_commas : Parser Phrase :=
  let* tok := get_token in
  let* _ := push_token tok in
  if is_list_end_token (kind tok) then
    let* script := get_script in
    ret (Empty_Phrase
           (mkLocation script
              (mkToken (first_white tok) (first tok) (first tok)
                       (kind tok))))
  else parse_commas_loop fuel [].

End Parse.

(** The mutually recursive parsing functions, bounded by [fuel]. *)
Fixpoint parse_commas_fuel (fuel : nat) (sc : Scanner) {struct fuel}
  : Result (Phrase * Scanner) :=
  match fuel with
  | 0 => Out_Of_Fuel
  | S n =>
      parse_commas (parse_commas_fuel n) (parse_item_fuel n)
        (parse_unary_fuel n) (parse_primary_fuel n) n sc
  end
with parse_item_fuel (fuel : nat) (sc : Scanner) {struct fuel}
  : Result (Phrase * Scanner) :=
  match fuel with
  | 0 => Out_Of_Fuel
  | S n =>
      parse_item (parse_commas_fuel n) (parse_item_fuel n)
        (parse_unary_fuel n) (parse_primary_fuel n) n sc
  end
with parse_unary_fuel (fuel : nat) (sc : Scanner) {struct fuel}
  : Result (Phrase * Scanner) :=
  match fuel with
  | 0 => Out_Of_Fuel
  | S n =>
      parse_unary (parse_commas_fuel n) (parse_item_fuel n)
        (parse_unary_fuel n) (parse_primary_fuel n) n sc
  end
with parse_primary_fuel (fuel : nat) (what : option string) (sc : Scanner)
  {struct fuel} : Result (option Phrase * Scanner) :=
  match fuel with
  | 0 => Out_Of_Fuel
  | S n =>
      parse_primary (parse_commas_fuel n) (parse_item_fuel n)
        (parse_primary_fuel n) what sc
  end.

(** [parse_program] *)
Definition parse_program (fuel : nat) : Parser Phrase :=
  let* commas := parse_commas_fuel fuel in
  let* tok := get_token in
  if decide (kind tok = k_end) then ret (Program_Phrase commas tok)
  else raise (At_Token tok) "syntax error in program".

(** ** Notions used to state the properties *)

Local Open Scope list_scope.
Local Open Scope nat_scope.

Definition is_Constant (op : Operation) : bool :=
  match op with Constant _ _ => true | _ => false end.

(** The identifier tokens that occur in a phrase. *)
Fixpoint identifiers (ph : Phrase) : list Ident :=
  let args_ids (args : list (Arg Phrase)) :=
    flat_map (fun a => identifiers (expr_ a)) args in
  match ph with
  | Identifier id => [id]
  | Numeral _ | String_Phrase _ | Empty_Phrase _ => []
  | Unary_Phrase _ arg => identifiers arg
  | Binary_Phrase l _ r => identifiers l ++ identifiers r
  | Lambda_Phrase l _ r _ => identifiers l ++ identifiers r
  | Definition_Phrase l _ r => identifiers l ++ identifiers r
  | Semicolon_Phrase args => args_ids args
  | Comma_Phrase args => args_ids args
  | Paren_Phrase d => args_ids (args_ d)
  | List_Phrase d => args_ids (args_ d)
  | Record_Phrase d => args_ids (args_ d)
  | Call_Phrase f a _ => identifiers f ++ identifiers a
  | If_Phrase _ c t _ e =>
      identifiers c ++ identifiers t ++
      match e with Some e => identifiers e | None => [] end
  | For_Phrase _ d b => args_ids (args_ d) ++ identifiers b
  | Let_Phrase _ d b => args_ids (args_ d) ++ identifiers b
  | Range_Phrase f _ l _ s =>
      identifiers f ++ identifiers l ++
      match s with Some s => identifiers s | None => [] end
  | Module_Phrase b => identifiers b
  | Program_Phrase b _ => identifiers b
  end.

Definition args_identifiers (args : list (Arg Phrase)) : list Ident :=
  flat_map (fun a => identifiers (expr_ a)) args.

(** How one scope may differ between two moments of an analysis: its
    class, names and [frame_nslots] stay, [frame_maxslots] does not
    decrease, and an [Arg_Environ] only adds captures at the end. *)
Definition scope_evolves (s s' : Scope) : Prop :=
  frame_nslots s = frame_nslots s' ∧
  (frame_maxslots s ≤ frame_maxslots s')%nat ∧
  match self s, self s' with
  | Arg_Environ n d x r, Arg_Environ n' d' x' r' =>
      n = n' ∧ r = r' ∧ d ⊆ d' ∧ x `prefix_of` x'
  | c, c' => c = c'
  end.

Definition evolves (env env' : Environ) : Prop :=
  Forall2 scope_evolves env env'.

(** [captures I parent names d x d' x']: the nonlocal dictionary and
    list [d], [x] of a lambda scope with parameters [names] became [d'],
    [x'] by capturing, one after the other and each at the end of the
    list, identifiers of [I] that are neither parameters nor captured
    yet and that a state [penv] of the parent chain [parent] resolves
    to an operation other than a constant. *)
Inductive captures (I : Ident -> Prop) (parent : Environ)
    (names : gmap Atom nat)
  : gmap Atom nat -> list Operation -> gmap Atom nat -> list Operation -> Prop :=
| captures_refl d x : captures I parent names d x d x
| captures_step d x d' x' id e penv penv' :
    captures I parent names d x d' x' ->
    I id ->
    names !! atom_ id = None ->
    d' !! atom_ id = None ->
    evolves parent penv ->
    lookup penv id = Ok (Op e, penv') ->
    is_Constant e = false ->
    captures I parent names d x (<[atom_ id := length x']> d') (x' ++ [e]).

Definition scope_steps (I : Ident -> Prop) (parent : Environ) (s s' : Scope)
  : Prop :=
  frame_nslots s = frame_nslots s' ∧
  (frame_maxslots s ≤ frame_maxslots s')%nat ∧
  match self s, self s' with
  | Arg_Environ n d x r, Arg_Environ n' d' x' r' =>
      n = n' ∧ r = r' ∧ captures I parent n d x d' x'
      ∧ (r = true -> d' = d ∧ x' = x)
  | c, c' => c = c'
  end.

(** The Environ chain [env] became [env'] by analyzing phrases whose
    identifiers are in [I]: the scopes keep their class, names and
    [frame_nslots], no [frame_maxslots] has decreased, the scope of a
    lambda has only added captures, and none if it is recursive. *)
Inductive env_steps (I : Ident -> Prop) : Environ -> Environ -> Prop :=
| env_steps_nil : env_steps I [] []
| env_steps_cons s s' env env' :
    env_steps I env env' ->
    scope_steps I env s s' ->
    env_steps I (s :: env) (s' :: env').

(** [c] changes the Environ chain only by steps over [I]. *)
Definition ok {A} (I : Ident -> Prop) (c : M A) : Prop :=
  forall env a env', c env = Ok (a, env') -> env_steps I env env'.

(** The scope [e] with parent chain [parent] does not resolve [id]:
    its [single_lookup] returns the null pointer. *)
Definition absent (e : Scope) (parent : Environ) (id : Ident) : Prop :=
  single_lookup e parent (lookup parent id) id = Ok None.

(** No scope of [pre], a chain that continues with [rest], resolves
    [id]. *)
Fixpoint all_absent (pre rest : Environ) (id : Ident) : Prop :=
  match pre with
  | [] => True
  | e :: pre' => absent e (pre' ++ rest) id /\ all_absent pre' rest id
  end.

Definition is_Identifier (ph : Phrase) : bool :=
  match ph with Identifier _ => true | _ => false end.

(** The left side of a lambda phrase from which no parameter list can
    be made: neither an identifier nor a parenthesized phrase, or a
    parenthesized phrase with an element that is not an identifier. *)
Definition not_parameters (left_ : Phrase) : Prop :=
  (is_Identifier left_ = false /\ forall d, left_ <> Paren_Phrase d)
  \/ (exists d, left_ = Paren_Phrase d /\
                Exists (fun a => is_Identifier (expr_ a) = false) (args_ d)).

(** ** Fuel

    The recursion of [analyze] and of the parsing functions is bounded
    by a natural number.  [extends c1 c2]: wherever [c1] does not run
    out of fuel, [c2] ends as [c1] does.  [runs c]: [c] never runs out
    of fuel. *)
Definition extends {S A} (c1 c2 : St S A) : Prop :=
  forall s, c1 s <> Out_Of_Fuel -> c2 s = c1 s.

Definition runs {S A} (c : St S A) : Prop :=
  forall s, c s <> Out_Of_Fuel.

(** The number of nodes of a phrase. *)
Fixpoint phrase_size (ph : Phrase) : nat :=
  let args_size (args : list (Arg Phrase)) :=
    list_sum (map (fun a => phrase_size (expr_ a)) args) in
  S match ph with
    | Identifier _ | Numeral _ | String_Phrase _ | Empty_Phrase _ => 0
    | Unary_Phrase _ arg => phrase_size arg
    | Binary_Phrase l _ r => phrase_size l + phrase_size r
    | Lambda_Phrase l _ r _ => phrase_size l + phrase_size r
    | Definition_Phrase l _ r => phrase_size l + phrase_size r
    | Semicolon_Phrase args => args_size args
    | Comma_Phrase args => args_size args
    | Paren_Phrase d => args_size (args_ d)
    | List_Phrase d => args_size (args_ d)
    | Record_Phrase d => args_size (args_ d)
    | Call_Phrase f a _ => phrase_size f + phrase_size a
    | If_Phrase _ c t _ e =>
        phrase_size c + phrase_size t +
        match e with Some e => phrase_size e | None => 0 end
    | For_Phrase _ d b => args_size (args_ d) + phrase_size b
    | Let_Phrase _ d b => args_size (args_ d) + phrase_size b
    | Range_Phrase f _ l _ s =>
        phrase_size f + phrase_size l +
        match s with Some s => phrase_size s | None => 0 end
    | Module_Phrase b => phrase_size b
    | Program_Phrase b _ => phrase_size b
    end.

Definition args_size (args : list (Arg Phrase)) : nat :=
  list_sum (map (fun a => phrase_size (expr_ a)) args).

(** The tokens left in the stream, end tokens apart. *)
Definition weight (tok : Token) : nat :=
  match kind tok with k_end => 0 | _ => 1 end.

Definition pending (sc : Scanner) : nat := list_sum (map weight (tokens sc)).

(** [wp c Q sc]: from the stream [sc] the parsing function [c] does not
    run out of fuel, and a result of it satisfies [Q]. *)
Definition wp {A} (c : Parser A) (Q : A -> Scanner -> Prop) (sc : Scanner)
  : Prop :=
  match c sc with
  | Ok (a, sc') => Q a sc'
  | Out_Of_Fuel => False
  | _ => True
  end.

(** On a stream of fewer than [n] pending tokens [c] does not run out
    of fuel, and it returns with at least [d] of them taken. *)
Definition eats {A} (n d : nat) (c : Parser A) : Prop :=
  forall sc, pending sc < n ->
    wp c (fun _ sc' => pending sc' + d <= pending sc) sc.

(** The same for an optional primary: a phrase takes a token, the null
    pointer does not have to. *)
Definition eats_opt {A} (n : nat) (c : Parser (option A)) : Prop :=
  forall sc, pending sc < n ->
    wp c (fun r sc' => pending sc' + (if r is Some _ then 1 else 0)
                       <= pending sc) sc.

(** ** The grammar of parser.cc

    The precedence levels of the grammar, from the loosest to the
    tightest: commas, semicolons, item, disjunction, conjunction,
    relation, range, sum, product, unary, postfix, primary. *)
Definition L_commas := 0.
Definition L_semicolons := 1.
Definition L_item := 2.
Definition L_disjunction := 3.
Definition L_conjunction := 4.
Definition L_relation := 5.
Definition L_range := 6.
Definition L_sum := 7.
Definition L_product := 8.
Definition L_unary := 9.
Definition L_postfix := 10.
Definition L_primary := 11.

(** The level of the production of which a phrase is made, by its root
    node. *)
Definition level (ph : Phrase) : nat :=
  match ph with
  | Identifier _ | Numeral _ | String_Phrase _ => L_primary
  | Paren_Phrase _ | List_Phrase _ | Record_Phrase _ => L_primary
  | Let_Phrase _ _ _ => L_primary
  | Call_Phrase _ _ op =>
      match kind op with
      | k_left_call => L_item
      | k_right_call => L_disjunction
      | _ => L_postfix
      end
  | Binary_Phrase _ op _ =>
      match kind op with
      | k_power | k_dot | k_apostrophe => L_postfix
      | k_times | k_over => L_product
      | k_plus | k_minus => L_sum
      | k_equal | k_not_equal | k_less | k_less_or_equal
      | k_greater | k_greater_or_equal => L_relation
      | k_and => L_conjunction
      | k_or => L_disjunction
      | _ => L_item
      end
  | Unary_Phrase op _ =>
      match kind op with
      | k_plus | k_minus | k_not => L_unary
      | _ => L_item
      end
  | Range_Phrase _ _ _ _ _ => L_range
  | Lambda_Phrase _ _ _ _ | Definition_Phrase _ _ _ => L_item
  | If_Phrase _ _ _ _ _ | For_Phrase _ _ _ => L_item
  | Semicolon_Phrase _ => L_semicolons
  | Comma_Phrase _ | Empty_Phrase _ => L_commas
  | Module_Phrase _ | Program_Phrase _ _ => L_commas
  end.

(** [conforms ph]: every node of [ph] is an instance of a production of
    the grammar, with each operand at the level the production asks:
<<
    commas : empty | list | list ,     list : semicolons | list , semicolons
    semicolons : semis | semis ;       semis : item | semis ; item
    item : disjunction | ... item | disjunction = item | disjunction : item
      | disjunction -> item | disjunction << item
      | if primary item | if primary item else item | for parens item
    disjunction : conjunction | disjunction || conjunction
      | disjunction >> conjunction
    conjunction : relation | conjunction && relation
    relation : range | range == range | ... | range >= range
    range : sum | sum .. sum | sum .. sum by sum | sum ..< sum | ...
    sum : product | sum + product | sum - product
    product : unary | product * unary | product / unary
    unary : postfix | - unary | + unary | ! unary
    postfix : primary | postfix primary | postfix . primary
      | postfix ' primary | postfix ^ unary
    primary : numeral | identifier | string | parens | list | braces
      | let parens item
>>  *)
Fixpoint conforms (ph : Phrase) : bool :=
  let operand (l : nat) (p : Phrase) := (l <=? level p) && conforms p in
  let elements (l : nat) (sep : Kind) (args : list (Arg Phrase)) :=
    forallb (fun a => (l <=? level (expr_ a)) && conforms (expr_ a)
                      && (bool_decide (kind (comma_ a) = sep)
                          || bool_decide (kind (comma_ a) = k_missing)))
            args in
  match ph with
  | Identifier _ | Numeral _ | String_Phrase _ | Empty_Phrase _ => true
  | Unary_Phrase op arg =>
      match kind op with
      | k_plus | k_minus | k_not => operand L_unary arg
      | k_ellipsis => operand L_item arg
      | _ => false
      end
  | Binary_Phrase l op r =>
      match kind op with
      | k_power => operand L_postfix l && operand L_unary r
      | k_dot | k_apostrophe => operand L_postfix l && operand L_primary r
      | k_times | k_over => operand L_product l && operand L_unary r
      | k_plus | k_minus => operand L_sum l && operand L_product r
      | k_equal | k_not_equal | k_less | k_less_or_equal
      | k_greater | k_greater_or_equal =>
          operand L_range l && operand L_range r
      | k_and => operand L_conjunction l && operand L_relation r
      | k_or => operand L_disjunction l && operand L_conjunction r
      | k_colon => operand L_disjunction l && operand L_item r
      | _ => false
      end
  | Lambda_Phrase l op r recursive =>
      bool_decide (kind op = k_right_arrow) && negb recursive
      && operand L_disjunction l && operand L_item r
  | Definition_Phrase l op r =>
      bool_decide (kind op = k_equate)
      && operand L_disjunction l && operand L_item r
  | Semicolon_Phrase args => elements L_item k_semicolon args
  | Comma_Phrase args => elements L_semicolons k_comma args
  | Paren_Phrase d =>
      bool_decide (kind (lparen_ d) = k_lparen)
      && bool_decide (kind (rparen_ d) = k_rparen)
      && elements L_semicolons k_comma (args_ d)
  | List_Phrase d =>
      bool_decide (kind (lparen_ d) = k_lbracket)
      && bool_decide (kind (rparen_ d) = k_rbracket)
      && elements L_semicolons k_comma (args_ d)
  | Record_Phrase d =>
      bool_decide (kind (lparen_ d) = k_lbrace)
      && bool_decide (kind (rparen_ d) = k_rbrace)
      && elements L_semicolons k_comma (args_ d)
  | Call_Phrase f a op =>
      match kind op with
      | k_left_call => operand L_disjunction f && operand L_item a
      | k_right_call => operand L_conjunction f && operand L_disjunction a
      | k_missing => operand L_postfix f && operand L_primary a
      | _ => false
      end
  | If_Phrase if_ c t else_ e =>
      bool_decide (kind if_ = k_if)
      && operand L_primary c && operand L_item t
      && match e with
         | Some e => bool_decide (kind else_ = k_else) && operand L_item e
         | None => bool_decide (kind else_ = k_missing)
         end
  | For_Phrase for_ d b =>
      bool_decide (kind for_ = k_for)
      && bool_decide (kind (lparen_ d) = k_lparen)
      && bool_decide (kind (rparen_ d) = k_rparen)
      && elements L_semicolons k_comma (args_ d) && operand L_item b
  | Let_Phrase let_ d b =>
      bool_decide (kind let_ = k_let)
      && bool_decide (kind (lparen_ d) = k_lparen)
      && bool_decide (kind (rparen_ d) = k_rparen)
      && elements L_semicolons k_comma (args_ d) && operand L_item b
  | Range_Phrase f op1 l op2 s =>
      (bool_decide (kind op1 = k_range)
       || bool_decide (kind op1 = k_open_range))
      && operand L_sum f && operand L_sum l
      && match s with
         | Some s => bool_decide (kind op2 = k_by) && operand L_sum s
         | None => bool_decide (kind op2 = k_missing)
         end
  | Module_Phrase _ | Program_Phrase _ _ => false
  end.

(** The tokens that the scanner still has to deliver, end tokens
    apart. *)
Definition real (tok : Token) : list Token :=
  match kind tok with k_end => [] | _ => [tok] end.

Definition stream (sc : Scanner) : list Token := flat_map real (tokens sc).

(** The tokens that a phrase holds, in the order of the script.  A
    separator that is missing ([Token{}]) and an end token are not
    tokens of the script. *)
Definition tok_list (tok : Token) : list Token :=
  match kind tok with k_end | k_missing => [] | _ => [tok] end.

Fixpoint phrase_tokens (ph : Phrase) : list Token :=
  let args_tokens (args : list (Arg Phrase)) :=
    flat_map (fun a => phrase_tokens (expr_ a) ++ tok_list (comma_ a)) args in
  let delimited (d : Delimited Phrase) :=
    tok_list (lparen_ d) ++ args_tokens (args_ d) ++ tok_list (rparen_ d) in
  match ph with
  | Identifier id => tok_list (token_ (id_loc id))
  | Numeral loc | String_Phrase loc => tok_list (token_ loc)
  | Empty_Phrase _ => []
  | Unary_Phrase op arg => tok_list op ++ phrase_tokens arg
  | Binary_Phrase l op r => phrase_tokens l ++ tok_list op ++ phrase_tokens r
  | Lambda_Phrase l op r _ => phrase_tokens l ++ tok_list op ++ phrase_tokens r
  | Definition_Phrase l op r =>
      phrase_tokens l ++ tok_list op ++ phrase_tokens r
  | Semicolon_Phrase args | Comma_Phrase args => args_tokens args
  | Paren_Phrase d | List_Phrase d | Record_Phrase d => delimited d
  | Call_Phrase f a op =>
      match kind op with
      | k_right_call => phrase_tokens a ++ tok_list op ++ phrase_tokens f
      | _ => phrase_tokens f ++ tok_list op ++ phrase_tokens a
      end
  | If_Phrase if_ c t else_ e =>
      tok_list if_ ++ phrase_tokens c ++ phrase_tokens t ++ tok_list else_
      ++ match e with Some e => phrase_tokens e | None => [] end
  | For_Phrase t d b | Let_Phrase t d b =>
      tok_list t ++ delimited d ++ phrase_tokens b
  | Range_Phrase f op1 l op2 s =>
      phrase_tokens f ++ tok_list op1 ++ phrase_tokens l ++ tok_list op2
      ++ match s with Some s => phrase_tokens s | None => [] end
  | Module_Phrase b => phrase_tokens b
  | Program_Phrase b end_ => phrase_tokens b ++ tok_list end_
  end.

Definition args_tokens (args : list (Arg Phrase)) : list Token :=
  flat_map (fun a => phrase_tokens (expr_ a) ++ tok_list (comma_ a)) args.

Definition elements_conform (l : nat) (sep : Kind) (args : list (Arg Phrase))
  : bool :=
  forallb (fun a => (l <=? level (expr_ a)) && conforms (expr_ a)
                    && (bool_decide (kind (comma_ a) = sep)
                        || bool_decide (kind (comma_ a) = k_missing)))
          args.

(** [post c Q sc]: what [c] returns from the stream [sc] satisfies
    [Q]. *)
Definition post {A} (c : Parser A) (Q : A -> Scanner -> Prop) (sc : Scanner)
  : Prop :=
  match c sc with
  | Ok (a, sc') => Q a sc'
  | _ => True
  end.

(** [ph] has been parsed from [sc], leaving [sc']: it is made of the
    tokens taken from the stream, it conforms to the grammar, and it is
    of level [l] or tighter. *)
Definition parsed (l : nat) (sc : Scanner) (ph : Phrase) (sc' : Scanner)
  : Prop :=
  stream sc = phrase_tokens ph ++ stream sc'
  /\ conforms ph = true /\ l <= level ph.

Definition parsed_opt (sc : Scanner) (p : option Phrase) (sc' : Scanner)
  : Prop :=
  match p with
  | Some ph => parsed L_primary sc ph sc'
  | None => stream sc = stream sc'
  end.

(** [c] returns phrases parsed at level [l]. *)
Definition parses (l : nat) (c : Parser Phrase) : Prop :=
  forall sc, post c (parsed l sc) sc.

(** ** Notions for the analyzer *)

(** The outcome [std::bad_cast]. *)
Definition is_bad_cast {A} (r : Result A) : Prop :=
  match r with Throw bad_cast => True | _ => False end.

(** [c] never throws [std::bad_cast]. *)
Definition no_bad_cast {S A} (c : St S A) : Prop :=
  forall s, ~ is_bad_cast (c s).




(** The number of newline characters among the first [n] characters of
    a text. *)
Definition newlines_before (n : nat) (s : string) : nat :=
  length (List.filter (fun c => Ascii.eqb c "010"%char)
            (take n (list_ascii_of_string s))).

(** ** Slot references

    At run time an operation works on a frame of [n] slots, which holds
    the arguments of the enclosing lambda and then the variables of its
    [let] and [for] phrases, and on the [k] nonlocals of the enclosing
    closure.  [scoped n k op]: every [Arg_Ref], [Let_Ref], [Let_Expr]
    and [For_Expr] of [op] stays within the [n] slots, every
    [Nonlocal_Ref] within the [k] nonlocals, the body of every
    [Lambda_Expr] within the frame and the nonlocals that the
    [Lambda_Expr] itself announces, and [op] holds no reference into a
    module. *)
Inductive scoped : nat -> nat -> Operation -> Prop :=
| scoped_Constant n k src v : scoped n k (Constant src v)
| scoped_Not_Expr n k src a : scoped n k a -> scoped n k (Not_Expr src a)
| scoped_Prefix_Expr n k src op a :
    scoped n k a -> scoped n k (Prefix_Expr src op a)
| scoped_Infix_Expr n k src op a b :
    scoped n k a -> scoped n k b -> scoped n k (Infix_Expr src op a b)
| scoped_Or_Expr n k src a b :
    scoped n k a -> scoped n k b -> scoped n k (Or_Expr src a b)
| scoped_And_Expr n k src a b :
    scoped n k a -> scoped n k b -> scoped n k (And_Expr src a b)
| scoped_Equal_Expr n k src a b :
    scoped n k a -> scoped n k b -> scoped n k (Equal_Expr src a b)
| scoped_Not_Equal_Expr n k src a b :
    scoped n k a -> scoped n k b -> scoped n k (Not_Equal_Expr src a b)
| scoped_Less_Expr n k src a b :
    scoped n k a -> scoped n k b -> scoped n k (Less_Expr src a b)
| scoped_Greater_Expr n k src a b :
    scoped n k a -> scoped n k b -> scoped n k (Greater_Expr src a b)
| scoped_Less_Or_Equal_Expr n k src a b :
    scoped n k a -> scoped n k b -> scoped n k (Less_Or_Equal_Expr src a b)
| scoped_Greater_Or_Equal_Expr n k src a b :
    scoped n k a -> scoped n k b ->
    scoped n k (Greater_Or_Equal_Expr src a b)
| scoped_Power_Expr n k src a b :
    scoped n k a -> scoped n k b -> scoped n k (Power_Expr src a b)
| scoped_Dot_Expr n k src a id :
    scoped n k a -> scoped n k (Dot_Expr src a id)
| scoped_At_Expr n k src a b :
    scoped n k a -> scoped n k b -> scoped n k (At_Expr src a b)
| scoped_If_Expr n k src a b :
    scoped n k a -> scoped n k b -> scoped n k (If_Expr src a b)
| scoped_If_Else_Expr n k src a b c :
    scoped n k a -> scoped n k b -> scoped n k c ->
    scoped n k (If_Else_Expr src a b c)
| scoped_Let_Expr n k src first_slot values body :
    first_slot + length values <= n ->
    (forall i e, values !! i = Some (Thunk e) -> scoped n k e) ->
    scoped n k body ->
    scoped n k (Let_Expr src first_slot values body)
| scoped_For_Expr n k src slot list body :
    slot < n -> scoped n k list -> scoped n k body ->
    scoped n k (For_Expr src slot list body)
| scoped_Range_Gen n k src a b c :
    scoped n k a -> scoped n k b ->
    (forall e, c = Some e -> scoped n k e) ->
    scoped n k (Range_Gen src a b c)
| scoped_List_Expr n k src xs :
    (forall x, x ∈ xs -> scoped n k x) -> scoped n k (List_Expr src xs)
| scoped_Sequence_Expr n k src xs :
    (forall x, x ∈ xs -> scoped n k x) -> scoped n k (Sequence_Expr src xs)
| scoped_Record_Expr n k src fields :
    (forall a x, fields !! a = Some x -> scoped n k x) ->
    scoped n k (Record_Expr src fields)
| scoped_Lambda_Expr n k src body src' xs nargs nslots :
    nargs <= nslots ->
    scoped nslots (length xs) body ->
    (forall x, x ∈ xs -> scoped n k x) ->
    scoped n k (Lambda_Expr src body (List_Expr src' xs) nargs nslots)
| scoped_Call_Expr n k src f args argv :
    scoped n k f -> (forall x, x ∈ argv -> scoped n k x) ->
    scoped n k (Call_Expr src f args argv)
| scoped_Echo_Action n k src argv :
    (forall x, x ∈ argv -> scoped n k x) -> scoped n k (Echo_Action src argv)
| scoped_Arg_Ref n k src slot : slot < n -> scoped n k (Arg_Ref src slot)
| scoped_Let_Ref n k src slot : slot < n -> scoped n k (Let_Ref src slot)
| scoped_Nonlocal_Ref n k src slot :
    slot < k -> scoped n k (Nonlocal_Ref src slot).

(** The number of nonlocals that the lambda whose body is being
    analyzed in [env] has captured so far. *)
Fixpoint nl_count (env : Environ) : nat :=
  match env with
  | [] => 0
  | s :: parent =>
      match self s with
      | Arg_Environ _ _ x _ => length x
      | Let_Environ _ | For_Environ _ _ => nl_count parent
      | Builtin_Environ _ | Bindings_Environ _ => 0
      end
  end.

(** The chains of scopes that the analysis of an expression builds, on
    top of a builtin namespace: the scopes of [let] and [for] phrases
    continue the frame of their parent; the scope of a lambda that is
    not recursive starts a frame, its parameters are in it, and what it
    has captured is scoped in the chain around it. *)
Fixpoint env_scoped (env : Environ) : Prop :=
  match env with
  | [] => False
  | s :: parent =>
      frame_nslots s <= frame_maxslots s
      /\ match self s with
         | Builtin_Environ _ => parent = []
         | Bindings_Environ _ => False
         | Arg_Environ names d x recursive =>
             env_scoped parent
             /\ recursive = false
             /\ (forall a i, names !! a = Some i -> i < frame_nslots s)
             /\ (forall a i, d !! a = Some i -> i < length x)
             /\ (forall e, e ∈ x ->
                   scoped (env_maxslots parent) (nl_count parent) e)
         | Let_Environ names =>
             env_scoped parent
             /\ (forall a b, names !! a = Some b -> slot_ b < frame_nslots s)
             /\ env_nslots parent <= frame_nslots s
         | For_Environ _ slot =>
             env_scoped parent
             /\ slot < frame_nslots s /\ env_nslots parent <= frame_nslots s
         end
  end.

(** The names of the parameters of a lambda phrase are distinct. *)
Definition element_names (args : list (Arg Phrase)) : list Atom :=
  omap (fun a => match expr_ a with
                 | Identifier id => Some (atom_ id)
                 | _ => None
                 end) args.

Definition params_distinct (left_ : Phrase) : bool :=
  match left_ with
  | Paren_Phrase d => bool_decide (NoDup (element_names (args_ d)))
  | _ => true
  end.

(** An expression: a phrase with no module in it, in which no lambda is
    marked recursive and no lambda, written [x -> body] or as the
    definition [f(x) = body], has two parameters of the same name. *)
Fixpoint expression (ph : Phrase) : bool :=
  let elements (args : list (Arg Phrase)) :=
    forallb (fun a => expression (expr_ a)) args in
  match ph with
  | Identifier _ | Numeral _ | String_Phrase _ | Empty_Phrase _ => true
  | Unary_Phrase _ arg => expression arg
  | Binary_Phrase l _ r => expression l && expression r
  | Lambda_Phrase l _ r recursive =>
      negb recursive && params_distinct l && expression l && expression r
  | Definition_Phrase l _ r =>
      expression l && expression r
      && match l with
         | Call_Phrase _ args _ => params_distinct args
         | _ => true
         end
  | Semicolon_Phrase args | Comma_Phrase args => elements args
  | Paren_Phrase d | List_Phrase d | Record_Phrase d => elements (args_ d)
  | Call_Phrase f a _ => expression f && expression a
  | If_Phrase _ c t _ e =>
      expression c && expression t
      && match e with Some e => expression e | None => true end
  | For_Phrase _ d b | Let_Phrase _ d b =>
      elements (args_ d) && expression b
  | Range_Phrase f _ l _ s =>
      expression f && expression l
      && match s with Some s => expression s | None => true end
  | Module_Phrase _ | Program_Phrase _ _ => false
  end.

(** ** Example programs

    The token lists are those of the scanner on the script text. *)

(** The outermost scope: the builtin namespace. *)
Definition top_env : Environ := [Builtin_Environ_new builtin_namespace].

Definition ident_at (script : Script) (tok : Token) : Ident :=
  mkIdent (mkLocation script tok) (range (mkLocation script tok)).

Module Example_xx.
Definition script : Script := mkScript "" "(x,x)->x".
Definition tokens : list Token :=
  [mkToken 0 0 1 k_lparen; mkToken 1 1 2 k_ident; mkToken 2 2 3 k_comma;
   mkToken 3 3 4 k_ident; mkToken 4 4 5 k_rparen;
   mkToken 5 5 7 k_right_arrow; mkToken 7 7 8 k_ident;
   mkToken 8 8 8 k_end].
Definition x1 : Ident := ident_at script (mkToken 1 1 2 k_ident).
Definition x2 : Ident := ident_at script (mkToken 3 3 4 k_ident).
Definition x3 : Ident := ident_at script (mkToken 7 7 8 k_ident).
Definition parens : Delimited Phrase :=
  {| lparen_ := mkToken 0 0 1 k_lparen;
     args_ := [mkArg (Identifier x1) (mkToken 2 2 3 k_comma);
               mkArg (Identifier x2) Token_default];
     rparen_ := mkToken 4 4 5 k_rparen |}.
Definition lambda : Phrase :=
  Lambda_Phrase (Paren_Phrase parens) (mkToken 5 5 7 k_right_arrow)
    (Identifier x3) false.
End Example_xx.

Module Example_dot.
Definition script : Script := mkScript "" "pi.[1,2]".
Definition tokens : list Token :=
  [mkToken 0 0 2 k_ident; mkToken 2 2 3 k_dot; mkToken 3 3 4 k_lbracket;
   mkToken 4 4 5 k_num; mkToken 5 5 6 k_comma; mkToken 6 6 7 k_num;
   mkToken 7 7 8 k_rbracket; mkToken 8 8 8 k_end].
Definition brackets : Delimited Phrase :=
  {| lparen_ := mkToken 3 3 4 k_lbracket;
     args_ :=
       [mkArg (Numeral (mkLocation script (mkToken 4 4 5 k_num)))
              (mkToken 5 5 6 k_comma);
        mkArg (Numeral (mkLocation script (mkToken 6 6 7 k_num)))
              Token_default];
     rparen_ := mkToken 7 7 8 k_rbracket |}.
Definition phrase : Phrase :=
  Binary_Phrase (Identifier (ident_at script (mkToken 0 0 2 k_ident)))
    (mkToken 2 2 3 k_dot) (List_Phrase brackets).
End Example_dot.

(** A comma or semicolon phrase that holds exactly one element and no
    separator after it. *)
Definition unseparated_singleton (ph : Phrase) : Prop :=
  match ph with
  | Comma_Phrase [a] | Semicolon_Phrase [a] => kind (comma_ a) = k_missing
  | _ => False
  end.

(** A phrase that is neither a comma phrase nor a semicolon phrase. *)
Definition is_item (ph : Phrase) : Prop :=
  match ph with
  | Comma_Phrase _ | Semicolon_Phrase _ => False
  | _ => True
  end.

(** Every result of the parsing function [c] satisfies [P]. *)
Definition returns {A} (P : A -> Prop) (c : Parser A) : Prop :=
  forall sc a sc', c sc = Ok (a, sc') -> P a.

(** The definitions among a sequence of phrases, in textual order. *)
Fixpoint definitions (phs : list Phrase) : list Definition_ :=
  match phs with
  | [] => []
  | ph :: rest =>
      match analyze_def ph with
      | Ok (Some d) => d :: definitions rest
      | _ => definitions rest
      end
  end.

Definition def_atom (d : Definition_) : Atom := atom_ (name_ d).


Module Example_let.
Definition script : Script := mkScript "" "let(a=1, b=a+1) b".
Definition tokens : list Token :=
  [mkToken 0 0 3 k_let; mkToken 3 3 4 k_lparen; mkToken 4 4 5 k_ident;
   mkToken 5 5 6 k_equate; mkToken 6 6 7 k_num; mkToken 7 7 8 k_comma;
   mkToken 8 9 10 k_ident; mkToken 10 10 11 k_equate;
   mkToken 11 11 12 k_ident; mkToken 12 12 13 k_plus;
   mkToken 13 13 14 k_num; mkToken 14 14 15 k_rparen;
   mkToken 15 16 17 k_ident; mkToken 17 17 17 k_end].
Definition a1 : Ident := ident_at script (mkToken 4 4 5 k_ident).
Definition b1 : Ident := ident_at script (mkToken 8 9 10 k_ident).
Definition a2 : Ident := ident_at script (mkToken 11 11 12 k_ident).
Definition b2 : Ident := ident_at script (mkToken 15 16 17 k_ident).
Definition one1 : Phrase :=
  Numeral (mkLocation script (mkToken 6 6 7 k_num)).
Definition one2 : Phrase :=
  Numeral (mkLocation script (mkToken 13 13 14 k_num)).
Definition sum : Phrase :=
  Binary_Phrase (Identifier a2) (mkToken 12 12 13 k_plus) one2.
Definition parens : Delimited Phrase :=
  {| lparen_ := mkToken 3 3 4 k_lparen;
     args_ :=
       [mkArg (Definition_Phrase (Identifier a1) (mkToken 5 5 6 k_equate)
                 one1)
              (mkToken 7 7 8 k_comma);
        mkArg (Definition_Phrase (Identifier b1)
                 (mkToken 10 10 11 k_equate) sum)
              Token_default];
     rparen_ := mkToken 14 14 15 k_rparen |}.
Definition phrase : Phrase :=
  Let_Phrase (mkToken 0 0 3 k_let) parens (Identifier b2).
(** [Let_Expr(first_slot=0, values=[Thunk(Constant(1)),
    Thunk(Infix_Expr(+, Let_Ref(0), Constant(1)))], body=Let_Ref(1))] *)
Definition meaning : Operation :=
  Let_Expr phrase 0
    [Thunk (Constant one1 (Num (strtod "1")));
     Thunk (Infix_Expr sum k_plus (Let_Ref (Identifier a2) 0)
              (Constant one2 (Num (strtod "1"))))]
    (Let_Ref (Identifier b2) 1).
End Example_let.

(** What a successful analysis of [let (def1, ..., defn) body] in [env]
    has done, [m] being its result and [env'] the chain after it: every
    element is a definition; the binding of the k-th definition (in
    textual order) has slot [env.frame_nslots + k]; [m] is a [Let_Expr]
    whose [first_slot] is [env.frame_nslots], whose values array has one
    entry per binding, the k-th being the [Thunk] of the k-th definiens
    analyzed in the [Let_Environ], and whose body is analyzed in the
    [Let_Environ]; [env2] is the [Let_Environ] at the end, and
    [env.frame_maxslots] has become its [frame_maxslots]. *)
Definition Let_analysis (fuel : nat) (tok : Token)
    (largs : Delimited Phrase) (body : Phrase) (env : Environ)
    (m : Meaning) (env' : Environ) : Prop :=
  let this := Let_Phrase tok largs body in
  let first_slot := env_nslots env in
  exists defs bindings values body' env2 envp,
    Forall2 (fun a d => analyze_def (expr_ a) = Ok (Some d))
      (args_ largs) defs
    /\ (forall a bd,
          bindings !! a = Some bd <->
          exists k d, defs !! k = Some d /\ def_atom d = a
                      /\ bd = mkBinding (first_slot + k) (definiens_ d))
    /\ m = Op (Let_Expr this first_slot values body')
    /\ length values = length defs
    /\ (forall k d,
          defs !! k = Some d ->
          exists expr e1 rest1 env1',
            self e1 = Let_Environ bindings
            /\ evolves (Let_Environ_new env bindings :: env) (e1 :: rest1)
            /\ analyze_op (analyze fuel) (definiens_ d) (e1 :: rest1)
               = Ok (expr, env1')
            /\ values !! k = Some (Thunk expr))
    /\ (exists e1 rest1,
          self e1 = Let_Environ bindings
          /\ evolves (Let_Environ_new env bindings :: env) (e1 :: rest1)
          /\ analyze_op (analyze fuel) body (e1 :: rest1)
             = Ok (body', env2 :: envp))
    /\ self env2 = Let_Environ bindings
    /\ frame_nslots env2 = first_slot + length defs
    /\ env' = set_maxslots (frame_maxslots env2) envp
    /\ env_maxslots env' = frame_maxslots env2
    /\ env_nslots env' = env_nslots env.



Module Example_lambda_let.
Definition script : Script := mkScript "" "x -> let(a=1, b=2) a".
Definition tokens : list Token :=
  [mkToken 0 0 1 k_ident; mkToken 1 2 4 k_right_arrow;
   mkToken 4 5 8 k_let; mkToken 8 8 9 k_lparen; mkToken 9 9 10 k_ident;
   mkToken 10 10 11 k_equate; mkToken 11 11 12 k_num;
   mkToken 12 12 13 k_comma; mkToken 13 14 15 k_ident;
   mkToken 15 15 16 k_equate; mkToken 16 16 17 k_num;
   mkToken 17 17 18 k_rparen; mkToken 18 19 20 k_ident;
   mkToken 20 20 20 k_end].
Definition x : Ident := ident_at script (mkToken 0 0 1 k_ident).
Definition a1 : Ident := ident_at script (mkToken 9 9 10 k_ident).
Definition b1 : Ident := ident_at script (mkToken 13 14 15 k_ident).
Definition a2 : Ident := ident_at script (mkToken 18 19 20 k_ident).
Definition one : Phrase :=
  Numeral (mkLocation script (mkToken 11 11 12 k_num)).
Definition two : Phrase :=
  Numeral (mkLocation script (mkToken 16 16 17 k_num)).
Definition parens : Delimited Phrase :=
  {| lparen_ := mkToken 8 8 9 k_lparen;
     args_ :=
       [mkArg (Definition_Phrase (Identifier a1)
                 (mkToken 10 10 11 k_equate) one)
              (mkToken 12 12 13 k_comma);
        mkArg (Definition_Phrase (Identifier b1)
                 (mkToken 15 15 16 k_equate) two)
              Token_default];
     rparen_ := mkToken 17 17 18 k_rparen |}.
Definition body : Phrase :=
  Let_Phrase (mkToken 4 5 8 k_let) parens (Identifier a2).
Definition lambda : Phrase :=
  Lambda_Phrase (Identifier x) (mkToken 1 2 4 k_right_arrow) body false.
End Example_lambda_let.

Module Example_module.
Definition script : Script := mkScript "" "a = 1; f = x -> a".
Definition tokens : list Token :=
  [mkToken 0 0 1 k_ident; mkToken 1 2 3 k_equate; mkToken 3 4 5 k_num;
   mkToken 5 5 6 k_semicolon; mkToken 6 7 8 k_ident;
   mkToken 8 9 10 k_equate; mkToken 10 11 12 k_ident;
   mkToken 12 13 15 k_right_arrow; mkToken 15 16 17 k_ident;
   mkToken 17 17 17 k_end].
Definition a1 : Ident := ident_at script (mkToken 0 0 1 k_ident).
Definition f : Ident := ident_at script (mkToken 6 7 8 k_ident).
Definition x : Ident := ident_at script (mkToken 10 11 12 k_ident).
Definition a2 : Ident := ident_at script (mkToken 15 16 17 k_ident).
Definition one : Phrase :=
  Numeral (mkLocation script (mkToken 3 4 5 k_num)).
(** [x -> a] as the parser builds it, and as [add_definition] marks
    it. *)
Definition lambda (recursive : bool) : Phrase :=
  Lambda_Phrase (Identifier x) (mkToken 12 13 15 k_right_arrow)
    (Identifier a2) recursive.
Definition body : Phrase :=
  Semicolon_Phrase
    [mkArg (Definition_Phrase (Identifier a1) (mkToken 1 2 3 k_equate) one)
           (mkToken 5 5 6 k_semicolon);
     mkArg (Definition_Phrase (Identifier f) (mkToken 8 9 10 k_equate)
              (lambda false))
           Token_default].
Definition fields : Bindings :=
  {| cur_position_ := 2;
     dictionary_ := <[atom_ f := 1]> (<[atom_ a1 := 0]> ∅);
     slot_phrases_ := [one; lambda true] |}.
(** The environment in which the fields of the module are analyzed. *)
Definition env2 : Environ := Bindings_Environ_new top_env fields :: top_env.
End Example_module.

Module Example_capture.
Definition script : Script := mkScript "" "let(a = 1) x -> [a, pi, a]".
Definition tokens : list Token :=
  [mkToken 0 0 3 k_let; mkToken 3 3 4 k_lparen; mkToken 4 4 5 k_ident;
   mkToken 5 6 7 k_equate; mkToken 7 8 9 k_num; mkToken 9 9 10 k_rparen;
   mkToken 10 11 12 k_ident; mkToken 12 13 15 k_right_arrow;
   mkToken 15 16 17 k_lbracket; mkToken 17 17 18 k_ident;
   mkToken 18 18 19 k_comma; mkToken 19 20 22 k_ident;
   mkToken 22 22 23 k_comma; mkToken 23 24 25 k_ident;
   mkToken 25 25 26 k_rbracket; mkToken 26 26 26 k_end].
Definition a1 : Ident := ident_at script (mkToken 4 4 5 k_ident).
Definition x : Ident := ident_at script (mkToken 10 11 12 k_ident).
Definition a2 : Ident := ident_at script (mkToken 17 17 18 k_ident).
Definition pi1 : Ident := ident_at script (mkToken 19 20 22 k_ident).
Definition a3 : Ident := ident_at script (mkToken 23 24 25 k_ident).
Definition one : Phrase :=
  Numeral (mkLocation script (mkToken 7 8 9 k_num)).
Definition brackets : Delimited Phrase :=
  {| lparen_ := mkToken 15 16 17 k_lbracket;
     args_ := [mkArg (Identifier a2) (mkToken 18 18 19 k_comma);
               mkArg (Identifier pi1) (mkToken 22 22 23 k_comma);
               mkArg (Identifier a3) Token_default];
     rparen_ := mkToken 25 25 26 k_rbracket |}.
Definition lambda : Phrase :=
  Lambda_Phrase (Identifier x) (mkToken 12 13 15 k_right_arrow)
    (List_Phrase brackets) false.
Definition parens : Delimited Phrase :=
  {| lparen_ := mkToken 3 3 4 k_lparen;
     args_ := [mkArg (Definition_Phrase (Identifier a1)
                        (mkToken 5 6 7 k_equate) one)
                     Token_default];
     rparen_ := mkToken 9 9 10 k_rparen |}.
Definition phrase : Phrase :=
  Let_Phrase (mkToken 0 0 3 k_let) parens lambda.
(** The [Let_Environ] in which the lambda is analyzed. *)
Definition bindings : gmap Atom Binding :=
  <[atom_ a1 := mkBinding 0 one]> ∅.
Definition env2 : Environ := Let_Environ_new top_env bindings :: top_env.
Definition lambda_meaning : Operation :=
  Lambda_Expr lambda
    (List_Expr (List_Phrase brackets)
       [Nonlocal_Ref (Identifier a2) 0;
        Constant (Identifier pi1) (Num pi);
        Nonlocal_Ref (Identifier a3) 0])
    (List_Expr lambda [Let_Ref (Identifier a2) 0]) 1 1.
End Example_capture.

Module Example_duplicate.
(** The definitions [a = 1] and [a = 1] of two occurrences of the name
    [a], as the fields of [{a=1, a=1}], the bindings of
    [let(a=1, a=1) a] and the statements of the module [a=1; a=1]. *)
Definition script : Script := mkScript "" "{a=1, a=1}".
Definition a1 : Ident := ident_at script (mkToken 1 1 2 k_ident).
Definition a2 : Ident := ident_at script (mkToken 5 6 7 k_ident).
Definition def1 : Phrase :=
  Definition_Phrase (Identifier a1) (mkToken 2 2 3 k_equate)
    (Numeral (mkLocation script (mkToken 3 3 4 k_num))).
Definition def2 : Phrase :=
  Definition_Phrase (Identifier a2) (mkToken 7 7 8 k_equate)
    (Numeral (mkLocation script (mkToken 8 8 9 k_num))).
Definition braces : Delimited Phrase :=
  {| lparen_ := mkToken 0 0 1 k_lbrace;
     args_ := [mkArg def1 (mkToken 4 4 5 k_comma);
               mkArg def2 Token_default];
     rparen_ := mkToken 9 9 10 k_rbrace |}.
Definition tokens : list Token :=
  [mkToken 0 0 1 k_lbrace; mkToken 1 1 2 k_ident; mkToken 2 2 3 k_equate;
   mkToken 3 3 4 k_num; mkToken 4 4 5 k_comma; mkToken 5 6 7 k_ident;
   mkToken 7 7 8 k_equate; mkToken 8 8 9 k_num; mkToken 9 9 10 k_rbrace;
   mkToken 10 10 10 k_end].
End Example_duplicate.

Module Example_call.
Definition script : Script := mkScript "" "max(1,2)".
Definition tokens : list Token :=
  [mkToken 0 0 3 k_ident; mkToken 3 3 4 k_lparen; mkToken 4 4 5 k_num;
   mkToken 5 5 6 k_comma; mkToken 6 6 7 k_num; mkToken 7 7 8 k_rparen;
   mkToken 8 8 8 k_end].
Definition max_ : Ident := ident_at script (mkToken 0 0 3 k_ident).
Definition one : Phrase :=
  Numeral (mkLocation script (mkToken 4 4 5 k_num)).
Definition two : Phrase :=
  Numeral (mkLocation script (mkToken 6 6 7 k_num)).
Definition args : Phrase :=
  Paren_Phrase
    {| lparen_ := mkToken 3 3 4 k_lparen;
       args_ := [mkArg one (mkToken 5 5 6 k_comma); mkArg two Token_default];
       rparen_ := mkToken 7 7 8 k_rparen |}.
Definition phrase : Phrase := Call_Phrase (Identifier max_) args Token_default.
Definition meaning : Operation :=
  Call_Expr phrase
    (Constant (Identifier max_) (Function_Value Max_Function)) args
    [Constant one (Num (strtod "1")); Constant two (Num (strtod "2"))].
End Example_call.

(** ** Free identifiers

    The names that a scope resolves by itself, and the names that a
    chain of scopes resolves.  A lambda scope that is not recursive
    resolves what it has captured without asking its parent again. *)
Definition scope_names (s : Scope) : gset Atom :=
  match self s with
  | Builtin_Environ names => dom names
  | Bindings_Environ b => dom (dictionary_ b)
  | Arg_Environ names d _ recursive =>
      dom names ∪ (if recursive then ∅ else dom d)
  | Let_Environ names => dom names
  | For_Environ name _ => {[name]}
  end.

Definition visible (env : Environ) : gset Atom :=
  ⋃ (scope_names <$> env).

(** The names that the left side of a lambda phrase binds, and the
    names that the definitions among a sequence of phrases define. *)
Definition param_names (left_ : Phrase) : gset Atom :=
  match left_ with
  | Identifier id => {[atom_ id]}
  | Paren_Phrase d => list_to_set (element_names (args_ d))
  | _ => ∅
  end.

Definition def_names (phs : list Phrase) : gset Atom :=
  list_to_set (def_atom <$> definitions phs).

(** The free identifiers of a phrase: the names it uses and does not
    bind.  A lambda binds its parameters in its body; a [for] binds its
    variable in its body, not in its list; a [let] and a module bind the
    names they define in every definition and in the body; the fields
    of a record bind nothing; the name after a dot is not looked up.
    The free identifiers of a definition are those of what it defines:
    of the right side, without the parameters when the left side is
    [f(x)]. *)
Fixpoint free (ph : Phrase) : gset Atom :=
  let elements (args : list (Arg Phrase)) : gset Atom :=
    ⋃ (map (fun a => free (expr_ a)) args) in
  let opt (p : option Phrase) : gset Atom :=
    match p with Some p => free p | None => ∅ end in
  match ph with
  | Identifier id => {[atom_ id]}
  | Numeral _ | String_Phrase _ | Empty_Phrase _ => ∅
  | Unary_Phrase _ arg => free arg
  | Binary_Phrase l op r =>
      match kind op, r with
      | k_dot, Identifier _ => free l
      | _, _ => free l ∪ free r
      end
  | Lambda_Phrase l _ r _ => free r ∖ param_names l
  | Definition_Phrase l _ r =>
      match l with
      | Call_Phrase _ args _ => free r ∖ param_names args
      | _ => free r
      end
  | Semicolon_Phrase args | Comma_Phrase args => elements args
  | Paren_Phrase d | List_Phrase d | Record_Phrase d => elements (args_ d)
  | Call_Phrase f a _ => free f ∪ free a
  | If_Phrase _ c t _ e => free c ∪ free t ∪ opt e
  | For_Phrase _ d b =>
      match args_ d with
      | [a] =>
          match expr_ a with
          | Definition_Phrase (Identifier id) _ r =>
              free r ∪ (free b ∖ {[atom_ id]})
          | _ => ∅
          end
      | _ => ∅
      end
  | Let_Phrase _ d b =>
      (elements (args_ d) ∪ free b) ∖ def_names (map expr_ (args_ d))
  | Range_Phrase f _ l _ s => free f ∪ free l ∪ opt s
  | Module_Phrase b =>
      match b with
      | Semicolon_Phrase args => elements args ∖ def_names (map expr_ args)
      | _ => free b ∖ def_names [b]
      end
  | Program_Phrase _ _ => ∅
  end.

(** Every scope of the chain [env'] sees the names that the scope at
    its place in [env] sees. *)
Definition keeps_names (env env' : Environ) : Prop :=
  forall k, visible (drop k env') = visible (drop k env).

(** [c] succeeds only where the names [F] are visible, and leaves every
    scope seeing what it saw. *)
Definition resolves {A} (F : gset Atom) (c : M A) : Prop :=
  forall env a env',
    c env = Ok (a, env') -> F ⊆ visible env /\ keeps_names env env'.

(** * Properties *)

(** ** The monad *)

Lemma bind_Ok {S A B} (c : St S A) (k : A -> St S B) s b s2 :
  bind c k s = Ok (b, s2) <->
  exists a s1, c s = Ok (a, s1) /\ k a s1 = Ok (b, s2).
Proof.
  unfold bind. split.
  - destruct (c s) as [[a s1]| | |]; try discriminate. eauto.
  - intros (a & s1 & -> & H). exact H.
Qed.

Lemma ret_Ok {S A} (a b : A) (s s' : S) :
  ret a s = Ok (b, s') <-> a = b /\ s = s'.
Proof. unfold ret. split; [intros [= -> ->]|intros [-> ->]]; done. Qed.

Lemma lift_Ok {S A} (r : Result A) (a : A) (s s' : S) :
  lift r s = Ok (a, s') <-> r = Ok a /\ s = s'.
Proof.
  unfold lift. destruct r; simpl; split; try (intros [? ?]); try congruence.
  intros [= -> ->]; done.
Qed.

Lemma Result_bind_Ok {A B} (r : Result A) (k : A -> Result B) b :
  Result_bind r k = Ok b <-> exists a, r = Ok a /\ k a = Ok b.
Proof.
  destruct r; simpl; split; try (intros (? & ? & ?)); try congruence; eauto.
Qed.

Lemma in_scope_Ok {A} child (c : M A) env r env' :
  in_scope child c env = Ok (r, env') <->
  c (child :: env) = Ok (r.1, r.2 :: env').
Proof.
  unfold in_scope. destruct r as [a child'].
  destruct (c (child :: env)) as [[a' [|s l]]| | |]; simpl;
    split; intros H; try discriminate; by simplify_eq.
Qed.

Lemma get_env_Ok env e env' : get_env env = Ok (e, env') <-> e = env /\ env' = env.
Proof. unfold get_env. split; [intros [= -> ->]|intros [-> ->]]; done. Qed.

Lemma throw_Ok {A} ph msg env (r : A * Environ) : throw ph msg env = Ok r -> False.
Proof. discriminate. Qed.

Lemma to_operation_Ok m env op env' :
  to_operation m env = Ok (op, env') <-> m = Op op /\ env' = env.
Proof.
  destruct m; simpl; split.
  - intros [= -> ->]; done.
  - intros [[= ->] ->]; done.
  - discriminate.
  - intros [? _]; discriminate.
Qed.

(** Decompose a successful run of a monadic computation. *)
Ltac inv_M H :=
  lazymatch type of H with
  | bind _ _ _ = Ok _ =>
      let a := fresh "a" in let s := fresh "env" in
      let H1 := fresh "H" in
      apply bind_Ok in H; destruct H as (a & s & H1 & H);
      inv_M H1; inv_M H
  | ret _ _ = Ok _ => apply ret_Ok in H; destruct H as [? ?]; subst
  | lift _ _ = Ok _ => apply lift_Ok in H; destruct H as [H ?]; subst
  | get_env _ = Ok _ => apply get_env_Ok in H; destruct H as [? ?]; subst
  | throw _ _ _ = Ok _ => destruct (throw_Ok _ _ _ _ H)
  | to_operation _ _ = Ok _ =>
      apply to_operation_Ok in H; destruct H as [? ?]; subst
  | in_scope _ _ _ = Ok _ => apply in_scope_Ok in H; simpl in H; inv_M H
  | _ => idtac
  end.

(** ** How the Environ chain changes during an analysis *)

Lemma scope_evolves_refl s : scope_evolves s s.
Proof.
  unfold scope_evolves. split; [done|]. split; [lia|].
  destruct (self s); done.
Qed.

Lemma scope_evolves_trans s1 s2 s3 :
  scope_evolves s1 s2 -> scope_evolves s2 s3 -> scope_evolves s1 s3.
Proof.
  unfold scope_evolves. intros (Hn1 & Hm1 & Hc1) (Hn2 & Hm2 & Hc2).
  split; [congruence|]. split; [lia|].
  destruct (self s1), (self s2), (self s3); simplify_eq; try done.
  destruct Hc1 as (-> & -> & ? & ?), Hc2 as (-> & -> & ? & ?).
  repeat split; etrans; eauto.
Qed.

Lemma evolves_refl env : evolves env env.
Proof. induction env; constructor; auto using scope_evolves_refl. Qed.

Lemma evolves_trans e1 e2 e3 : evolves e1 e2 -> evolves e2 e3 -> evolves e1 e3.
Proof.
  unfold evolves. apply Forall2_trans, scope_evolves_trans.
Qed.

Lemma evolves_length env env' : evolves env env' -> length env = length env'.
Proof. apply Forall2_length. Qed.

Lemma captures_grows I p n d x d' x' :
  captures I p n d x d' x' -> d ⊆ d' ∧ x `prefix_of` x'.
Proof.
  induction 1 as [|d x d' x' id e penv penv' _ [IHd IHx]]; [done|].
  split.
  - etrans; [exact IHd|]. by apply insert_subseteq.
  - etrans; [exact IHx|]. by apply prefix_app_r.
Qed.

Lemma captures_trans I p p1 n d x d1 x1 d2 x2 :
  evolves p p1 ->
  captures I p n d x d1 x1 -> captures I p1 n d1 x1 d2 x2 ->
  captures I p n d x d2 x2.
Proof.
  intros Hp H1 H2. induction H2; [done|].
  eapply captures_step with (penv := penv); eauto using evolves_trans.
Qed.

Lemma captures_mono (I J : Ident -> Prop) p n d x d' x' :
  (forall id, I id -> J id) ->
  captures I p n d x d' x' -> captures J p n d x d' x'.
Proof. intros HIJ. induction 1; econstructor; eauto. Qed.

Lemma scope_steps_refl I p s : scope_steps I p s s.
Proof.
  unfold scope_steps. split; [done|]. split; [lia|].
  destruct (self s); auto 10 using captures_refl.
Qed.

Lemma scope_steps_evolves I p s s' : scope_steps I p s s' -> scope_evolves s s'.
Proof.
  unfold scope_steps, scope_evolves. intros (? & ? & Hc).
  split; [done|]. split; [done|].
  destruct (self s), (self s'); try done.
  destruct Hc as (-> & -> & Hc & _). apply captures_grows in Hc as [? ?].
  done.
Qed.

Lemma env_steps_evolves I env env' : env_steps I env env' -> evolves env env'.
Proof.
  induction 1; constructor; eauto using scope_steps_evolves.
Qed.

Lemma env_steps_refl I env : env_steps I env env.
Proof. induction env; constructor; auto using scope_steps_refl. Qed.

Lemma scope_steps_trans I p p1 s1 s2 s3 :
  evolves p p1 ->
  scope_steps I p s1 s2 -> scope_steps I p1 s2 s3 -> scope_steps I p s1 s3.
Proof.
  unfold scope_steps. intros Hp (Hn1 & Hm1 & Hc1) (Hn2 & Hm2 & Hc2).
  split; [congruence|]. split; [lia|].
  destruct (self s1), (self s2), (self s3); simplify_eq; try done.
  destruct Hc1 as (-> & -> & ? & Hr1), Hc2 as (-> & -> & ? & Hr2).
  split; [done|]. split; [done|]. split; [eauto using captures_trans|].
  intros Hr. destruct (Hr1 Hr) as [-> ->]. auto.
Qed.

Lemma env_steps_trans I e1 e2 e3 :
  env_steps I e1 e2 -> env_steps I e2 e3 -> env_steps I e1 e3.
Proof.
  intros H. revert e3. induction H; intros e3 H3; inversion H3; subst;
    constructor; eauto using scope_steps_trans, env_steps_evolves.
Qed.

Lemma env_steps_mono (I J : Ident -> Prop) env env' :
  (forall id, I id -> J id) -> env_steps I env env' -> env_steps J env env'.
Proof.
  intros HIJ. induction 1; constructor; auto.
  unfold scope_steps in *. destruct H0 as (? & ? & Hc).
  split; [done|]. split; [done|].
  destruct (self s), (self s'); try done.
  destruct Hc as (-> & -> & Hc & Hr). eauto 10 using captures_mono.
Qed.

(** A lookup changes the chain only by captures of the identifier that
    is looked up. *)
Lemma lookup_steps (I : Ident -> Prop) id env m env' :
  I id -> lookup env id = Ok (m, env') -> env_steps I env env'.
Proof.
  intros HI. revert m env'.
  induction env as [|e parent IH]; intros m env'; simpl; [discriminate|].
  unfold single_lookup.
  destruct (lookup parent id) as [[m0 parent0]| | |] eqn:Hp.
  all: destruct e as [c ns ms]; simpl.
  all: destruct c as [names|b|names d x r|names|nm sl]; simpl.
  all: repeat case_match; simpl; intros; simplify_eq.
  all: try (constructor; eauto using env_steps_refl, scope_steps_refl; fail).
  all: constructor; eauto.
  all: unfold scope_steps; simpl; repeat split; try lia; try done.
  all: eapply captures_step; eauto using captures_refl, evolves_refl.
Qed.
Lemma ok_ret {A} I (a : A) : ok I (ret a).
Proof. intros env b env' H. inv_M H. apply env_steps_refl. Qed.

Lemma ok_throw {A} I ph msg : ok I (@throw A ph msg).
Proof. intros env b env' H. discriminate. Qed.

Lemma ok_lift {A} I (r : Result A) : ok I (lift r).
Proof. intros env b env' H. inv_M H. apply env_steps_refl. Qed.

Lemma ok_get_env I : ok I get_env.
Proof. intros env b env' H. inv_M H. apply env_steps_refl. Qed.

Lemma ok_to_operation I m : ok I (to_operation m).
Proof. intros env b env' H. inv_M H. apply env_steps_refl. Qed.

Lemma ok_bind {A B} I (c : M A) (k : A -> M B) :
  ok I c -> (forall a, ok I (k a)) -> ok I (bind c k).
Proof.
  intros Hc Hk env b env' H. inv_M H.
  eapply env_steps_trans; [eapply Hc|eapply Hk]; eauto.
Qed.

Lemma ok_mono {A} (I J : Ident -> Prop) (c : M A) :
  (forall id, I id -> J id) -> ok I c -> ok J c.
Proof. intros HIJ Hc env a env' H. eapply env_steps_mono; eauto. Qed.

Lemma ok_in_scope {A} I child (c : M A) :
  ok I c -> ok I (in_scope child c).
Proof.
  intros Hc env a env' H. inv_M H. apply Hc in H. by inversion H.
Qed.

Lemma ok_if {A} I (b : bool) (c1 c2 : M A) :
  ok I c1 -> ok I c2 -> ok I (if b then c1 else c2).
Proof. by destruct b. Qed.

Lemma set_maxslots_steps I env env' n :
  env_steps I env env' -> env_maxslots env <= n ->
  env_steps I env (set_maxslots n env').
Proof.
  intros H. destruct H as [|s s' env env' H Hs]; simpl; intros Hn;
    constructor; auto.
  unfold scope_steps in *. simpl in *. destruct Hs as (? & ? & ?). done.
Qed.

Lemma identifiers_set_recursive ph :
  identifiers (set_recursive ph) = identifiers ph.
Proof. by destruct ph. Qed.

Lemma analyze_def_identifiers ph d :
  analyze_def ph = Ok (Some d) ->
  forall id, id ∈ identifiers (definiens_ d) -> id ∈ identifiers ph.
Proof.
  destruct ph; try discriminate. simpl.
  repeat case_match; intros; simplify_eq; simpl in *; set_solver.
Qed.

Lemma Arg_identifiers (a : Arg Phrase) args :
  a ∈ args -> forall id, id ∈ identifiers (expr_ a) -> id ∈ args_identifiers args.
Proof.
  intros Ha id Hid. unfold args_identifiers.
  apply list_elem_of_In, in_flat_map. exists a.
  split; by apply list_elem_of_In.
Qed.

Lemma args_identifiers_cons a args :
  args_identifiers (a :: args)
  = (identifiers (expr_ a) ++ args_identifiers args)%list.
Proof. done. Qed.

Lemma Statements_identifiers body st :
  st ∈ Statements body -> forall id, id ∈ identifiers st -> id ∈ identifiers body.
Proof.
  destruct body; simpl; try (intros ->%list_elem_of_singleton; done).
  intros (a & -> & Ha)%list_elem_of_fmap. by apply Arg_identifiers.
Qed.

Lemma let_bindings_loop_identifiers (I : Ident -> Prop) args b0 slot b :
  let_bindings_loop args b0 slot = Ok b ->
  (forall id, id ∈ args_identifiers args -> I id) ->
  (forall a bd, b0 !! a = Some bd ->
     forall id, id ∈ identifiers (phrase_ bd) -> I id) ->
  forall a bd, b !! a = Some bd ->
    forall id, id ∈ identifiers (phrase_ bd) -> I id.
Proof.
  revert b0 slot. induction args as [|x args IH]; intros b0 slot H HI H0;
    simpl in H.
  - by simplify_eq.
  - apply Result_bind_Ok in H as ([d|] & Hd & H); [|done].
    destruct (b0 !! atom_ (name_ d)) eqn:Hb0; [done|].
    eapply IH; [exact H|..].
    + intros id Hid. apply HI. rewrite args_identifiers_cons. set_solver.
    + intros a bd. rewrite lookup_insert. case_decide.
      * intros [= <-] id Hid. simpl in Hid. apply HI.
        rewrite args_identifiers_cons.
        eapply analyze_def_identifiers in Hid; [|done]. set_solver.
      * apply H0.
Qed.

Lemma module_fields_loop_identifiers (I : Ident -> Prop) stmts f0 el0 f el :
  module_fields_loop stmts f0 el0 = Ok (f, el) ->
  (forall st, st ∈ stmts -> forall id, id ∈ identifiers st -> I id) ->
  (forall ph, ph ∈ (slot_phrases_ f0 ++ el0)%list ->
     forall id, id ∈ identifiers ph -> I id) ->
  forall ph, ph ∈ (slot_phrases_ f ++ el)%list ->
    forall id, id ∈ identifiers ph -> I id.
Proof.
  revert f0 el0. induction stmts as [|st stmts IH]; intros f0 el0 H HI H0;
    simpl in H.
  - by simplify_eq.
  - apply Result_bind_Ok in H as ([d|] & Hd & H).
    + apply Result_bind_Ok in H as (f1 & Hf1 & H).
      eapply IH; [exact H|..].
      * intros; eapply HI; [|done]. set_solver.
      * unfold add_definition in Hf1. case_match; [done|]. simplify_eq. simpl.
        intros ph Hph id Hid.
        rewrite !elem_of_app, list_elem_of_singleton in Hph.
        destruct Hph as [[Hph| ->]|Hph].
        -- eapply H0; [|done]. set_solver.
        -- rewrite identifiers_set_recursive in Hid.
           eapply analyze_def_identifiers in Hid; [|done].
           eapply HI; [|done]. set_solver.
        -- eapply H0; [|done]. set_solver.
    + eapply IH; [exact H|..].
      * intros; eapply HI; [|done]. set_solver.
      * intros ph Hph id Hid.
        rewrite !elem_of_app, list_elem_of_singleton in Hph.
        destruct Hph as [Hph|[Hph| ->]].
        -- eapply H0; [|done]. set_solver.
        -- eapply H0; [|done]. set_solver.
        -- eapply HI; [|done]. set_solver.
Qed.
Lemma in_scope_set_maxslots_steps I env child child' env' :
  env_steps I (child :: env) (child' :: env') ->
  env_maxslots env <= frame_maxslots child ->
  env_steps I env (set_maxslots (frame_maxslots child') env').
Proof.
  intros H Hn. inversion H as [|? ? ? ? Hs Hc]; subst.
  apply set_maxslots_steps; [done|].
  destruct Hc as (_ & Hc & _). lia.
Qed.

Section Analyze_steps.

Variable analyze : Phrase -> M Meaning.
Hypothesis analyze_ok :
  forall ph, ok (fun id => id ∈ identifiers ph) (analyze ph).

Lemma ok_analyze_op (I : Ident -> Prop) ph :
  (forall id, id ∈ identifiers ph -> I id) -> ok I (analyze_op analyze ph).
Proof.
  intros HI. apply ok_bind; [|apply ok_to_operation].
  eapply ok_mono; [|apply analyze_ok]. done.
Qed.

Lemma ok_analyze_ops (I : Ident -> Prop) args :
  (forall id, id ∈ args_identifiers args -> I id) ->
  ok I (analyze_ops analyze args).
Proof.
  induction args as [|a args IH]; intros HI; simpl; [apply ok_ret|].
  rewrite args_identifiers_cons in HI.
  apply ok_bind; [apply ok_analyze_op; set_solver|]. intros x.
  apply ok_bind; [apply IH; set_solver|]. intros xs. apply ok_ret.
Qed.

Lemma ok_analyze_phrases (I : Ident -> Prop) phs :
  (forall ph, ph ∈ phs -> forall id, id ∈ identifiers ph -> I id) ->
  ok I (analyze_phrases analyze phs).
Proof.
  induction phs as [|ph phs IH]; intros HI; simpl; [apply ok_ret|].
  apply ok_bind; [apply ok_analyze_op; set_solver|]. intros x.
  apply ok_bind; [apply IH; set_solver|]. intros xs. apply ok_ret.
Qed.

Lemma ok_analyze_values (I : Ident -> Prop) phs :
  (forall ph, ph ∈ phs -> forall id, id ∈ identifiers ph -> I id) ->
  ok I (analyze_values analyze phs).
Proof.
  induction phs as [|ph phs IH]; intros HI; simpl; [apply ok_ret|].
  apply ok_bind; [apply ok_analyze_op; set_solver|]. intros x.
  apply ok_bind.
  { destruct (isa_Lambda_Phrase ph); [|apply ok_ret].
    destruct x; try apply ok_ret; by intros ? ? ? ?. }
  intros v. apply ok_bind; [apply IH; set_solver|]. intros xs. apply ok_ret.
Qed.

Lemma ok_let_values_loop (I : Ident -> Prop) items first_slot values :
  (forall b, b ∈ items -> forall id, id ∈ identifiers (phrase_ b.2) -> I id) ->
  ok I (let_values_loop analyze items first_slot values).
Proof.
  revert values. induction items as [|b items IH]; intros values HI; simpl;
    [apply ok_ret|].
  apply ok_bind; [apply ok_analyze_op; set_solver|]. intros x.
  apply IH. set_solver.
Qed.

Lemma ok_Record_Phrase_loop (I : Ident -> Prop) args fields :
  (forall id, id ∈ args_identifiers args -> I id) ->
  ok I (Record_Phrase_loop analyze args fields).
Proof.
  revert fields. induction args as [|a args IH]; intros fields HI; simpl;
    [apply ok_ret|].
  rewrite args_identifiers_cons in HI.
  intros env r env' H. inv_M H.
  destruct a0 as [d|]; [|done]. inv_M H.
  eapply env_steps_trans; [|eapply IH, H; set_solver].
  unfold analyze_definition in H1. destruct (fields !! _); [done|].
  inv_M H1.
  match goal with
  | H : analyze_op _ _ _ = Ok _ |- _ => eapply ok_analyze_op, H
  end.
  intros id Hid. apply HI.
  eapply analyze_def_identifiers in Hid; [|done]. set_solver.
Qed.

Ltac ok_step :=
  first
    [ apply ok_ret
    | apply ok_throw
    | apply ok_lift
    | apply ok_get_env
    | apply ok_analyze_op; simpl; set_solver
    | apply ok_analyze_ops; simpl; unfold args_identifiers; set_solver
    | apply ok_bind; [|intros ?] ].

Lemma ok_binary I mk l r :
  (forall id, id ∈ identifiers l -> I id) ->
  (forall id, id ∈ identifiers r -> I id) ->
  ok I (binary analyze mk l r).
Proof. intros. unfold binary. repeat ok_step. Qed.

Lemma analyze_phrase_ok ph :
  ok (fun id => id ∈ identifiers ph) (analyze_phrase analyze ph).
Proof.
  destruct ph; simpl.
  - (* Identifier *)
    intros env m env' H. eapply lookup_steps; [|exact H]. set_solver.
  - apply ok_ret.
  - apply ok_ret.
  - by intros ? ? ? ?.
  - (* Unary_Phrase *)
    unfold Unary_Phrase_analyze. destruct (kind op_); repeat ok_step.
  - (* Binary_Phrase *)
    unfold Binary_Phrase_analyze.
    destruct (kind op_); try (apply ok_binary; set_solver).
    destruct ph2; try apply ok_throw.
    + repeat ok_step.
    + destruct (args_ brackets) as [|a [|]] eqn:E; try apply ok_throw.
      case_decide; [|apply ok_throw].
      simpl. rewrite E. simpl. repeat ok_step.
  - (* Lambda_Phrase *)
    unfold Lambda_Phrase_analyze. ok_step; [ok_step|].
    ok_step; [apply ok_in_scope; ok_step|]. destruct a0. ok_step.
  - apply ok_throw.
  - (* Semicolon_Phrase *)
    unfold Semicolon_Phrase_analyze.
    destruct sargs_ as [|a [|]]; try apply ok_throw.
    simpl. repeat ok_step.
  - (* Comma_Phrase *)
    unfold sequence_analyze. destruct cargs_ as [|a [|]]; repeat ok_step.
    case_decide; repeat ok_step.
  - (* Paren_Phrase *)
    unfold sequence_analyze.
    destruct (args_ parens) as [|a [|]] eqn:E; repeat ok_step.
    case_decide; repeat ok_step.
  - (* List_Phrase *)
    unfold List_Phrase_analyze. repeat ok_step.
  - (* Record_Phrase *)
    unfold Record_Phrase_analyze. ok_step; [|ok_step].
    by apply ok_Record_Phrase_loop.
  - (* Call_Phrase *)
    unfold Call_Phrase_analyze. ok_step.
    { eapply ok_mono; [|apply analyze_ok]. set_solver. }
    assert (ok (fun id => id ∈ identifiers ph1 ++ identifiers ph2)
              (analyze_args analyze ph2)) as Hargs.
    { unfold analyze_args. destruct ph2; repeat ok_step. }
    destruct a; (ok_step; [exact Hargs|ok_step]).
  - (* If_Phrase *)
    unfold If_Phrase_analyze. destruct else_expr_; repeat ok_step.
  - (* For_Phrase *)
    unfold For_Phrase_analyze.
    destruct (args_ fargs_) as [|a [|]] eqn:E; try apply ok_throw.
    destruct (expr_ a) eqn:Ea; try apply ok_throw.
    destruct p1; try apply ok_throw.
    intros env m env' H. simpl in H.
    inv_M H. destruct a1 as [body' body_env]. simpl in *. simplify_eq.
    match goal with |- env_steps ?J _ _ => set (I := J) end.
    assert (forall i, i ∈ identifiers p2 ++ identifiers ph -> I i) as HI.
    { unfold I. rewrite Ea. simpl. clear. set_solver. }
    eapply env_steps_trans; [eapply ok_analyze_op, H0; set_solver|].
    eapply in_scope_set_maxslots_steps;
      [eapply ok_analyze_op, H1; set_solver|].
    simpl. lia.
  - (* Let_Phrase *)
    intros env m env' H. unfold Let_Phrase_analyze in H.
    inv_M H. destruct a0 as [[values body'] env2]. simpl in *. simplify_eq.
    match goal with |- env_steps ?J _ _ => set (I := J) end.
    match goal with
    | H : let_values_loop _ _ _ _ (?child :: _) = Ok _ |- _ =>
        eapply (in_scope_set_maxslots_steps _ _ child); [|simpl; lia]
    end.
    eapply env_steps_trans.
    + eapply ok_let_values_loop; [|eassumption].
      intros [x b] Hb id Hid. apply elem_of_map_to_list in Hb.
      eapply (let_bindings_loop_identifiers I); eauto.
      * unfold I, args_identifiers. clear. set_solver.
      * intros ? ?. by rewrite lookup_empty.
    + eapply ok_analyze_op; [|eassumption]. unfold I. clear. set_solver.
  - (* Range_Phrase *)
    unfold Range_Phrase_analyze. destruct step_; repeat ok_step.
  - (* Module_Phrase *)
    intros env m env' H. unfold analyze_module in H.
    inv_M H. destruct a as [f el]. inv_M H.
    destruct a as [[slots xel] env2]. simpl in *. inv_M H. simplify_eq.
    set (I := fun id => id ∈ identifiers ph) in *.
    assert (forall p, p ∈ slot_phrases_ f ++ el ->
              forall id, id ∈ identifiers p -> I id) as Hids.
    { eapply module_fields_loop_identifiers; [eassumption|..].
      - intros st Hst id Hid. eapply Statements_identifiers; eauto.
      - simpl. intros p Hp. by apply elem_of_nil in Hp. }
    assert (env_steps I (Bindings_Environ_new env0 f :: env0)
              (env2 :: env')) as Hs; [|by inversion Hs].
    eapply env_steps_trans.
    + eapply ok_analyze_values; [|eassumption].
      intros; eapply Hids; [|done]. set_solver.
    + eapply ok_analyze_phrases; [|eassumption].
      intros; eapply Hids; [|done]. set_solver.
  - by intros ? ? ? ?.
Qed.

End Analyze_steps.

(** Every analysis changes the Environ chain only by captures of
    identifiers of the phrase it analyzes. *)
Lemma analyze_steps fuel ph :
  ok (fun id => id ∈ identifiers ph) (analyze fuel ph).
Proof.
  revert ph. induction fuel as [|fuel IH]; intros ph env m env' H;
    [discriminate|].
  simpl in H. eapply analyze_phrase_ok; eauto.
Qed.

Lemma analyze_op_steps fuel ph :
  ok (fun id => id ∈ identifiers ph) (analyze_op (analyze fuel) ph).
Proof. apply ok_analyze_op; auto using analyze_steps. Qed.

Lemma analyze_evolves fuel ph env m env' :
  analyze fuel ph env = Ok (m, env') -> evolves env env'.
Proof. intros H. eapply env_steps_evolves, analyze_steps, H. Qed.

Lemma analyze_op_evolves fuel ph env m env' :
  analyze_op (analyze fuel) ph env = Ok (m, env') -> evolves env env'.
Proof. intros H. eapply env_steps_evolves, analyze_op_steps, H. Qed.

(** ** Fuel

    More fuel does not change an outcome other than running out of it. *)

Lemma extends_refl {S A} (c : St S A) : extends c c.
Proof. by intros s _. Qed.

Lemma extends_bind {S A B} (c1 c2 : St S A) (k1 k2 : A -> St S B) :
  extends c1 c2 -> (forall a, extends (k1 a) (k2 a)) ->
  extends (bind c1 k1) (bind c2 k2).
Proof.
  intros Hc Hk s H. unfold bind in *.
  destruct (c1 s) as [[a s']| | |] eqn:E; try done;
    rewrite (Hc s) by (rewrite E; done); rewrite E; try done.
  by apply Hk.
Qed.

Lemma extends_in_scope {A} child (c1 c2 : M A) :
  extends c1 c2 -> extends (in_scope child c1) (in_scope child c2).
Proof.
  intros Hc env H. unfold in_scope in *.
  destruct (c1 (child :: env)) as [[a [|]]| | |] eqn:E; try done;
    rewrite (Hc (child :: env)) by (rewrite E; done); by rewrite E.
Qed.

Ltac ext_step :=
  first [ apply extends_refl
        | apply extends_in_scope
        | apply extends_bind; [|intros ?] ].

Section Analyze_fuel.
Variables a1 a2 : Phrase -> M Meaning.
Hypothesis Ha : forall ph, extends (a1 ph) (a2 ph).

Lemma extends_analyze_op ph : extends (analyze_op a1 ph) (analyze_op a2 ph).
Proof. unfold analyze_op. apply extends_bind; [apply Ha|]. intros. apply extends_refl. Qed.

Lemma extends_analyze_ops args :
  extends (analyze_ops a1 args) (analyze_ops a2 args).
Proof.
  induction args as [|a args IH]; simpl; [apply extends_refl|].
  apply extends_bind; [apply extends_analyze_op|]. intros x.
  apply extends_bind; [apply IH|]. intros. apply extends_refl.
Qed.

Lemma extends_analyze_phrases phs :
  extends (analyze_phrases a1 phs) (analyze_phrases a2 phs).
Proof.
  induction phs as [|a args IH]; simpl; [apply extends_refl|].
  apply extends_bind; [apply extends_analyze_op|]. intros x.
  apply extends_bind; [apply IH|]. intros. apply extends_refl.
Qed.

Lemma extends_analyze_values phs :
  extends (analyze_values a1 phs) (analyze_values a2 phs).
Proof.
  induction phs as [|a args IH]; simpl; [apply extends_refl|].
  apply extends_bind; [apply extends_analyze_op|]. intros x.
  apply extends_bind; [apply extends_refl|]. intros v.
  apply extends_bind; [apply IH|]. intros. apply extends_refl.
Qed.

Lemma extends_let_values_loop items first_slot values :
  extends (let_values_loop a1 items first_slot values)
          (let_values_loop a2 items first_slot values).
Proof.
  revert values. induction items as [|b items IH]; intros values; simpl;
    [apply extends_refl|].
  apply extends_bind; [apply extends_analyze_op|]. intros x. apply IH.
Qed.

Lemma extends_Record_Phrase_loop args fields :
  extends (Record_Phrase_loop a1 args fields)
          (Record_Phrase_loop a2 args fields).
Proof.
  revert fields. induction args as [|i args IH]; intros fields; simpl;
    [apply extends_refl|].
  apply extends_bind; [apply extends_refl|]. intros [def|]; [|apply extends_refl].
  apply extends_bind; [|apply IH].
  unfold analyze_definition. case_match; [apply extends_refl|].
  apply extends_bind; [apply extends_analyze_op|]. intros. apply extends_refl.
Qed.

Lemma extends_binary mk l r : extends (binary a1 mk l r) (binary a2 mk l r).
Proof.
  unfold binary. repeat (apply extends_bind; [apply extends_analyze_op|intros ?]).
  apply extends_refl.
Qed.

Ltac ext :=
  repeat first
    [ apply extends_refl
    | apply extends_analyze_op
    | apply extends_analyze_ops
    | apply extends_analyze_phrases
    | apply extends_analyze_values
    | apply extends_let_values_loop
    | apply extends_Record_Phrase_loop
    | apply extends_binary
    | apply Ha
    | apply extends_in_scope
    | apply extends_bind; [|intros ?]
    | case_match
    | case_decide ].

Lemma extends_analyze_phrase ph :
  extends (analyze_phrase a1 ph) (analyze_phrase a2 ph).
Proof.
  destruct ph; simpl;
    unfold Identifier_analyze, Numeral_analyze, String_Phrase_analyze,
      Unary_Phrase_analyze, Lambda_Phrase_analyze, Binary_Phrase_analyze,
      Semicolon_Phrase_analyze, sequence_analyze, List_Phrase_analyze,
      Call_Phrase_analyze, analyze_args, Record_Phrase_analyze,
      analyze_module, If_Phrase_analyze, Let_Phrase_analyze,
      For_Phrase_analyze, Range_Phrase_analyze; ext.
Qed.

End Analyze_fuel.

Lemma analyze_fuel_S fuel ph : extends (analyze fuel ph) (analyze (S fuel) ph).
Proof.
  revert ph. induction fuel as [|fuel IH]; intros ph; [by intros env H|].
  change (extends (analyze_phrase (analyze fuel) ph)
            (analyze_phrase (analyze (S fuel)) ph)).
  by apply extends_analyze_phrase.
Qed.

Lemma analyze_fuel_le fuel fuel' ph env :
  fuel <= fuel' -> analyze fuel ph env <> Out_Of_Fuel ->
  analyze fuel' ph env = analyze fuel ph env.
Proof.
  induction 1 as [|fuel' Hle IH]; [done|]. intros H.
  rewrite <- (IH H). apply analyze_fuel_S. by rewrite (IH H).
Qed.

(** An analysis with at least as much fuel as the phrase has nodes does
    not run out of it. *)

Lemma runs_ret {S A} (a : A) : runs (@ret S A a).
Proof. by intros s. Qed.

Lemma runs_raise {S A} cx msg : runs (@raise S A cx msg).
Proof. by intros s. Qed.

Lemma runs_get_env : runs get_env.
Proof. by intros s. Qed.

Lemma runs_to_operation m : runs (to_operation m).
Proof. by destruct m; intros s. Qed.

Lemma runs_bind {S A B} (c : St S A) (k : A -> St S B) :
  runs c -> (forall a, runs (k a)) -> runs (bind c k).
Proof.
  intros Hc Hk s. unfold bind. specialize (Hc s).
  destruct (c s) as [[a s']| | |]; try done. apply Hk.
Qed.

Lemma runs_bind_lift {S A B} (r : Result A) (k : A -> St S B) :
  r <> Out_Of_Fuel -> (forall a, r = Ok a -> runs (k a)) ->
  runs (bind (lift r) k).
Proof.
  intros Hr Hk s. unfold bind, lift. destruct r as [a| | |]; try done.
  simpl. by apply Hk.
Qed.

Lemma runs_in_scope {A} child (c : M A) : runs c -> runs (in_scope child c).
Proof.
  intros Hc env. unfold in_scope. specialize (Hc (child :: env)).
  by destruct (c (child :: env)) as [[a [|]]| | |].
Qed.

Lemma lookup_runs env id : lookup env id <> Out_Of_Fuel.
Proof.
  induction env as [|e parent IH]; [done|]. simpl.
  assert (single_lookup e parent (lookup parent id) id <> Out_Of_Fuel) as H.
  { unfold single_lookup. repeat case_match; try done.
    destruct (lookup parent id) as [[[] ?]| | |]; try done. simpl.
    by repeat case_match. }
  destruct (single_lookup e parent (lookup parent id) id)
    as [[[[m e'] parent']|]| | |]; try done.
  by destruct (lookup parent id) as [[m parent']| | |].
Qed.

Lemma analyze_def_runs ph : analyze_def ph <> Out_Of_Fuel.
Proof. destruct ph; try done. simpl. by repeat case_match. Qed.

Lemma lambda_params_runs left_ : lambda_params left_ <> Out_Of_Fuel.
Proof.
  destruct left_; try done. simpl. generalize (∅ : gmap Atom nat) 0.
  induction (args_ parens) as [|a args IH]; intros params slot; [done|].
  simpl. destruct (expr_ a); try done.
Qed.

Lemma let_bindings_loop_runs args b0 slot :
  let_bindings_loop args b0 slot <> Out_Of_Fuel.
Proof.
  revert b0 slot. induction args as [|x args IH]; intros b0 slot; [done|].
  simpl. pose proof (analyze_def_runs (expr_ x)) as Hd.
  destruct (analyze_def (expr_ x)) as [[d|]| | |]; try done. simpl.
  destruct (b0 !! _); [done|]. apply IH.
Qed.

Lemma module_fields_loop_runs stmts f0 el0 :
  module_fields_loop stmts f0 el0 <> Out_Of_Fuel.
Proof.
  revert f0 el0. induction stmts as [|st stmts IH]; intros f0 el0; [done|].
  simpl. pose proof (analyze_def_runs st) as Hd.
  destruct (analyze_def st) as [[d|]| | |]; try done; simpl; [|apply IH].
  unfold add_definition. destruct (dictionary_ f0 !! _); [done|]. apply IH.
Qed.

Lemma args_size_cons a args :
  args_size (a :: args) = phrase_size (expr_ a) + args_size args.
Proof. done. Qed.

Lemma args_size_elem a args : a ∈ args -> phrase_size (expr_ a) <= args_size args.
Proof.
  induction 1 as [a args|a b args _ IH]; rewrite args_size_cons; lia.
Qed.

Lemma phrase_size_set_recursive ph :
  phrase_size (set_recursive ph) = phrase_size ph.
Proof. by destruct ph. Qed.

Lemma analyze_def_size ph d :
  analyze_def ph = Ok (Some d) -> phrase_size (definiens_ d) < phrase_size ph.
Proof.
  destruct ph; try discriminate. simpl.
  repeat case_match; intros; simplify_eq; simpl in *; lia.
Qed.

Lemma Statements_size body st :
  st ∈ Statements body -> phrase_size st <= phrase_size body.
Proof.
  destruct body; simpl; try (intros ->%list_elem_of_singleton; done).
  intros (a & -> & Ha)%list_elem_of_fmap.
  apply args_size_elem in Ha. unfold args_size in Ha. lia.
Qed.

Lemma let_bindings_loop_size n args b0 slot b :
  let_bindings_loop args b0 slot = Ok b ->
  args_size args <= n ->
  (forall a bd, b0 !! a = Some bd -> phrase_size (phrase_ bd) <= n) ->
  forall a bd, b !! a = Some bd -> phrase_size (phrase_ bd) <= n.
Proof.
  revert b0 slot. induction args as [|x args IH]; intros b0 slot H Hn H0;
    simpl in H.
  - by simplify_eq.
  - rewrite args_size_cons in Hn.
    apply Result_bind_Ok in H as ([d|] & Hd & H); [|done].
    destruct (b0 !! atom_ (name_ d)) eqn:Hb0; [done|].
    eapply IH; [exact H|lia|].
    intros a bd. rewrite lookup_insert. case_decide.
    + intros [= <-]. simpl. apply analyze_def_size in Hd. lia.
    + apply H0.
Qed.

Lemma module_fields_loop_size n stmts f0 el0 f el :
  module_fields_loop stmts f0 el0 = Ok (f, el) ->
  Forall (fun st => phrase_size st <= n) stmts ->
  Forall (fun ph => phrase_size ph <= n) (slot_phrases_ f0) ->
  Forall (fun ph => phrase_size ph <= n) el0 ->
  Forall (fun ph => phrase_size ph <= n) (slot_phrases_ f)
  /\ Forall (fun ph => phrase_size ph <= n) el.
Proof.
  revert f0 el0. induction stmts as [|st stmts IH]; intros f0 el0 H Hn Hf He;
    simpl in H.
  - by simplify_eq.
  - apply Forall_cons in Hn as [Hst Hn].
    apply Result_bind_Ok in H as ([d|] & Hd & H).
    + apply Result_bind_Ok in H as (f1 & Hf1 & H).
      eapply IH; [exact H|done| |done].
      unfold add_definition in Hf1. case_match; [done|]. simplify_eq. simpl.
      apply Forall_app. split; [done|]. apply Forall_singleton.
      rewrite phrase_size_set_recursive. apply analyze_def_size in Hd. lia.
    + eapply IH; [exact H|done|done|].
      apply Forall_app. split; [done|]. by apply Forall_singleton.
Qed.

Section Analyze_runs.
Variable analyze : Phrase -> M Meaning.
Variable n : nat.
Hypothesis analyze_runs : forall ph, phrase_size ph <= n -> runs (analyze ph).

Lemma runs_analyze_op ph : phrase_size ph <= n -> runs (analyze_op analyze ph).
Proof.
  intros. apply runs_bind; [by apply analyze_runs|apply runs_to_operation].
Qed.

Lemma runs_analyze_ops args :
  args_size args <= n -> runs (analyze_ops analyze args).
Proof.
  induction args as [|a args IH]; intros Hn; simpl; [apply runs_ret|].
  rewrite args_size_cons in Hn.
  apply runs_bind; [apply runs_analyze_op; lia|]. intros x.
  apply runs_bind; [apply IH; lia|]. intros xs. apply runs_ret.
Qed.

Lemma runs_analyze_phrases phs :
  Forall (fun ph => phrase_size ph <= n) phs ->
  runs (analyze_phrases analyze phs).
Proof.
  induction 1 as [|ph phs Hph _ IH]; simpl; [apply runs_ret|].
  apply runs_bind; [by apply runs_analyze_op|]. intros x.
  apply runs_bind; [apply IH|]. intros xs. apply runs_ret.
Qed.

Lemma runs_analyze_values phs :
  Forall (fun ph => phrase_size ph <= n) phs ->
  runs (analyze_values analyze phs).
Proof.
  induction 1 as [|ph phs Hph _ IH]; simpl; [apply runs_ret|].
  apply runs_bind; [by apply runs_analyze_op|]. intros x.
  apply runs_bind.
  { destruct (isa_Lambda_Phrase ph); [|apply runs_ret].
    destruct x; try apply runs_ret; by intros ?. }
  intros v. apply runs_bind; [apply IH|]. intros xs. apply runs_ret.
Qed.

Lemma runs_let_values_loop (items : list (Atom * Binding)) first_slot values :
  Forall (fun b => phrase_size (phrase_ b.2) <= n) items ->
  runs (let_values_loop analyze items first_slot values).
Proof.
  intros H. revert values.
  induction H as [|b items Hb _ IH]; intros values; simpl; [apply runs_ret|].
  apply runs_bind; [by apply runs_analyze_op|]. intros x. apply IH.
Qed.

Lemma runs_Record_Phrase_loop args fields :
  args_size args <= n -> runs (Record_Phrase_loop analyze args fields).
Proof.
  revert fields. induction args as [|a args IH]; intros fields Hn; simpl;
    [apply runs_ret|].
  rewrite args_size_cons in Hn.
  apply runs_bind_lift; [apply analyze_def_runs|]. intros [d|] Hd;
    [|apply runs_raise].
  apply runs_bind; [|intros ?; apply IH; lia].
  unfold analyze_definition. destruct (fields !! _); [apply runs_raise|].
  apply runs_bind; [|intros ?; apply runs_ret].
  apply runs_analyze_op. apply analyze_def_size in Hd. lia.
Qed.

Ltac runs_step :=
  first
    [ apply runs_ret
    | apply runs_raise
    | apply runs_get_env
    | apply runs_analyze_op; simpl in *; lia
    | apply runs_analyze_ops; unfold args_size; simpl in *; lia
    | apply runs_in_scope
    | apply runs_bind; [|intros ?] ].

Lemma runs_binary mk l r :
  phrase_size l + phrase_size r <= n -> runs (binary analyze mk l r).
Proof. intros. unfold binary. repeat runs_step. Qed.

Lemma analyze_phrase_runs ph :
  phrase_size ph <= S n -> runs (analyze_phrase analyze ph).
Proof.
  destruct ph; simpl; intros Hn.
  - intros env. apply lookup_runs.
  - apply runs_ret.
  - apply runs_ret.
  - by intros ?.
  - unfold Unary_Phrase_analyze. destruct (kind op_); repeat runs_step.
  - unfold Binary_Phrase_analyze.
    destruct (kind op_); try (apply runs_binary; lia).
    destruct ph2; try apply runs_raise.
    + repeat runs_step.
    + destruct (args_ brackets) as [|a [|]] eqn:E; try apply runs_raise.
      simpl in Hn. rewrite E in Hn. simpl in Hn.
      case_decide; repeat runs_step.
  - unfold Lambda_Phrase_analyze.
    apply runs_bind_lift; [apply lambda_params_runs|]. intros params _.
    apply runs_bind; [repeat runs_step|]. intros [expr env2]. apply runs_ret.
  - apply runs_raise.
  - unfold Semicolon_Phrase_analyze.
    destruct sargs_ as [|a [|]]; try apply runs_raise. simpl in Hn.
    repeat runs_step.
  - unfold sequence_analyze.
    destruct cargs_ as [|a [|]]; try case_decide; repeat runs_step.
  - unfold sequence_analyze.
    destruct (args_ parens) as [|a [|]]; try case_decide; repeat runs_step.
  - unfold List_Phrase_analyze. repeat runs_step.
  - unfold Record_Phrase_analyze.
    apply runs_bind; [|intros ?; apply runs_ret].
    apply runs_Record_Phrase_loop. unfold args_size. lia.
  - unfold Call_Phrase_analyze.
    apply runs_bind; [apply analyze_runs; lia|]. intros m.
    assert (runs (analyze_args analyze ph2)) as Hargs.
    { unfold analyze_args. destruct ph2; repeat runs_step. }
    destruct m; repeat runs_step; done.
  - unfold If_Phrase_analyze. destruct else_expr_; repeat runs_step.
  - unfold For_Phrase_analyze.
    destruct (args_ fargs_) as [|a [|]] eqn:E; try apply runs_raise.
    simpl in Hn.
    destruct (expr_ a) eqn:Ea; try apply runs_raise.
    destruct p1; try apply runs_raise. simpl in Hn.
    apply runs_bind; [runs_step|]. intros list_.
    apply runs_bind; [runs_step|]. intros env.
    apply runs_bind; [repeat runs_step|]. intros [body' body_env].
    by intros ?.
  - unfold Let_Phrase_analyze.
    apply runs_bind; [runs_step|]. intros env.
    apply runs_bind_lift; [apply let_bindings_loop_runs|].
    intros bindings Hb.
    apply runs_bind; [|intros [[values body'] env2]; by intros ?].
    apply runs_in_scope. apply runs_bind; [|intros ?; repeat runs_step].
    apply runs_let_values_loop. apply Forall_forall. intros [a bd] Hin.
    apply elem_of_map_to_list in Hin. simpl.
    eapply (let_bindings_loop_size n); [exact Hb| |by intros ? ?|exact Hin].
    unfold args_size. lia.
  - unfold Range_Phrase_analyze. destruct step_; repeat runs_step.
  - unfold analyze_module.
    apply runs_bind_lift; [apply module_fields_loop_runs|].
    intros [fields elements] Hf.
    apply (module_fields_loop_size n) in Hf as [Hslots Hel];
      [|
      |by constructor|by constructor].
    2:{ apply Forall_forall. intros st Hst. apply Statements_size in Hst. lia. }
    apply runs_bind; [runs_step|]. intros env.
    apply runs_bind; [|intros [[slots xelements] env2]; apply runs_ret].
    apply runs_in_scope.
    apply runs_bind; [by apply runs_analyze_values|]. intros slots.
    apply runs_bind; [by apply runs_analyze_phrases|]. intros xs.
    apply runs_ret.
  - by intros ?.
Qed.

End Analyze_runs.

Lemma analyze_runs fuel ph env :
  phrase_size ph <= fuel -> analyze fuel ph env <> Out_Of_Fuel.
Proof.
  revert ph env. induction fuel as [|fuel IH]; intros ph env H.
  - destruct ph; simpl in H; lia.
  - simpl. apply (analyze_phrase_runs (analyze fuel) fuel); [|done].
    intros ph' H' env'. by apply IH.
Qed.

Lemma extends_out_of_fuel {S A} (c : St S A) : extends out_of_fuel c.
Proof. by intros s H. Qed.

Create HintDb extends.

Section Parse_fuel.
Variables rc1 rc2 ri1 ri2 ru1 ru2 : Parser Phrase.
Variables rp1 rp2 : option string -> Parser (option Phrase).
Variables f1 f2 : nat.
Hypothesis Hrc : extends rc1 rc2.
Hypothesis Hri : extends ri1 ri2.
Hypothesis Hru : extends ru1 ru2.
Hypothesis Hrp : forall what, extends (rp1 what) (rp2 what).
Hypothesis Hf : f1 <= f2.

Ltac ext_with t :=
  repeat first
    [ apply extends_refl
    | apply extends_out_of_fuel
    | apply Hrc | apply Hri | apply Hru | apply Hrp
    | t
    | progress auto with nocore extends
    | apply extends_bind; [|intros ?]
    | case_match
    | case_decide ].

Ltac ext := ext_with fail.

Ltac ext_loop :=
  let n1 := fresh "n1" in
  let n2 := fresh "n2" in
  let IH := fresh "IH" in
  intros n1; induction n1 as [|n1 IH]; intros n2 ? ?;
  [apply extends_out_of_fuel|];
  destruct n2 as [|n2]; [lia|]; simpl;
  ext_with ltac:(apply IH; lia).

Lemma extends_parse_delimited d tok :
  extends (parse_delimited rc1 d tok) (parse_delimited rc2 d tok).
Proof. unfold parse_delimited. ext. Qed.
#[local] Hint Resolve extends_parse_delimited : extends.

Lemma extends_parse_primary what :
  extends (parse_primary rc1 ri1 rp1 what) (parse_primary rc2 ri2 rp2 what).
Proof. unfold parse_primary. ext. Qed.
#[local] Hint Resolve extends_parse_primary : extends.

Lemma extends_parse_primary_what what :
  extends (parse_primary_what rc1 ri1 rp1 what)
          (parse_primary_what rc2 ri2 rp2 what).
Proof. unfold parse_primary_what. ext. Qed.
#[local] Hint Resolve extends_parse_primary_what : extends.

Lemma extends_parse_postfix_loop n1 n2 postfix :
  n1 <= n2 ->
  extends (parse_postfix_loop rc1 ri1 ru1 rp1 n1 postfix)
          (parse_postfix_loop rc2 ri2 ru2 rp2 n2 postfix).
Proof. revert n1 n2 postfix. ext_loop. Qed.

Lemma extends_parse_postfix :
  extends (parse_postfix rc1 ri1 ru1 rp1 f1) (parse_postfix rc2 ri2 ru2 rp2 f2).
Proof.
  unfold parse_postfix. ext_with ltac:(by apply extends_parse_postfix_loop).
Qed.
#[local] Hint Resolve extends_parse_postfix : extends.

Lemma extends_parse_unary :
  extends (parse_unary rc1 ri1 ru1 rp1 f1) (parse_unary rc2 ri2 ru2 rp2 f2).
Proof. unfold parse_unary. ext. Qed.
#[local] Hint Resolve extends_parse_unary : extends.

Lemma extends_parse_product_loop n1 n2 left_ :
  n1 <= n2 ->
  extends (parse_product_loop rc1 ri1 ru1 rp1 f1 n1 left_)
          (parse_product_loop rc2 ri2 ru2 rp2 f2 n2 left_).
Proof. revert n1 n2 left_. ext_loop. Qed.

Lemma extends_parse_product :
  extends (parse_product rc1 ri1 ru1 rp1 f1) (parse_product rc2 ri2 ru2 rp2 f2).
Proof.
  unfold parse_product. ext_with ltac:(by apply extends_parse_product_loop).
Qed.
#[local] Hint Resolve extends_parse_product : extends.

Lemma extends_parse_sum_loop n1 n2 left_ :
  n1 <= n2 ->
  extends (parse_sum_loop rc1 ri1 ru1 rp1 f1 n1 left_)
          (parse_sum_loop rc2 ri2 ru2 rp2 f2 n2 left_).
Proof. revert n1 n2 left_. ext_loop. Qed.

Lemma extends_parse_sum :
  extends (parse_sum rc1 ri1 ru1 rp1 f1) (parse_sum rc2 ri2 ru2 rp2 f2).
Proof.
  unfold parse_sum. ext_with ltac:(by apply extends_parse_sum_loop).
Qed.
#[local] Hint Resolve extends_parse_sum : extends.

Lemma extends_parse_range :
  extends (parse_range rc1 ri1 ru1 rp1 f1) (parse_range rc2 ri2 ru2 rp2 f2).
Proof. unfold parse_range. ext. Qed.
#[local] Hint Resolve extends_parse_range : extends.

Lemma extends_parse_relation :
  extends (parse_relation rc1 ri1 ru1 rp1 f1)
          (parse_relation rc2 ri2 ru2 rp2 f2).
Proof. unfold parse_relation. ext. Qed.
#[local] Hint Resolve extends_parse_relation : extends.

Lemma extends_parse_conjunction_loop n1 n2 left_ :
  n1 <= n2 ->
  extends (parse_conjunction_loop rc1 ri1 ru1 rp1 f1 n1 left_)
          (parse_conjunction_loop rc2 ri2 ru2 rp2 f2 n2 left_).
Proof. revert n1 n2 left_. ext_loop. Qed.

Lemma extends_parse_conjunction :
  extends (parse_conjunction rc1 ri1 ru1 rp1 f1)
          (parse_conjunction rc2 ri2 ru2 rp2 f2).
Proof.
  unfold parse_conjunction.
  ext_with ltac:(by apply extends_parse_conjunction_loop).
Qed.
#[local] Hint Resolve extends_parse_conjunction : extends.

Lemma extends_parse_disjunction_loop n1 n2 left_ :
  n1 <= n2 ->
  extends (parse_disjunction_loop rc1 ri1 ru1 rp1 f1 n1 left_)
          (parse_disjunction_loop rc2 ri2 ru2 rp2 f2 n2 left_).
Proof. revert n1 n2 left_. ext_loop. Qed.

Lemma extends_parse_disjunction :
  extends (parse_disjunction rc1 ri1 ru1 rp1 f1)
          (parse_disjunction rc2 ri2 ru2 rp2 f2).
Proof.
  unfold parse_disjunction.
  ext_with ltac:(by apply extends_parse_disjunction_loop).
Qed.
#[local] Hint Resolve extends_parse_disjunction : extends.

Lemma extends_parse_item :
  extends (parse_item rc1 ri1 ru1 rp1 f1) (parse_item rc2 ri2 ru2 rp2 f2).
Proof. unfold parse_item. ext. Qed.
#[local] Hint Resolve extends_parse_item : extends.

Lemma extends_parse_semicolons_loop n1 n2 args :
  n1 <= n2 ->
  extends (parse_semicolons_loop rc1 ri1 ru1 rp1 f1 n1 args)
          (parse_semicolons_loop rc2 ri2 ru2 rp2 f2 n2 args).
Proof. revert n1 n2 args. ext_loop. Qed.

Lemma extends_parse_semicolons :
  extends (parse_semicolons rc1 ri1 ru1 rp1 f1)
          (parse_semicolons rc2 ri2 ru2 rp2 f2).
Proof. unfold parse_semicolons. by apply extends_parse_semicolons_loop. Qed.
#[local] Hint Resolve extends_parse_semicolons : extends.

Lemma extends_parse_commas_loop n1 n2 args :
  n1 <= n2 ->
  extends (parse_commas_loop rc1 ri1 ru1 rp1 f1 n1 args)
          (parse_commas_loop rc2 ri2 ru2 rp2 f2 n2 args).
Proof. revert n1 n2 args. ext_loop. Qed.

Lemma extends_parse_commas :
  extends (parse_commas rc1 ri1 ru1 rp1 f1) (parse_commas rc2 ri2 ru2 rp2 f2).
Proof.
  unfold parse_commas. ext_with ltac:(by apply extends_parse_commas_loop).
Qed.

End Parse_fuel.

Lemma parse_fuel_S fuel :
  extends (parse_commas_fuel fuel) (parse_commas_fuel (S fuel))
  /\ extends (parse_item_fuel fuel) (parse_item_fuel (S fuel))
  /\ extends (parse_unary_fuel fuel) (parse_unary_fuel (S fuel))
  /\ forall what,
       extends (parse_primary_fuel fuel what) (parse_primary_fuel (S fuel) what).
Proof.
  induction fuel as [|fuel (IHc & IHi & IHu & IHp)].
  { split; [|split; [|split; [|intros what]]]; by intros sc H. }
  split; [|split; [|split; [|intros what]]].
  - apply (extends_parse_commas _ _ _ _ _ _ _ _ fuel (S fuel)); auto.
  - apply (extends_parse_item _ _ _ _ _ _ _ _ fuel (S fuel)); auto.
  - apply (extends_parse_unary _ _ _ _ _ _ _ _ fuel (S fuel)); auto.
  - apply (extends_parse_primary _ _ _ _ _ _); auto.
Qed.

Lemma parse_program_fuel_le fuel fuel' sc :
  fuel <= fuel' -> parse_program fuel sc <> Out_Of_Fuel ->
  parse_program fuel' sc = parse_program fuel sc.
Proof.
  induction 1 as [|fuel' Hle IH]; [done|]. intros H.
  rewrite <- (IH H). unfold parse_program.
  apply extends_bind; [apply parse_fuel_S|intros; apply extends_refl|].
  fold (parse_program fuel'). by rewrite (IH H).
Qed.

(** The parser does not run out of fuel when it has more of it than
    there are tokens to read. *)

Lemma wp_ret {A} (a : A) (Q : A -> Scanner -> Prop) sc :
  Q a sc -> wp (ret a) Q sc.
Proof. done. Qed.

Lemma wp_bind {A B} (c : Parser A) (k : A -> Parser B) Q sc :
  wp c (fun a sc' => wp (k a) Q sc') sc -> wp (bind c k) Q sc.
Proof. unfold wp, bind. by destruct (c sc) as [[a sc']| | |]. Qed.

Lemma wp_mono {A} (c : Parser A) (Q Q' : A -> Scanner -> Prop) sc :
  wp c Q sc -> (forall a sc', Q a sc' -> Q' a sc') -> wp c Q' sc.
Proof. unfold wp. destruct (c sc) as [[a sc']| | |]; auto. Qed.

Lemma wp_raise {A} cx msg (Q : A -> Scanner -> Prop) sc :
  wp (raise cx msg) Q sc.
Proof. done. Qed.

Lemma wp_undefined {A} (Q : A -> Scanner -> Prop) sc : wp undefined Q sc.
Proof. done. Qed.

Lemma wp_get_token (Q : Token -> Scanner -> Prop) sc :
  (forall tok sc', pending sc' + weight tok = pending sc -> Q tok sc') ->
  wp get_token Q sc.
Proof.
  intros H. unfold wp, get_token. destruct sc as [script [|tok rest]]; simpl.
  - apply H. done.
  - apply H. unfold pending. simpl. lia.
Qed.

Lemma wp_push_token tok (Q : unit -> Scanner -> Prop) sc :
  (forall sc', pending sc' = pending sc + weight tok -> Q tt sc') ->
  wp (push_token tok) Q sc.
Proof. intros H. unfold wp, push_token. apply H. unfold pending. simpl. lia. Qed.

Lemma wp_get_script (Q : Script -> Scanner -> Prop) sc :
  (forall s, Q s sc) -> wp get_script Q sc.
Proof. intros H. apply H. Qed.

Lemma wp_call {A B} (c : Parser A) (k : A -> Parser B) Q0 Q sc :
  wp c Q0 sc -> (forall a sc', Q0 a sc' -> wp (k a) Q sc') ->
  wp (bind c k) Q sc.
Proof. intros H Hk. apply wp_bind. eapply wp_mono; [exact H|]. exact Hk. Qed.

Section Parse_runs.
Variables rc ri ru : Parser Phrase.
Variable rp : option string -> Parser (option Phrase).
Variable n : nat.
Hypothesis Hrc : eats (pred n) 0 rc.
Hypothesis Hri : eats (pred n) 1 ri.
Hypothesis Hru : eats (pred n) 1 ru.
Hypothesis Hrp : forall what, eats_opt (pred n) (rp what).

Ltac wp_kind :=
  match goal with
  | |- context [kind ?tok] =>
      let E := fresh "E" in
      unfold weight in *; destruct (kind tok) eqn:E; cbv beta iota in *
  end.

Ltac wp_lia :=
  cbv beta in *; unfold weight in *;
  repeat match goal with
         | E : kind ?tok = _, H : context [kind ?tok] |- _ =>
             lazymatch H with E => fail | _ => rewrite E in H end
         end;
  cbv beta iota in *; lia.

Ltac wp_call H := eapply wp_call; [apply H; wp_lia|intros ? ? ?].

Ltac wp_step t :=
  lazymatch goal with
  | |- wp (ret _) _ _ => apply wp_ret; wp_lia
  | |- wp (raise _ _) _ _ => apply wp_raise
  | |- wp undefined _ _ => apply wp_undefined
  | |- wp out_of_fuel _ _ => wp_lia
  | |- wp (bind get_token _) _ _ =>
      apply wp_bind; apply wp_get_token; intros ? ? ?
  | |- wp (bind (push_token _) _) _ _ =>
      apply wp_bind; apply wp_push_token; intros ? ?
  | |- wp (bind get_script _) _ _ =>
      apply wp_bind; apply wp_get_script; intros ?
  | |- wp (bind rc _) _ _ => wp_call Hrc
  | |- wp (bind ri _) _ _ => wp_call Hri
  | |- wp (bind ru _) _ _ => wp_call Hru
  | |- wp (bind (rp _) _) _ _ => wp_call Hrp
  | |- wp (bind _ _) _ _ => t
  | |- wp (match kind _ with _ => _ end) _ _ => wp_kind
  | |- wp (match _ with _ => _ end) _ _ => first [case_decide | case_match]
  | |- wp _ _ _ => t
  end.

Ltac wp_go := repeat wp_step fail.

Ltac wp_tail H :=
  eapply wp_mono; [apply H; wp_lia|intros ? ? ?; wp_lia].

Ltac wp_use H := first [wp_call H | wp_tail H].

Lemma parse_delimited_eats d tok : eats (pred n) 0 (parse_delimited rc d tok).
Proof. intros sc Hsc. unfold parse_delimited. wp_go. Qed.

Lemma parse_primary_eats what : eats_opt n (parse_primary rc ri rp what).
Proof.
  intros sc Hsc. unfold parse_primary.
  repeat wp_step ltac:(wp_use parse_delimited_eats).
Qed.

Lemma parse_primary_what_eats what :
  eats n 1 (parse_primary_what rc ri rp what).
Proof.
  intros sc Hsc. unfold parse_primary_what.
  repeat wp_step ltac:(wp_use parse_primary_eats).
Qed.

Lemma parse_postfix_loop_eats k postfix :
  eats (Nat.min k n) 0 (parse_postfix_loop rc ri ru rp k postfix).
Proof.
  revert postfix. induction k as [|k IH]; intros postfix sc Hsc; [lia|].
  simpl.
  repeat wp_step ltac:(first [ wp_use parse_primary_eats
                             | wp_use parse_primary_what_eats
                             | wp_use IH ]).
Qed.

Lemma parse_postfix_eats : eats n 1 (parse_postfix rc ri ru rp n).
Proof.
  intros sc Hsc. unfold parse_postfix.
  repeat wp_step ltac:(first [ wp_use parse_primary_what_eats
                             | wp_use parse_postfix_loop_eats ]).
Qed.

Lemma parse_unary_eats : eats n 1 (parse_unary rc ri ru rp n).
Proof.
  intros sc Hsc. unfold parse_unary.
  repeat wp_step ltac:(wp_use parse_postfix_eats).
Qed.

Lemma parse_product_loop_eats k left_ :
  eats (Nat.min k n) 0 (parse_product_loop rc ri ru rp n k left_).
Proof.
  revert left_. induction k as [|k IH]; intros left_ sc Hsc; [lia|].
  simpl. repeat wp_step ltac:(first [wp_use parse_unary_eats | wp_use IH]).
Qed.

Lemma parse_product_eats : eats n 1 (parse_product rc ri ru rp n).
Proof.
  intros sc Hsc. unfold parse_product.
  repeat wp_step ltac:(first [ wp_use parse_unary_eats
                             | wp_use parse_product_loop_eats ]).
Qed.

Lemma parse_sum_loop_eats k left_ :
  eats (Nat.min k n) 0 (parse_sum_loop rc ri ru rp n k left_).
Proof.
  revert left_. induction k as [|k IH]; intros left_ sc Hsc; [lia|].
  simpl. repeat wp_step ltac:(first [wp_use parse_product_eats | wp_use IH]).
Qed.

Lemma parse_sum_eats : eats n 1 (parse_sum rc ri ru rp n).
Proof.
  intros sc Hsc. unfold parse_sum.
  repeat wp_step ltac:(first [ wp_use parse_product_eats
                             | wp_use parse_sum_loop_eats ]).
Qed.

Lemma parse_range_eats : eats n 1 (parse_range rc ri ru rp n).
Proof.
  intros sc Hsc. unfold parse_range.
  repeat wp_step ltac:(wp_use parse_sum_eats).
Qed.

Lemma parse_relation_eats : eats n 1 (parse_relation rc ri ru rp n).
Proof.
  intros sc Hsc. unfold parse_relation.
  repeat wp_step ltac:(wp_use parse_range_eats).
Qed.

Lemma parse_conjunction_loop_eats k left_ :
  eats (Nat.min k n) 0 (parse_conjunction_loop rc ri ru rp n k left_).
Proof.
  revert left_. induction k as [|k IH]; intros left_ sc Hsc; [lia|].
  simpl. repeat wp_step ltac:(first [wp_use parse_relation_eats | wp_use IH]).
Qed.

Lemma parse_conjunction_eats : eats n 1 (parse_conjunction rc ri ru rp n).
Proof.
  intros sc Hsc. unfold parse_conjunction.
  repeat wp_step ltac:(first [ wp_use parse_relation_eats
                             | wp_use parse_conjunction_loop_eats ]).
Qed.

Lemma parse_disjunction_loop_eats k left_ :
  eats (Nat.min k n) 0 (parse_disjunction_loop rc ri ru rp n k left_).
Proof.
  revert left_. induction k as [|k IH]; intros left_ sc Hsc; [lia|].
  simpl.
  repeat wp_step ltac:(first [wp_use parse_conjunction_eats | wp_use IH]).
Qed.

Lemma parse_disjunction_eats : eats n 1 (parse_disjunction rc ri ru rp n).
Proof.
  intros sc Hsc. unfold parse_disjunction.
  repeat wp_step ltac:(first [ wp_use parse_conjunction_eats
                             | wp_use parse_disjunction_loop_eats ]).
Qed.

Lemma parse_item_eats : eats n 1 (parse_item rc ri ru rp n).
Proof.
  intros sc Hsc. unfold parse_item.
  repeat wp_step ltac:(first [ wp_use parse_primary_what_eats
                             | wp_use parse_disjunction_eats ]).
Qed.

Lemma parse_semicolons_loop_eats k args :
  eats (Nat.min k n) 1 (parse_semicolons_loop rc ri ru rp n k args).
Proof.
  revert args. induction k as [|k IH]; intros args sc Hsc; [lia|].
  simpl. repeat wp_step ltac:(first [wp_use parse_item_eats | wp_use IH]).
Qed.

Lemma parse_semicolons_eats : eats n 1 (parse_semicolons rc ri ru rp n).
Proof.
  intros sc Hsc. unfold parse_semicolons.
  repeat wp_step ltac:(wp_use parse_semicolons_loop_eats).
Qed.

Lemma parse_commas_loop_eats k args :
  eats (Nat.min k n) 1 (parse_commas_loop rc ri ru rp n k args).
Proof.
  revert args. induction k as [|k IH]; intros args sc Hsc; [lia|].
  simpl.
  repeat wp_step ltac:(first [wp_use parse_semicolons_eats | wp_use IH]).
Qed.

Lemma parse_commas_eats : eats n 0 (parse_commas rc ri ru rp n).
Proof.
  intros sc Hsc. unfold parse_commas.
  repeat wp_step ltac:(wp_use parse_commas_loop_eats).
Qed.

End Parse_runs.

Lemma parse_fuel_eats fuel :
  eats (pred fuel) 0 (parse_commas_fuel fuel)
  /\ eats (pred fuel) 1 (parse_item_fuel fuel)
  /\ eats (pred fuel) 1 (parse_unary_fuel fuel)
  /\ forall what, eats_opt (pred fuel) (parse_primary_fuel fuel what).
Proof.
  induction fuel as [|fuel (IHc & IHi & IHu & IHp)].
  { split; [|split; [|split; [|intros what]]]; intros sc H; simpl in H; lia. }
  split; [|split; [|split; [|intros what]]]; simpl.
  - by apply parse_commas_eats.
  - by apply parse_item_eats.
  - by apply parse_unary_eats.
  - by apply parse_primary_eats.
Qed.

Lemma parse_program_runs fuel sc :
  pending sc + 2 <= fuel -> parse_program fuel sc <> Out_Of_Fuel.
Proof.
  intros H. unfold parse_program.
  assert (wp (let* commas := parse_commas_fuel fuel in
              let* tok := get_token in
              if decide (kind tok = k_end)
              then ret (Program_Phrase commas tok)
              else raise (At_Token tok) "syntax error in program")
            (fun _ _ => True) sc) as Hwp.
  { eapply wp_call; [apply parse_fuel_eats; lia|]. intros commas sc1 _.
    apply wp_bind, wp_get_token. intros tok sc2 _. by case_decide. }
  unfold wp in Hwp. intros E. by rewrite E in Hwp.
Qed.

(** With enough fuel the outcome does not depend on the fuel. *)
Lemma analyze_enough_fuel fuel ph env :
  phrase_size ph <= fuel ->
  analyze fuel ph env = analyze (phrase_size ph) ph env
  /\ analyze fuel ph env <> Out_Of_Fuel.
Proof.
  intros H. split; [|by apply analyze_runs].
  apply analyze_fuel_le; [done|]. by apply analyze_runs.
Qed.

Lemma parse_program_enough_fuel fuel sc :
  pending sc + 2 <= fuel ->
  parse_program fuel sc = parse_program (pending sc + 2) sc
  /\ parse_program fuel sc <> Out_Of_Fuel.
Proof.
  intros H. split; [|by apply parse_program_runs].
  apply parse_program_fuel_le; [done|]. by apply parse_program_runs.
Qed.

(** ** Definitions: [Definition_Phrase::analyze_def] *)

(** Claim C7.  [Definition_Phrase::analyze_def] yields the definition
    of [id] with definiens [right] when the left side is the identifier
    [id]; when the left side is a call phrase [f args] it yields the
    definition of [f] with definiens the lambda phrase [args -> right]
    (built on the equate token, recursive flag unset) if [f] is an
    identifier and raises "not an identifier" at [f] otherwise; for any
    other left side it raises "invalid definiendum" at the left side. *)
Theorem analyze_def_Definition_Phrase left_ equate right_ :
  (forall id, left_ = Identifier id ->
     analyze_def (Definition_Phrase left_ equate right_)
     = Ok (Some {| name_ := id; definiens_ := right_ |}))
  /\ (forall f args tok, left_ = Call_Phrase f args tok ->
        (forall id, f = Identifier id ->
           analyze_def (Definition_Phrase left_ equate right_)
           = Ok (Some {| name_ := id;
                         definiens_ := Lambda_Phrase args equate right_ false |}))
        /\ ((forall id, f <> Identifier id) ->
            analyze_def (Definition_Phrase left_ equate right_)
            = Throw (Exception (At_Phrase f) "not an identifier")))
  /\ ((forall id, left_ <> Identifier id) ->
      (forall f args tok, left_ <> Call_Phrase f args tok) ->
      analyze_def (Definition_Phrase left_ equate right_)
      = Throw (Exception (At_Phrase left_) "invalid definiendum")).
Proof.
  split; [|split].
  - by intros id ->.
  - intros f args tok ->. split.
    + by intros id ->.
    + intros Hf. simpl. destruct f; try done. by destruct (Hf id).
  - intros Hid Hcall. simpl. destruct left_; try done.
    + by destruct (Hid id).
    + by destruct (Hcall left_1 left_2 op_).
Qed.

(** ** Name resolution: [Environ::lookup] *)


Lemma lookup_all_absent_app pre rest id :
  all_absent pre rest id ->
  lookup (pre ++ rest) id
  = Result_bind (lookup rest id) (fun '(m, rest') => Ok (m, pre ++ rest')).
Proof.
  induction pre as [|e pre IH]; simpl.
  - intros _. by destruct (lookup rest id) as [[m rest']| | |].
  - intros [He Hpre]. fold (lookup (pre ++ rest) id).
    unfold absent in He. rewrite He, (IH Hpre).
    by destruct (lookup rest id) as [[m rest']| | |].
Qed.

(** Claim C8.  [Environ::lookup] tries [single_lookup] on each scope
    from the innermost one outward: when the scopes before [e] are all
    absent, the result of [e] is the result of the lookup, be it a
    meaning (returned with the chain as [e] left it) or an exception;
    when every scope of the chain is absent, the lookup raises
    "<name>: not defined" at the identifier.  The builtin scope resolves
    exactly the names of its namespace, through [to_meaning]. *)
Theorem lookup_first_non_absent :
  (forall pre e post id m e' post',
     all_absent pre (e :: post) id ->
     single_lookup e post (lookup post id) id = Ok (Some (m, e', post')) ->
     lookup (pre ++ e :: post) id = Ok (m, pre ++ e' :: post'))
  /\ (forall pre e post id ex,
        all_absent pre (e :: post) id ->
        single_lookup e post (lookup post id) id = Throw ex ->
        lookup (pre ++ e :: post) id = Throw ex)
  /\ (forall env id,
        all_absent env [] id ->
        lookup env id
        = Throw (Exception (At_Phrase (Identifier id))
                           (atom_ id ++ ": not defined")%string))
  /\ (forall names nslots maxslots parent parent_lookup id,
        let e := mkScope (Builtin_Environ names) nslots maxslots in
        single_lookup e parent parent_lookup id
        = Ok (match names !! atom_ id with
              | Some b => Some (to_meaning b id, e, parent)
              | None => None
              end)).
Proof.
  repeat split.
  - intros pre e post id m e' post' Hpre He.
    rewrite (lookup_all_absent_app _ _ _ Hpre). simpl. by rewrite He.
  - intros pre e post id ex Hpre He.
    rewrite (lookup_all_absent_app _ _ _ Hpre). simpl. by rewrite He.
  - intros env id Henv.
    rewrite <- (app_nil_r env) at 1.
    by rewrite (lookup_all_absent_app _ _ _ Henv).
  - intros names nslots maxslots parent parent_lookup id. simpl.
    unfold single_lookup. simpl. by destruct (names !! atom_ id).
Qed.

(** ** Lambda parameters *)

Lemma lambda_params_loop_Throw args params slot :
  Exists (fun a => is_Identifier (expr_ a) = false) args ->
  exists ph, lambda_params_loop args params slot
             = Throw (Exception (At_Phrase ph) "not a parameter").
Proof.
  intros H. revert params slot.
  induction args as [|a args IH]; intros params slot; [by inversion H|].
  simpl. destruct (expr_ a) eqn:Ea; try by eexists.
  apply IH. inversion H as [? ? Ha|]; subst; [|done].
  by rewrite Ea in Ha.
Qed.

(** The loop binds every name to the position of its last occurrence. *)
Lemma lambda_params_loop_Ok args ids params slot :
  map expr_ args = map Identifier ids ->
  exists params',
    lambda_params_loop args params slot = Ok params'
    /\ (forall a v,
          params' !! a = Some v <->
          (exists i, (atom_ <$> ids) !! i = Some a
                     /\ (a ∉ drop (S i) (atom_ <$> ids)) /\ v = slot + i)
          \/ ((a ∉ (atom_ <$> ids)) /\ params !! a = Some v))
    /\ dom params' = dom params ∪ list_to_set (atom_ <$> ids).
Proof.
  revert ids params slot.
  induction args as [|x args IH]; intros [|id ids] params slot Hids;
    try discriminate.
  - exists params. split; [done|]. split; [|set_solver].
    intros a v. simpl. split; [|intros [(i & Hi & _)|[_ ?]]; done].
    intros Ha. right. split; [apply not_elem_of_nil|done].
  - simpl in Hids. injection Hids as Hx Hids.
    destruct (IH ids (<[atom_ id := slot]> params) (S slot) Hids)
      as (params' & Hloop & Hlook & Hdom).
    exists params'. simpl. rewrite Hx. split; [done|]. split.
    + intros a v. rewrite Hlook. split.
      * intros [(i & Hi & Hni & ->)|[Hna Hins]].
        -- left. exists (S i). simpl. split; [done|]. split; [done|lia].
        -- rewrite lookup_insert in Hins. case_decide as Hid.
           ++ injection Hins as <-. left. exists 0. simpl. subst a.
              split; [done|]. split; [by rewrite drop_0|lia].
           ++ right. split; [|done].
              rewrite not_elem_of_cons. done.
      * intros [([|i] & Hi & Hni & ->)|[Hna Hp]]; simpl in *.
        -- injection Hi as <-. rewrite drop_0 in Hni. right.
           split; [done|]. rewrite lookup_insert_eq. f_equal. lia.
        -- left. exists i. split; [done|]. split; [done|lia].
        -- apply not_elem_of_cons in Hna as [Hne Hna]. right.
           split; [done|]. by rewrite lookup_insert_ne.
    + rewrite Hdom, dom_insert_L. set_solver.
Qed.

(** Claim C10.  Parameter extraction raises "not a parameter" exactly
    when the left side is neither an identifier nor a parenthesized
    phrase or when an element of the parenthesized phrase is not an
    identifier.  Repeated parameter names are accepted: every name is
    bound to the position of its last occurrence, and [nargs] is the
    number of distinct names.  For [(x,x)->x] the analysis succeeds,
    whatever the fuel from 3 on, and the result is a [Lambda_Expr] with
    [nargs = 1] whose body is [Arg_Ref 1]. *)
Theorem lambda_params_spec :
  (forall left_,
     (not_parameters left_ ->
      exists ph, lambda_params left_
                 = Throw (Exception (At_Phrase ph) "not a parameter"))
     /\ (~ not_parameters left_ ->
         exists params, lambda_params left_ = Ok params))
  /\ (forall d ids,
        map expr_ (args_ d) = map Identifier ids ->
        exists params,
          lambda_params (Paren_Phrase d) = Ok params
          /\ (forall a i,
                params !! a = Some i <->
                (atom_ <$> ids) !! i = Some a
                /\ a ∉ drop (S i) (atom_ <$> ids))
          /\ size params = size (list_to_set (atom_ <$> ids) : gset Atom))
  /\ (forall fuel left_ op right_ recursive env m env',
        analyze (S fuel) (Lambda_Phrase left_ op right_ recursive) env
        = Ok (m, env') ->
        exists params body nonlocals nslots,
          lambda_params left_ = Ok params
          /\ m = Op (Lambda_Expr (Lambda_Phrase left_ op right_ recursive)
                       body nonlocals (size params) nslots))
  /\ (forall fuel,
        10 <= fuel ->
        parse_program fuel (mkScanner Example_xx.script Example_xx.tokens)
        = Ok (Program_Phrase Example_xx.lambda (mkToken 8 8 8 k_end),
              mkScanner Example_xx.script []))
  /\ (forall fuel,
        3 <= fuel ->
        analyze fuel Example_xx.lambda top_env
        = Ok (Op (Lambda_Expr Example_xx.lambda
                    (Arg_Ref (Identifier Example_xx.x3) 1)
                    (List_Expr Example_xx.lambda []) 1 1),
              top_env)).
Proof.
  split; [|split; [|split; [|split]]].
  4:{ intros fuel Hf.
      rewrite (parse_program_fuel_le 10 fuel _ Hf); by vm_compute. }
  4:{ intros fuel Hf.
      rewrite (analyze_fuel_le 3 fuel _ _ Hf); by vm_compute. }
  - intros left_. split.
    + intros [[Hid Hparen]|(d & -> & Hd)].
      * destruct left_; try done; try by eexists. by destruct (Hparen parens).
      * simpl. by apply lambda_params_loop_Throw.
    + intros Hnot. destruct left_.
      2-10,12-20:
        destruct Hnot; left; split; [done|intros d; discriminate].
      * by eexists.
      * simpl.
        assert (exists ids, map expr_ (args_ parens) = map Identifier ids)
          as [ids Hids].
        { assert (Forall (fun a => is_Identifier (expr_ a) = true)
                    (args_ parens)) as Hall.
          { apply Forall_forall. intros a Ha.
            destruct (is_Identifier (expr_ a)) eqn:E; [done|].
            destruct Hnot. right. exists parens. split; [done|].
            apply Exists_exists. eauto. }
          induction Hall as [|a args Ha _ [ids IH]]; [by exists []|].
          destruct (expr_ a) as [id| | | | | | | | | | | | | | | | | | |]
            eqn:Ea; try done.
          exists (id :: ids). simpl. by rewrite Ea, IH. }
        destruct (lambda_params_loop_Ok _ _ ∅ 0 Hids) as (p & Hp & _).
        eauto.
  - intros d ids Hids. simpl.
    destruct (lambda_params_loop_Ok _ _ ∅ 0 Hids) as (p & Hp & Hlook & Hdom).
    exists p. split; [done|]. split.
    + intros a i. rewrite Hlook. split.
      * intros [(j & Hj & Hnj & ->)|[_ Hempty]]; [done|].
        by rewrite lookup_empty in Hempty.
      * intros [Hi Hni]. left. exists i. done.
    + rewrite <- size_dom, Hdom. f_equal. set_solver.
  - intros fuel left_ op right_ recursive env m env' H. simpl in H.
    unfold Lambda_Phrase_analyze in H. inv_M H.
    destruct a0 as [expr env2]. inv_M H. eauto 10.
Qed.

(** ** The [.] operator *)

(** Claim C6, as the code has it.  For a binary phrase whose operator is
    [.]: an identifier on the right gives [Dot_Expr] of the analyzed
    left side and the atom; a bracketed list of exactly one element
    with no separator gives [At_Expr] of the analyzed left side and the
    analyzed element (the element is analyzed first); any other
    bracketed list raises "not an expression" at the binary phrase; and
    every other right side raises "invalid expression after '.'" at the
    right side. *)
Theorem Binary_Phrase_dot fuel left_ op right_ env :
  kind op = k_dot ->
  let this := Binary_Phrase left_ op right_ in
  (forall id, right_ = Identifier id ->
     analyze (S fuel) this env
     = (let* l := analyze_op (analyze fuel) left_ in
        ret (Op (Dot_Expr this l (atom_ id)))) env)
  /\ (forall d a,
        right_ = List_Phrase d -> args_ d = [a] ->
        kind (comma_ a) = k_missing ->
        analyze (S fuel) this env
        = (let* index := analyze_op (analyze fuel) (expr_ a) in
           let* l := analyze_op (analyze fuel) left_ in
           ret (Op (At_Expr this l index))) env)
  /\ (forall d,
        right_ = List_Phrase d ->
        (forall a, args_ d = [a] -> kind (comma_ a) <> k_missing) ->
        analyze (S fuel) this env
        = Throw (Exception (At_Phrase this) "not an expression"))
  /\ ((forall id, right_ <> Identifier id) ->
      (forall d, right_ <> List_Phrase d) ->
      analyze (S fuel) this env
      = Throw (Exception (At_Phrase right_) "invalid expression after '.'")).
Proof.
  intros Hop this. unfold this. simpl. unfold Binary_Phrase_analyze.
  rewrite Hop. repeat split.
  - by intros id ->.
  - intros d a -> -> Ha. by rewrite decide_True.
  - intros d -> Hd. destruct (args_ d) as [|a [|]]; try done.
    rewrite decide_False; [done|]. by apply Hd.
  - intros Hid Hlist. destruct right_; try done.
    + by destruct (Hid id).
    + by destruct (Hlist brackets).
Qed.

(** Claim C6 as stated fails: [pi.[1,2]], whose right side is a list of
    two elements, raises "not an expression", not
    "invalid expression after '.'". *)
Lemma Binary_Phrase_dot_counterexample :
  parse_program 10 (mkScanner Example_dot.script Example_dot.tokens)
  = Ok (Program_Phrase Example_dot.phrase (mkToken 8 8 8 k_end),
        mkScanner Example_dot.script [])
  /\ analyze 3 Example_dot.phrase top_env
     = Throw (Exception (At_Phrase Example_dot.phrase) "not an expression")
  /\ forall cx,
       analyze 3 Example_dot.phrase top_env
       <> Throw (Exception cx "invalid expression after '.'").
Proof.
  split; [by vm_compute|].
  assert (analyze 3 Example_dot.phrase top_env
          = Throw (Exception (At_Phrase Example_dot.phrase)
                             "not an expression")) as H by (by vm_compute).
  split; [done|]. intros cx. rewrite H. intros [= _ Hmsg].
Qed.

(** ** The parser: comma and semicolon lists *)

Lemma returns_ret {A} (P : A -> Prop) a : P a -> returns P (ret a).
Proof. intros Ha sc b sc' H. apply ret_Ok in H as [<- _]. done. Qed.

Lemma returns_bind {A B} (Q : A -> Prop) (P : B -> Prop)
    (c : Parser A) (k : A -> Parser B) :
  returns Q c -> (forall a, Q a -> returns P (k a)) -> returns P (bind c k).
Proof.
  intros Hc Hk sc b sc' H. apply bind_Ok in H as (a & sc1 & H1 & H2).
  eapply Hk; eauto.
Qed.

Lemma returns_any {A} (c : Parser A) : returns (fun _ => True) c.
Proof. done. Qed.

Lemma returns_bind_any {A B} (P : B -> Prop) (c : Parser A)
    (k : A -> Parser B) :
  (forall a, returns P (k a)) -> returns P (bind c k).
Proof. intros Hk. eapply returns_bind; [apply returns_any|auto]. Qed.

Lemma returns_raise {A} (P : A -> Prop) cx msg : returns P (raise cx msg).
Proof. intros sc a sc' H. discriminate. Qed.

Lemma returns_out_of_fuel {A} (P : A -> Prop) : returns P out_of_fuel.
Proof. intros sc a sc' H. discriminate. Qed.

Lemma returns_undefined {A} (P : A -> Prop) : returns P undefined.
Proof. intros sc a sc' H. discriminate. Qed.

Lemma is_item_make_Delimited d tok body tok2 :
  is_item (make_Delimited d tok body tok2).
Proof. by destruct d. Qed.

Section Parse_shape.

Variable parse_commas_rec : Parser Phrase.
Variable parse_item_rec : Parser Phrase.
Variable parse_unary_rec : Parser Phrase.
Variable parse_primary_rec : option string -> Parser (option Phrase).
Variable fuel : nat.

Hypothesis item_rec : returns is_item parse_item_rec.
Hypothesis unary_rec : returns is_item parse_unary_rec.

Local Abbreviation is_item_opt := (fun p : option Phrase =>
                           match p with Some p => is_item p | None => True end).

Local Abbreviation parse_primary' :=
  (parse_primary parse_commas_rec parse_item_rec parse_primary_rec).
Local Abbreviation parse_primary_what' :=
  (parse_primary_what parse_commas_rec parse_item_rec parse_primary_rec).
Local Abbreviation parse_postfix :=
  (parse_postfix parse_commas_rec parse_item_rec parse_unary_rec
     parse_primary_rec fuel).
Local Abbreviation parse_unary :=
  (parse_unary parse_commas_rec parse_item_rec parse_unary_rec
     parse_primary_rec fuel).
Local Abbreviation parse_product :=
  (parse_product parse_commas_rec parse_item_rec parse_unary_rec
     parse_primary_rec fuel).
Local Abbreviation parse_sum :=
  (parse_sum parse_commas_rec parse_item_rec parse_unary_rec
     parse_primary_rec fuel).
Local Abbreviation parse_range :=
  (parse_range parse_commas_rec parse_item_rec parse_unary_rec
     parse_primary_rec fuel).
Local Abbreviation parse_relation :=
  (parse_relation parse_commas_rec parse_item_rec parse_unary_rec
     parse_primary_rec fuel).
Local Abbreviation parse_conjunction :=
  (parse_conjunction parse_commas_rec parse_item_rec parse_unary_rec
     parse_primary_rec fuel).
Local Abbreviation parse_disjunction :=
  (parse_disjunction parse_commas_rec parse_item_rec parse_unary_rec
     parse_primary_rec fuel).
Local Abbreviation parse_item :=
  (parse_item parse_commas_rec parse_item_rec parse_unary_rec
     parse_primary_rec fuel).
Local Abbreviation parse_semicolons :=
  (parse_semicolons parse_commas_rec parse_item_rec parse_unary_rec
     parse_primary_rec fuel).
Local Abbreviation parse_commas :=
  (parse_commas parse_commas_rec parse_item_rec parse_unary_rec
     parse_primary_rec fuel).

Ltac returns_step :=
  first
    [ apply returns_raise
    | apply returns_out_of_fuel
    | apply returns_undefined
    | apply returns_ret; first [done|apply is_item_make_Delimited]
    | apply returns_bind_any; intros ? ].

Lemma parse_delimited_is_item d tok :
  returns is_item (parse_delimited parse_commas_rec d tok).
Proof.
  unfold parse_delimited.
  repeat first [returns_step | case_match | case_decide].
Qed.

Lemma parse_primary_is_item what : returns is_item_opt (parse_primary' what).
Proof.
  unfold parse_primary.
  apply returns_bind_any; intros tok. apply returns_bind_any; intros script.
  destruct (kind tok); destruct what;
    try (eapply returns_bind; [apply parse_delimited_is_item|];
         intros p Hp; by apply returns_ret);
    repeat first [returns_step | case_match | case_decide].
Qed.

Lemma parse_primary_what_is_item what :
  returns is_item (parse_primary_what' what).
Proof.
  unfold parse_primary_what.
  eapply returns_bind; [apply parse_primary_is_item|].
  intros [p|] Hp; [by apply returns_ret|apply returns_undefined].
Qed.

Lemma parse_postfix_loop_is_item n postfix :
  is_item postfix ->
  returns is_item
    (parse_postfix_loop parse_commas_rec parse_item_rec parse_unary_rec
       parse_primary_rec n postfix).
Proof.
  revert postfix. induction n as [|n IH]; intros postfix Hp; simpl;
    [apply returns_out_of_fuel|].
  apply returns_bind_any; intros tok.
  destruct (kind tok);
    try (apply returns_bind_any; intros _;
         apply returns_bind_any; intros [p|];
         [by apply IH|by apply returns_ret]).
  - apply returns_bind_any; intros p. by apply IH.
  - apply returns_bind_any; intros p. by apply IH.
  - repeat returns_step.
Qed.

Lemma parse_postfix_is_item : returns is_item parse_postfix.
Proof.
  eapply returns_bind; [apply parse_primary_what_is_item|].
  intros p Hp. by apply parse_postfix_loop_is_item.
Qed.

Lemma parse_unary_is_item : returns is_item parse_unary.
Proof.
  apply returns_bind_any; intros tok.
  destruct (kind tok);
    try (apply returns_bind_any; intros _; apply parse_postfix_is_item);
    repeat returns_step.
Qed.

Lemma parse_product_loop_is_item n left_ :
  is_item left_ ->
  returns is_item
    (parse_product_loop parse_commas_rec parse_item_rec parse_unary_rec
       parse_primary_rec fuel n left_).
Proof.
  revert left_. induction n as [|n IH]; intros left_ Hl; simpl;
    [apply returns_out_of_fuel|].
  apply returns_bind_any; intros tok.
  destruct (kind tok);
    try (apply returns_bind_any; intros _; by apply returns_ret).
  all: apply returns_bind_any; intros r; by apply IH.
Qed.

Lemma parse_product_is_item : returns is_item parse_product.
Proof.
  eapply returns_bind; [apply parse_unary_is_item|].
  intros p Hp. by apply parse_product_loop_is_item.
Qed.

Lemma parse_sum_loop_is_item n left_ :
  is_item left_ ->
  returns is_item
    (parse_sum_loop parse_commas_rec parse_item_rec parse_unary_rec
       parse_primary_rec fuel n left_).
Proof.
  revert left_. induction n as [|n IH]; intros left_ Hl; simpl;
    [apply returns_out_of_fuel|].
  apply returns_bind_any; intros tok.
  destruct (kind tok);
    try (apply returns_bind_any; intros _; by apply returns_ret).
  all: apply returns_bind_any; intros r; by apply IH.
Qed.

Lemma parse_sum_is_item : returns is_item parse_sum.
Proof.
  eapply returns_bind; [apply parse_product_is_item|].
  intros p Hp. by apply parse_sum_loop_is_item.
Qed.

Lemma parse_range_is_item : returns is_item parse_range.
Proof.
  eapply returns_bind; [apply parse_sum_is_item|]. intros l Hl.
  apply returns_bind_any; intros tok.
  destruct (kind tok);
    repeat first [returns_step | case_decide].
Qed.

Lemma parse_relation_is_item : returns is_item parse_relation.
Proof.
  eapply returns_bind; [apply parse_range_is_item|]. intros l Hl.
  apply returns_bind_any; intros tok.
  destruct (kind tok); repeat returns_step.
Qed.

Lemma parse_conjunction_loop_is_item n left_ :
  is_item left_ ->
  returns is_item
    (parse_conjunction_loop parse_commas_rec parse_item_rec parse_unary_rec
       parse_primary_rec fuel n left_).
Proof.
  revert left_. induction n as [|n IH]; intros left_ Hl; simpl;
    [apply returns_out_of_fuel|].
  apply returns_bind_any; intros tok.
  destruct (kind tok);
    try (apply returns_bind_any; intros _; by apply returns_ret).
  all: apply returns_bind_any; intros r; by apply IH.
Qed.

Lemma parse_conjunction_is_item : returns is_item parse_conjunction.
Proof.
  eapply returns_bind; [apply parse_relation_is_item|].
  intros p Hp. by apply parse_conjunction_loop_is_item.
Qed.

Lemma parse_disjunction_loop_is_item n left_ :
  is_item left_ ->
  returns is_item
    (parse_disjunction_loop parse_commas_rec parse_item_rec parse_unary_rec
       parse_primary_rec fuel n left_).
Proof.
  revert left_. induction n as [|n IH]; intros left_ Hl; simpl;
    [apply returns_out_of_fuel|].
  apply returns_bind_any; intros tok.
  destruct (kind tok);
    try (apply returns_bind_any; intros _; by apply returns_ret).
  all: apply returns_bind_any; intros r; by apply IH.
Qed.

Lemma parse_disjunction_is_item : returns is_item parse_disjunction.
Proof.
  eapply returns_bind; [apply parse_conjunction_is_item|].
  intros p Hp. by apply parse_disjunction_loop_is_item.
Qed.

Lemma parse_item_is_item : returns is_item parse_item.
Proof.
  apply returns_bind_any; intros tok.
  destruct (kind tok).
  all: try (apply returns_bind_any; intros _;
            eapply returns_bind; [apply parse_disjunction_is_item|];
            intros l Hl; apply returns_bind_any; intros tok2;
            destruct (kind tok2); repeat returns_step; fail).
  all: repeat first [returns_step | case_decide | case_match].
Qed.

Lemma not_unseparated_singleton_snoc (mk : list (Arg Phrase) -> Phrase)
    args x :
  (mk = Comma_Phrase \/ mk = Semicolon_Phrase) ->
  args <> [] \/ kind (comma_ x) <> k_missing ->
  ~ unseparated_singleton (mk (args ++ [x])).
Proof.
  intros Hmk Hx Hs.
  assert (exists a, args ++ [x] = [a] /\ kind (comma_ a) = k_missing)
    as (a & Ha & Hk).
  { destruct Hmk as [-> | ->]; simpl in Hs;
      destruct (args ++ [x]) as [|a [|]]; try done; eauto. }
  destruct args as [|y [|]]; simplify_eq; simpl in *; naive_solver.
Qed.

(** [parse_semicolons] returns an item, or a semicolon phrase that is
    not an unseparated singleton. *)
Lemma parse_semicolons_loop_shape n args :
  returns (fun ph => ~ unseparated_singleton ph /\
                     (is_item ph \/ exists l, ph = Semicolon_Phrase l))
    (parse_semicolons_loop parse_commas_rec parse_item_rec parse_unary_rec
       parse_primary_rec fuel n args).
Proof.
  revert args. induction n as [|n IH]; intros args; simpl;
    [apply returns_out_of_fuel|].
  eapply returns_bind; [apply parse_item_is_item|]. intros item Hitem.
  apply returns_bind_any; intros tok.
  case_decide as Hk.
  - apply returns_bind_any; intros tok2. apply returns_bind_any; intros _.
    case_match; [|apply IH].
    apply returns_ret. split; [|eauto].
    apply (not_unseparated_singleton_snoc Semicolon_Phrase); [by right|].
    right. simpl. by rewrite Hk.
  - case_match; [|apply returns_raise].
    apply returns_bind_any; intros _.
    destruct args as [|y args'].
    + apply returns_ret. split; [|by left].
      destruct item; simpl in *; tauto.
    + apply returns_ret. split; [|eauto].
      apply (not_unseparated_singleton_snoc Semicolon_Phrase); [by right|].
      by left.
Qed.

Lemma parse_commas_loop_shape n args :
  returns (fun ph => ~ unseparated_singleton ph)
    (parse_commas_loop parse_commas_rec parse_item_rec parse_unary_rec
       parse_primary_rec fuel n args).
Proof.
  revert args. induction n as [|n IH]; intros args; simpl;
    [apply returns_out_of_fuel|].
  eapply returns_bind; [apply parse_semicolons_loop_shape|].
  intros semis [Hsemis _].
  apply returns_bind_any; intros tok.
  case_decide as Hk.
  - apply returns_bind_any; intros tok2. apply returns_bind_any; intros _.
    case_match; [|apply IH].
    apply returns_ret.
    apply (not_unseparated_singleton_snoc Comma_Phrase); [by left|].
    right. simpl. by rewrite Hk.
  - case_match; [|apply returns_raise].
    apply returns_bind_any; intros _.
    destruct args as [|y args'].
    + by apply returns_ret.
    + apply returns_ret.
      apply (not_unseparated_singleton_snoc Comma_Phrase); [by left|].
      by left.
Qed.

Lemma parse_commas_shape :
  returns (fun ph => ~ unseparated_singleton ph) parse_commas.
Proof.
  apply returns_bind_any; intros tok. apply returns_bind_any; intros _.
  case_match; [|apply parse_commas_loop_shape].
  apply returns_bind_any; intros script. apply returns_ret. simpl. tauto.
Qed.

End Parse_shape.

Lemma parse_fuel_is_item fuel :
  returns is_item (parse_item_fuel fuel)
  /\ returns is_item (parse_unary_fuel fuel).
Proof.
  induction fuel as [|fuel [IHi IHu]]; [by split|].
  split; intros sc ph sc' H; simpl in H.
  - eapply parse_item_is_item; eauto.
  - eapply parse_unary_is_item; eauto.
Qed.

Lemma get_push_token sc tok0 rest :
  tokens sc = tok0 :: rest ->
  (let* tok := get_token in let* _ := push_token tok in ret tok) sc
  = Ok (tok0, sc).
Proof.
  destruct sc as [script toks]. simpl. intros ->. done.
Qed.

(** Claim C9.  When the list parsed by [parse_commas] consists of one
    semicolon list followed directly by a token that ends the list (no
    comma), [parse_commas] returns that phrase itself and leaves the end
    token in the stream; likewise [parse_semicolons] returns the single
    item that is followed directly by an end token.  No phrase returned
    by the parser for a comma list is a comma or semicolon phrase that
    holds exactly one element with a missing separator. *)
Theorem parse_single_element_unwrapped :
  (forall rc ri ru rp n sc tok0 rest semis sc1 tok sc2,
     tokens sc = tok0 :: rest ->
     is_list_end_token (kind tok0) = false ->
     parse_semicolons rc ri ru rp (S n) sc = Ok (semis, sc1) ->
     get_token sc1 = Ok (tok, sc2) ->
     is_list_end_token (kind tok) = true ->
     parse_commas rc ri ru rp (S n) sc
     = Ok (semis, mkScanner (scanner_script sc2) (tok :: tokens sc2)))
  /\ (forall rc ri ru rp n sc item sc1 tok sc2,
        parse_item rc ri ru rp (S n) sc = Ok (item, sc1) ->
        get_token sc1 = Ok (tok, sc2) ->
        is_semicolon_end_token (kind tok) = true ->
        parse_semicolons rc ri ru rp (S n) sc
        = Ok (item, mkScanner (scanner_script sc2) (tok :: tokens sc2)))
  /\ (forall fuel sc ph sc',
        parse_commas_fuel fuel sc = Ok (ph, sc') ->
        ~ unseparated_singleton ph).
Proof.
  split; [|split].
  - intros rc ri ru rp n sc tok0 rest semis sc1 tok sc2 Hsc Hk0 Hsemis Htok Hk.
    unfold parse_commas.
    pose proof (get_push_token sc tok0 rest Hsc) as Hpeek.
    unfold bind in *. destruct (get_token sc) as [[t s1]| | |]; try done.
    simpl in *. injection Hpeek as -> ->. rewrite Hk0. simpl.
    unfold bind. rewrite Hsemis, Htok.
    rewrite decide_False; [|by destruct (kind tok)].
    by rewrite Hk.
  - intros rc ri ru rp n sc item sc1 tok sc2 Hitem Htok Hk.
    unfold parse_semicolons. simpl. unfold bind. rewrite Hitem, Htok.
    rewrite decide_False; [|by destruct (kind tok)].
    by rewrite Hk.
  - intros [|fuel] sc ph sc' H; [done|]. simpl in H.
    destruct (parse_fuel_is_item fuel) as [Hi Hu].
    eapply parse_commas_shape; eauto.
Qed.

(** ** Collecting the definitions of a module or of a [let] *)




Lemma definitions_app pre post :
  definitions (pre ++ post) = definitions pre ++ definitions post.
Proof.
  induction pre as [|st pre IH]; simpl; [done|].
  destruct (analyze_def st) as [[d|]| | |]; simpl; by rewrite ?IH.
Qed.


(** Phase 1 of the [let] analysis succeeds only when every element is a
    definition and the names are distinct; the bindings get consecutive
    slots in textual order. *)
Lemma let_bindings_loop_spec args b0 s0 b :
  let_bindings_loop args b0 s0 = Ok b ->
  exists defs,
    Forall2 (fun a d => analyze_def (expr_ a) = Ok (Some d)) args defs
    /\ NoDup (def_atom <$> defs)
    /\ (forall d, d ∈ defs -> b0 !! def_atom d = None)
    /\ (forall a bd,
          b !! a = Some bd <->
          b0 !! a = Some bd
          \/ exists k d, defs !! k = Some d /\ def_atom d = a
                         /\ bd = mkBinding (s0 + k) (definiens_ d))
    /\ size b = size b0 + length defs.
Proof.
  revert b0 s0. induction args as [|x args IH]; intros b0 s0 H; simpl in H.
  - simplify_eq. exists []. split; [constructor|]. split; [constructor|].
    split; [by intros ? ?%elem_of_nil|]. split; [|simpl; lia].
    intros a bd. split; [by left|]. by intros [?|(k & d & ? & _)].
  - apply Result_bind_Ok in H as ([d|] & Hd & H); [|done].
    destruct (b0 !! atom_ (name_ d)) eqn:Hfresh; [done|].
    destruct (IH _ _ H) as (defs & Hall & Hnd & Hfr & Hb & Hsize).
    exists (d :: defs). split; [by constructor|].
    split; [|split; [|split]].
    + simpl. constructor; [|done].
      intros (d' & Hd' & Hin)%list_elem_of_fmap.
      specialize (Hfr d' Hin). unfold def_atom in *.
      by rewrite <- Hd', lookup_insert_eq in Hfr.
    + intros d' [->|Hin]%elem_of_cons; [done|].
      specialize (Hfr d' Hin). unfold def_atom in *.
      rewrite lookup_insert in Hfr. by case_decide.
    + intros a bd. rewrite Hb, lookup_insert. split.
      * intros [Hins|(k & d' & Hk & Ha & ->)].
        -- case_decide as Ha.
           ++ injection Hins as <-. right. exists 0, d. simpl.
              split; [done|]. split; [done|]. f_equal. lia.
           ++ by left.
        -- right. exists (S k), d'. simpl. split; [done|].
           split; [done|]. f_equal. lia.
      * intros [Hf0|([|k] & d' & Hk & Ha & ->)]; simpl in *.
        -- left. case_decide as Ha; [|done]. unfold def_atom in *.
           congruence.
        -- injection Hk as <-. left. rewrite decide_True by done.
           do 2 f_equal. lia.
        -- right. exists k, d'. split; [done|]. split; [done|].
           f_equal. lia.
    + rewrite Hsize, map_size_insert_None by done. simpl. lia.
Qed.



(** ** Duplicate definitions *)




(** ** Module bindings *)

Lemma analyze_Lambda_Phrase fuel ph env m env' :
  isa_Lambda_Phrase ph = true ->
  analyze fuel ph env = Ok (m, env') ->
  exists body nonlocals nargs nslots,
    m = Op (Lambda_Expr ph body nonlocals nargs nslots).
Proof.
  destruct ph; try done. intros _ H. destruct fuel as [|fuel]; [done|].
  simpl in H. unfold Lambda_Phrase_analyze in H. inv_M H.
  destruct a0 as [expr env2]. inv_M H. eauto.
Qed.



(** ** [let] *)

Lemma let_values_loop_spec fuel items first_slot values env values' env' :
  let_values_loop (analyze fuel) items first_slot values env
  = Ok (values', env') ->
  NoDup ((fun b : Atom * Binding => slot_ b.2 - first_slot) <$> items) ->
  (forall b, b ∈ items -> slot_ b.2 - first_slot < length values) ->
  evolves env env'
  /\ length values' = length values
  /\ (forall b, b ∈ items ->
        exists expr e1 e2,
          evolves env e1
          /\ analyze_op (analyze fuel) (phrase_ b.2) e1 = Ok (expr, e2)
          /\ values' !! (slot_ b.2 - first_slot) = Some (Thunk expr))
  /\ (forall i,
        i ∉ ((fun b : Atom * Binding => slot_ b.2 - first_slot) <$> items) ->
        values' !! i = values !! i).
Proof.
  revert values env. induction items as [|b items IH]; intros values env H Hnd Hr;
    simpl in H.
  - inv_M H. split; [apply evolves_refl|]. split; [done|].
    split; [by intros ? ?%elem_of_nil|done].
  - inv_M H. rename a into expr, env0 into env1.
    rewrite fmap_cons in Hnd. apply NoDup_cons in Hnd as [Hnin Hnd].
    destruct (IH _ _ H Hnd) as (Hev & Hlen & Hitems & Hother).
    { intros b' Hb'. rewrite length_insert. apply Hr. set_solver. }
    pose proof (analyze_op_evolves _ _ _ _ _ H0) as Hev1.
    rewrite length_insert in Hlen.
    split; [eauto using evolves_trans|]. split; [done|]. split.
    + intros b' [->|Hb']%elem_of_cons.
      * exists expr, env, env1. split; [apply evolves_refl|]. split; [done|].
        rewrite (Hother _ Hnin). apply list_lookup_insert_eq.
        apply Hr. set_solver.
      * destruct (Hitems b' Hb') as (expr' & e1 & e2 & He1 & Hrun & Hv).
        exists expr', e1, e2. eauto using evolves_trans.
    + intros i Hi. rewrite fmap_cons in Hi.
      apply not_elem_of_cons in Hi as [Hne Hi].
      rewrite (Hother i Hi). by apply list_lookup_insert_ne.
Qed.

Lemma evolves_Let_Environ e rest env' names :
  evolves (e :: rest) env' -> self e = Let_Environ names ->
  exists e' rest', env' = e' :: rest' /\ self e' = Let_Environ names
                   /\ frame_nslots e' = frame_nslots e
                   /\ frame_maxslots e <= frame_maxslots e'
                   /\ evolves rest rest'.
Proof.
  intros H He. inversion H as [|? e' ? rest' Hs Hrest]; subst.
  exists e', rest'. destruct Hs as (Hn & Hm & Hc). rewrite He in Hc.
  destruct (self e'); by simplify_eq.
Qed.

Lemma Let_Phrase_analyze_spec fuel tok largs body env m env' :
  env <> [] ->
  analyze (S fuel) (Let_Phrase tok largs body) env = Ok (m, env') ->
  Let_analysis fuel tok largs body env m env'.
Proof.
  intros Henv H. unfold Let_analysis.
  set (this := Let_Phrase tok largs body).
  set (first_slot := env_nslots env).
  simpl in H. unfold Let_Phrase_analyze in H. inv_M H.
  destruct a0 as [[values body'] env2]. simpl in *. simplify_eq.
  rename a into bindings, env into envp, env0 into env.
  match goal with
  | H : let_bindings_loop _ _ _ = Ok _ |- _ =>
      destruct (let_bindings_loop_spec _ _ _ _ H)
        as (defs & Hall & Hnd & _ & Hlook & Hsize)
  end.
  rewrite map_size_empty in Hsize. simpl in Hsize.
  assert (forall a bd,
            bindings !! a = Some bd <->
            exists k d, defs !! k = Some d /\ def_atom d = a
                        /\ bd = mkBinding (first_slot + k) (definiens_ d))
    as Hlook'.
  { intros a bd. rewrite Hlook, lookup_empty. naive_solver. }
  match goal with
  | H : let_values_loop _ _ _ _ _ = Ok _ |- _ =>
      apply let_values_loop_spec in H
        as (Hev1 & Hlen & Hitems & _)
  end.
  2:{ apply NoDup_fmap_2_strong; [|apply NoDup_map_to_list].
      intros [a bd] [a' bd'] Hx Hy Hf. simpl in Hf.
      apply elem_of_map_to_list, Hlook' in Hx as (k & d & Hk & <- & ->).
      apply elem_of_map_to_list, Hlook' in Hy as (k' & d' & Hk' & <- & ->).
      simpl in Hf. assert (k = k') as <- by (fold first_slot in Hf; lia).
      by simplify_eq. }
  2:{ intros [a bd] Hx.
      apply elem_of_map_to_list, Hlook' in Hx as (k & d & Hk & <- & ->).
      simpl. rewrite length_replicate, Hsize.
      apply lookup_lt_Some in Hk. fold first_slot. lia. }
  rewrite length_replicate, Hsize in Hlen.
  destruct (evolves_Let_Environ _ _ _ bindings Hev1 eq_refl)
    as (e1 & rest1 & -> & He1 & Hn1 & Hm1 & Hrest1).
  match goal with
  | H : analyze_op _ body _ = Ok _ |- _ =>
      pose proof (analyze_op_evolves _ _ _ _ _ H) as Hev2;
      pose proof H as Hbody
  end.
  destruct (evolves_Let_Environ _ _ _ bindings Hev2 He1)
    as (e2 & rest2 & [= <- <-] & He2 & Hn2 & Hm2 & Hrest2).
  exists defs, bindings, values, body', env2, envp.
  split; [done|]. split; [done|]. split; [done|]. split; [done|].
  split; [|split; [|split; [|split; [|split; [|split]]]]].
  - intros k d Hk.
    destruct (Hitems (def_atom d, mkBinding (first_slot + k) (definiens_ d)))
      as (expr & e & e' & Hev & Hrun & Hv).
    { apply elem_of_map_to_list, Hlook'. eauto. }
    simpl in *.
    destruct (evolves_Let_Environ _ _ _ bindings Hev eq_refl)
      as (e3 & rest3 & -> & He3 & _).
    exists expr, e3, rest3, e'. split; [done|]. split; [done|].
    split; [done|].
    by replace (first_slot + k - env_nslots env) with k in Hv
      by (unfold first_slot; lia).
  - exists e1, rest1. done.
  - done.
  - rewrite Hn2, Hn1. simpl. fold first_slot. lia.
  - done.
  - pose proof (evolves_trans _ _ _ Hrest1 Hrest2) as Hp.
    destruct Hp; [done|]. done.
  - pose proof (evolves_trans _ _ _ Hrest1 Hrest2) as Hp.
    unfold first_slot.
    destruct Hp as [|s s' p p' Hs _]; [done|]. simpl.
    by destruct Hs as (-> & _).
Qed.

(** Claim C3.  A successful analysis of [let (def1, ..., defn) body]
    allocates n consecutive slots from the outer [frame_nslots] on, in
    textual order, and gives a [Let_Expr] with that first slot, one
    [Thunk] per binding in slot order and the body analyzed in the
    [Let_Environ]; afterwards the outer [frame_maxslots] is that of the
    [Let_Environ] ([Let_analysis]).  The script [let(a=1, b=a+1) b] at
    top level gives, whatever the fuel from 4 on, [Let_Expr 0
    [Thunk (Constant 1); Thunk (Infix_Expr + (Let_Ref 0) (Constant 1))]
    (Let_Ref 1)]. *)
Theorem Let_Phrase_analysis :
  (forall fuel tok largs body env m env',
     env <> [] ->
     analyze (S fuel) (Let_Phrase tok largs body) env = Ok (m, env') ->
     Let_analysis fuel tok largs body env m env')
  /\ (forall fuel,
        10 <= fuel ->
        parse_program fuel (mkScanner Example_let.script Example_let.tokens)
        = Ok (Program_Phrase Example_let.phrase (mkToken 17 17 17 k_end),
              mkScanner Example_let.script []))
  /\ (forall fuel,
        4 <= fuel ->
        analyze fuel Example_let.phrase top_env
        = Ok (Op Example_let.meaning, set_maxslots 2 top_env)).
Proof.
  split; [|split].
  - intros. by apply Let_Phrase_analyze_spec.
  - intros fuel Hf.
    rewrite (parse_program_fuel_le 10 fuel _ Hf); by vm_compute.
  - intros fuel Hf.
    rewrite (analyze_fuel_le 4 fuel _ _ Hf); by vm_compute.
Qed.

(** ** The slot counters *)



Lemma evolves_env_nslots env env' :
  evolves env env' -> env_nslots env' = env_nslots env.
Proof. intros [|s s' p p' (Hn & _) _]; simpl; done. Qed.

Lemma evolves_env_maxslots env env' :
  evolves env env' -> env_maxslots env <= env_maxslots env'.
Proof. intros [|s s' p p' (_ & Hm & _) _]; simpl; done. Qed.




(** ** Lambda captures *)





(** ** The theorems at concrete programs *)

Lemma analyze_def_Definition_Phrase_witness :
  let equate := mkToken 2 2 3 k_equate in
  let one := Example_let.one1 in
  let f := Example_xx.x1 in
  let args := Paren_Phrase Example_xx.parens in
  analyze_def (Definition_Phrase (Identifier f) equate one)
  = Ok (Some {| name_ := f; definiens_ := one |})
  /\ analyze_def
       (Definition_Phrase (Call_Phrase (Identifier f) args Token_default)
          equate one)
     = Ok (Some {| name_ := f;
                   definiens_ := Lambda_Phrase args equate one false |})
  /\ analyze_def
       (Definition_Phrase (Call_Phrase one args Token_default) equate one)
     = Throw (Exception (At_Phrase one) "not an identifier")
  /\ analyze_def (Definition_Phrase one equate one)
     = Throw (Exception (At_Phrase one) "invalid definiendum").
Proof.
  intros equate one f args. split; [|split; [|split]].
  - apply (proj1 (analyze_def_Definition_Phrase _ equate one) f).
    reflexivity.
  - apply (proj1 (proj2 (analyze_def_Definition_Phrase _ equate one))
             (Identifier f) args Token_default eq_refl).
    reflexivity.
  - apply (proj1 (proj2 (analyze_def_Definition_Phrase _ equate one))
             one args Token_default eq_refl).
    intros id H. discriminate H.
  - apply (proj2 (proj2 (analyze_def_Definition_Phrase one equate one))).
    + intros id H. discriminate H.
    + intros g a tok H. discriminate H.
Defined.

Lemma lookup_first_non_absent_witness :
  let id := Example_capture.pi1 in
  let a := Example_capture.a2 in
  let unbound := Example_capture.x in
  let e := Let_Environ_new top_env Example_capture.bindings in
  let builtin := Builtin_Environ_new builtin_namespace in
  all_absent [e] [builtin] id
  /\ lookup ([e] ++ builtin :: []) id
     = Ok (Op (Constant (Identifier id) (Num pi)), [e] ++ builtin :: [])
  /\ all_absent [e; builtin] [] unbound
  /\ lookup [e; builtin] unbound
     = Throw (Exception (At_Phrase (Identifier unbound)) "x: not defined")
  /\ lookup [e; builtin] a
     = Ok (Op (Let_Ref (Identifier a) 0), [e; builtin]).
Proof.
  intros id a unbound e builtin.
  assert (all_absent [e] [builtin] id) as H1 by (by vm_compute).
  assert (all_absent [e; builtin] [] unbound) as H2 by (by vm_compute).
  split; [exact H1|]. split.
  - apply (proj1 lookup_first_non_absent [e] builtin [] id _ builtin [] H1).
    reflexivity.
  - split; [exact H2|]. split.
    + apply (proj1 (proj2 (proj2 lookup_first_non_absent)) _ unbound H2).
    + apply (proj1 lookup_first_non_absent [] e [builtin] a _ e [builtin] I).
      reflexivity.
Defined.

Lemma lambda_params_spec_witness :
  let left_ := Paren_Phrase Example_xx.parens in
  let ids := [Example_xx.x1; Example_xx.x2] in
  map expr_ (args_ Example_xx.parens) = map Identifier ids
  /\ (exists params,
        lambda_params left_ = Ok params
        /\ (forall a i,
              params !! a = Some i <->
              (atom_ <$> ids) !! i = Some a
              /\ a ∉ drop (S i) (atom_ <$> ids))
        /\ size params = size (list_to_set (atom_ <$> ids) : gset Atom))
  /\ not_parameters Example_let.one1
  /\ (exists ph, lambda_params Example_let.one1
                 = Throw (Exception (At_Phrase ph) "not a parameter")).
Proof.
  intros left_ ids.
  assert (map expr_ (args_ Example_xx.parens) = map Identifier ids) as H
    by reflexivity.
  assert (not_parameters Example_let.one1) as Hnot.
  { left. split; [reflexivity|]. intros d Hd. discriminate Hd. }
  split; [exact H|]. split.
  - exact (proj1 (proj2 lambda_params_spec) Example_xx.parens ids H).
  - split; [exact Hnot|].
    exact (proj1 (proj1 lambda_params_spec Example_let.one1) Hnot).
Defined.

Lemma Binary_Phrase_dot_witness :
  let dot := mkToken 2 2 3 k_dot in
  let left_ := Identifier Example_capture.pi1 in
  let b := Identifier Example_capture.a2 in
  kind dot = k_dot
  /\ analyze 2 (Binary_Phrase left_ dot b) top_env
     = Ok (Op (Dot_Expr (Binary_Phrase left_ dot b)
                 (Constant left_ (Num pi)) "a"),
           top_env)
  /\ analyze 2 (Binary_Phrase left_ dot (List_Phrase Example_dot.brackets))
       top_env
     = Throw (Exception
                (At_Phrase
                   (Binary_Phrase left_ dot (List_Phrase Example_dot.brackets)))
                "not an expression")
  /\ analyze 2 (Binary_Phrase left_ dot Example_let.one1) top_env
     = Throw (Exception (At_Phrase Example_let.one1)
                        "invalid expression after '.'").
Proof.
  intros dot left_ b. split; [reflexivity|]. split; [|split].
  - rewrite (proj1 (Binary_Phrase_dot 1 left_ dot b top_env eq_refl)
               Example_capture.a2 eq_refl).
    reflexivity.
  - apply (proj1 (proj2 (proj2
             (Binary_Phrase_dot 1 left_ dot _ top_env eq_refl)))
             Example_dot.brackets eq_refl).
    intros a H. discriminate H.
  - apply (proj2 (proj2 (proj2
             (Binary_Phrase_dot 1 left_ dot _ top_env eq_refl)))).
    + intros id H. discriminate H.
    + intros d H. discriminate H.
Defined.

Lemma parse_single_element_unwrapped_witness :
  let script := mkScript "" "x" in
  let x := mkToken 0 0 1 k_ident in
  let e := mkToken 1 1 1 k_end in
  let sc := mkScanner script [x; e] in
  let rc := parse_commas_fuel 3 in
  let ri := parse_item_fuel 3 in
  let ru := parse_unary_fuel 3 in
  let rp := parse_primary_fuel 3 in
  is_list_end_token (kind x) = false
  /\ is_list_end_token (kind e) = true
  /\ is_semicolon_end_token (kind e) = true
  /\ parse_item rc ri ru rp 1 sc
     = Ok (make_Identifier script x, mkScanner script [e])
  /\ parse_semicolons rc ri ru rp 1 sc
     = Ok (make_Identifier script x, mkScanner script [e])
  /\ parse_commas rc ri ru rp 1 sc
     = Ok (make_Identifier script x, mkScanner script [e])
  /\ ~ unseparated_singleton (make_Identifier script x).
Proof.
  intros script x e sc rc ri ru rp.
  assert (parse_item rc ri ru rp 1 sc
          = Ok (make_Identifier script x, mkScanner script [e])) as Hitem
    by (vm_compute; reflexivity).
  assert (get_token (mkScanner script [e]) = Ok (e, mkScanner script []))
    as Htok by reflexivity.
  pose proof (proj1 (proj2 parse_single_element_unwrapped)
                rc ri ru rp 0 sc _ _ e _ Hitem Htok eq_refl) as Hsemis.
  pose proof (proj1 parse_single_element_unwrapped
                rc ri ru rp 0 sc x [e] _ _ e _ eq_refl eq_refl Hsemis Htok
                eq_refl) as Hcommas.
  split; [reflexivity|]. split; [reflexivity|]. split; [reflexivity|].
  split; [exact Hitem|]. split; [exact Hsemis|]. split; [exact Hcommas|].
  apply (proj2 (proj2 parse_single_element_unwrapped) 4 sc _
           (mkScanner script [e])).
  vm_compute. reflexivity.
Defined.



Lemma Let_Phrase_analysis_witness :
  top_env <> []
  /\ analyze 4 Example_let.phrase top_env
     = Ok (Op Example_let.meaning, set_maxslots 2 top_env)
  /\ Let_analysis 3 (mkToken 0 0 3 k_let) Example_let.parens
       (Identifier Example_let.b2) top_env (Op Example_let.meaning)
       (set_maxslots 2 top_env).
Proof.
  assert (top_env <> []) as Henv by (intros H; discriminate H).
  assert (analyze 4 Example_let.phrase top_env
          = Ok (Op Example_let.meaning, set_maxslots 2 top_env)) as H
    by (vm_compute; reflexivity).
  split; [exact Henv|]. split; [exact H|].
  exact (proj1 Let_Phrase_analysis 3 _ _ _ top_env _ _ Henv H).
Defined.



(** * Further properties of the parser

    What the parsing functions do to the token stream and what shape
    of phrase they return, by a weakest-precondition calculus over the
    scanner state. *)

Lemma post_Ok {A} (c : Parser A) (Q : A -> Scanner -> Prop) sc a sc' :
  post c Q sc -> c sc = Ok (a, sc') -> Q a sc'.
Proof. unfold post. intros H E. by rewrite E in H. Qed.

Lemma post_ret {A} (a : A) (Q : A -> Scanner -> Prop) sc :
  Q a sc -> post (ret a) Q sc.
Proof. done. Qed.

Lemma post_bind {A B} (c : Parser A) (k : A -> Parser B) Q sc :
  post c (fun a sc' => post (k a) Q sc') sc -> post (bind c k) Q sc.
Proof. unfold post, bind. by destruct (c sc) as [[a sc']| | |]. Qed.

Lemma post_mono {A} (c : Parser A) (Q Q' : A -> Scanner -> Prop) sc :
  post c Q sc -> (forall a sc', Q a sc' -> Q' a sc') -> post c Q' sc.
Proof. unfold post. destruct (c sc) as [[a sc']| | |]; auto. Qed.

Lemma post_call {A B} (c : Parser A) (k : A -> Parser B) Q0 Q sc :
  post c Q0 sc -> (forall a sc', Q0 a sc' -> post (k a) Q sc') ->
  post (bind c k) Q sc.
Proof. intros H Hk. apply post_bind. eapply post_mono; [exact H|]. exact Hk. Qed.

Lemma post_raise {A} cx msg (Q : A -> Scanner -> Prop) sc :
  post (raise cx msg) Q sc.
Proof. done. Qed.

Lemma post_undefined {A} (Q : A -> Scanner -> Prop) sc : post undefined Q sc.
Proof. done. Qed.

Lemma post_out_of_fuel {A} (Q : A -> Scanner -> Prop) sc :
  post out_of_fuel Q sc.
Proof. done. Qed.

Lemma post_get_token (Q : Token -> Scanner -> Prop) sc :
  (forall tok sc', stream sc = real tok ++ stream sc' -> Q tok sc') ->
  post get_token Q sc.
Proof.
  intros H. unfold post, get_token. destruct sc as [script [|t rest]]; simpl.
  - by apply H.
  - by apply H.
Qed.

Lemma post_push_token tok (Q : unit -> Scanner -> Prop) sc :
  (forall sc', stream sc' = real tok ++ stream sc -> Q tt sc') ->
  post (push_token tok) Q sc.
Proof. intros H. unfold post, push_token. by apply H. Qed.

Lemma post_get_script (Q : Script -> Scanner -> Prop) sc :
  (forall s, Q s sc) -> post get_script Q sc.
Proof. intros H. apply H. Qed.

Lemma delimited_args_tokens body :
  conforms body = true ->
  args_tokens (delimited_args body) = phrase_tokens body
  /\ elements_conform L_semicolons k_comma (delimited_args body) = true.
Proof.
  intros H. destruct body; simpl in *; try done;
    rewrite ?app_nil_r, ?andb_true_r; try done.
  all: try (repeat case_match; simpl in *; done).
Qed.

Section Parse_grammar.
Variables rc ri ru : Parser Phrase.
Variable rp : option string -> Parser (option Phrase).
Variable n : nat.
Hypothesis Hrc : parses L_commas rc.
Hypothesis Hri : parses L_item ri.
Hypothesis Hru : parses L_unary ru.
Hypothesis Hrp : forall what sc, post (rp what) (parsed_opt sc) sc.

Ltac pg_kinds :=
  repeat match goal with
         | E : kind ?tok = _, H : context [kind ?tok] |- _ =>
             lazymatch H with E => fail | _ => rewrite E in H end
         | E : kind ?tok = _ |- context [kind ?tok] => rewrite E
         end.

Ltac pg_streams :=
  repeat match goal with
         | H : stream ?s = _ |- context [stream ?s] => rewrite H
         end.

Ltac pg_levels :=
  unfold L_commas, L_semicolons, L_item, L_disjunction,
    L_conjunction, L_relation, L_range, L_sum, L_product, L_unary, L_postfix,
    L_primary in *.

Ltac pg_unfold :=
  repeat match goal with
         | H : parsed _ _ _ _ |- _ => unfold parsed in H
         | H : parsed_opt _ _ _ |- _ =>
             unfold parsed_opt in H; cbv beta iota in H
         | H : _ /\ _ |- _ => destruct H
         | H : cast_Paren_Phrase ?p = Some _ |- _ =>
             destruct p; simpl in H; try discriminate H; injection H as <-
         | H : conforms (_ _) = true |- _ =>
             cbn [conforms] in H;
             rewrite ?andb_true_iff, ?bool_decide_eq_true, ?Nat.leb_le in H
         end;
  unfold parsed, parsed_opt; cbv beta iota.

Ltac pg_goal :=
  unfold Token_default, make_Identifier;
  lazymatch goal with
  | |- @eq (list Token) _ _ =>
      unfold real in *; pg_kinds; cbv beta iota in *;
      try eassumption;
      simpl; unfold tok_list; pg_kinds; cbv beta iota;
      pg_streams;
      repeat first [ progress simpl | progress unfold tok_list
                   | progress pg_kinds | progress cbv beta iota
                   | rewrite flat_map_app
                   | rewrite <- app_assoc | rewrite <- app_comm_cons
                   | rewrite app_nil_r | rewrite app_nil_l ];
      try reflexivity
  | |- @eq bool _ _ =>
      cbn [conforms kind]; pg_kinds; cbv beta iota;
      rewrite ?forallb_app;
      repeat match goal with
             | H : forallb _ ?xs = true |- context [forallb _ ?xs] =>
                 rewrite H
             end;
      cbn [forallb expr_ comma_];
      rewrite ?andb_true_iff, ?orb_true_iff, ?Nat.leb_le,
        ?bool_decide_eq_true;
      pg_levels;
      repeat split; first [assumption | lia | done | by left | by right]
  | |- _ <= _ => cbn [level kind]; pg_kinds; cbv beta iota; pg_levels; lia
  | |- _ => first [assumption | done]
  end.

Ltac pg_done := pg_unfold; repeat split; pg_goal.

Ltac pg_call H :=
  eapply post_call; [apply H; pg_done|intros ? ? ?].

Ltac pg_tail H :=
  eapply post_mono;
  [apply H; pg_done|intros ? ? ?; first [assumption | pg_done]].

Ltac pg_use H := first [pg_call H | pg_tail H].

Ltac pg_kind :=
  match goal with
  | |- context [kind ?tok] =>
      let E := fresh "E" in
      destruct (kind tok) eqn:E; cbv beta iota in *
  end.

Ltac pg_step t :=
  lazymatch goal with
  | |- post (ret _) _ _ => apply post_ret; first [t | pg_done]
  | |- post (raise _ _) _ _ => apply post_raise
  | |- post undefined _ _ => apply post_undefined
  | |- post out_of_fuel _ _ => apply post_out_of_fuel
  | |- post (bind get_token _) _ _ =>
      apply post_bind; apply post_get_token; intros ? ? ?
  | |- post (bind (push_token ?tok) _) _ ?sc =>
      let Hp := fresh "Hp" in
      apply post_bind; apply post_push_token; intros ? Hp;
      match goal with
      | H : stream _ = real tok ++ stream sc |- _ =>
          rewrite <- H in Hp; clear H; symmetry in Hp
      end
  | |- post (bind get_script _) _ _ =>
      apply post_bind; apply post_get_script; intros ?
  | |- post (bind rc _) _ _ => pg_call Hrc
  | |- post (bind ri _) _ _ => pg_call Hri
  | |- post (bind ru _) _ _ => pg_call Hru
  | |- post (bind (rp _) _) _ _ => pg_call Hrp
  | |- post (bind _ _) _ _ => t
  | |- post (match kind _ with _ => _ end) _ _ => pg_kind
  | |- post (match _ with _ => _ end) _ _ => first [case_decide | case_match]
  | |- post _ _ _ => t
  end.

Lemma parsed_make_Delimited d tok body tok2 sc0 sc sc1 sc2 :
  kind tok = match d with
             | Parens => k_lparen | Brackets => k_lbracket | Braces => k_lbrace
             end ->
  kind tok2 = close_of d ->
  stream sc0 = [tok] ++ stream sc ->
  parsed L_commas sc body sc1 ->
  stream sc1 = real tok2 ++ stream sc2 ->
  parsed L_primary sc0 (make_Delimited d tok body tok2) sc2.
Proof.
  intros Hk Hk2 Hsc (Hbody & Hconf & _) Hsc1.
  destruct (delimited_args_tokens body Hconf) as [Hargs Hel].
  assert (phrase_tokens (make_Delimited d tok body tok2)
          = tok_list tok ++ args_tokens (delimited_args body) ++ tok_list tok2)
    as Htoks by (by destruct d).
  assert (conforms (make_Delimited d tok body tok2)
          = bool_decide (kind tok = match d with
                                    | Parens => k_lparen
                                    | Brackets => k_lbracket
                                    | Braces => k_lbrace
                                    end)
            && bool_decide (kind tok2 = close_of d)
            && elements_conform L_semicolons k_comma (delimited_args body))
    as Hc by (by destruct d).
  unfold parsed. rewrite Htoks, Hc, Hargs, Hel, Hsc, Hbody, Hsc1.
  rewrite !bool_decide_eq_true_2 by done.
  unfold tok_list, real. rewrite Hk, Hk2.
  split; [|split; [done|by destruct d]].
  destruct d; simpl; by rewrite <- ?app_assoc.
Qed.

Lemma parse_delimited_parsed d tok sc0 sc :
  kind tok = match d with
             | Parens => k_lparen | Brackets => k_lbracket | Braces => k_lbrace
             end ->
  stream sc0 = [tok] ++ stream sc ->
  post (parse_delimited rc d tok) (parsed L_primary sc0) sc.
Proof.
  intros Hk Hsc. unfold parse_delimited.
  repeat pg_step ltac:(by eapply parsed_make_Delimited).
Qed.

Lemma parse_primary_parsed what sc :
  post (parse_primary rc ri rp what) (parsed_opt sc) sc.
Proof.
  unfold parse_primary.
  repeat pg_step ltac:(first [ pg_use parse_delimited_parsed ]).
Qed.

Lemma parse_primary_what_parsed what :
  parses L_primary (parse_primary_what rc ri rp what).
Proof.
  intros sc. unfold parse_primary_what.
  repeat pg_step ltac:(pg_use parse_primary_parsed).
Qed.

Lemma parse_postfix_loop_parsed k postfix sc0 sc :
  parsed L_postfix sc0 postfix sc ->
  post (parse_postfix_loop rc ri ru rp k postfix) (parsed L_postfix sc0) sc.
Proof.
  revert postfix sc. induction k as [|k IH]; intros postfix sc Hacc;
    [apply post_out_of_fuel|].
  simpl.
  repeat pg_step ltac:(first [ pg_use parse_primary_parsed
                             | pg_use parse_primary_what_parsed
                             | pg_use IH ]).
Qed.

Lemma parse_postfix_parsed : parses L_postfix (parse_postfix rc ri ru rp n).
Proof.
  intros sc. unfold parse_postfix.
  repeat pg_step ltac:(first [ pg_use parse_primary_what_parsed
                             | pg_use parse_postfix_loop_parsed ]).
Qed.

Lemma parse_unary_parsed : parses L_unary (parse_unary rc ri ru rp n).
Proof.
  intros sc. unfold parse_unary.
  repeat pg_step ltac:(pg_use parse_postfix_parsed).
Qed.

Lemma parse_product_loop_parsed k left_ sc0 sc :
  parsed L_product sc0 left_ sc ->
  post (parse_product_loop rc ri ru rp n k left_) (parsed L_product sc0) sc.
Proof.
  revert left_ sc. induction k as [|k IH]; intros left_ sc Hacc;
    [apply post_out_of_fuel|].
  simpl. repeat pg_step ltac:(first [pg_use parse_unary_parsed | pg_use IH]).
Qed.

Lemma parse_product_parsed : parses L_product (parse_product rc ri ru rp n).
Proof.
  intros sc. unfold parse_product.
  repeat pg_step ltac:(first [ pg_use parse_unary_parsed
                             | pg_use parse_product_loop_parsed ]).
Qed.

Lemma parse_sum_loop_parsed k left_ sc0 sc :
  parsed L_sum sc0 left_ sc ->
  post (parse_sum_loop rc ri ru rp n k left_) (parsed L_sum sc0) sc.
Proof.
  revert left_ sc. induction k as [|k IH]; intros left_ sc Hacc;
    [apply post_out_of_fuel|].
  simpl. repeat pg_step ltac:(first [pg_use parse_product_parsed | pg_use IH]).
Qed.

Lemma parse_sum_parsed : parses L_sum (parse_sum rc ri ru rp n).
Proof.
  intros sc. unfold parse_sum.
  repeat pg_step ltac:(first [ pg_use parse_product_parsed
                             | pg_use parse_sum_loop_parsed ]).
Qed.

Lemma parse_range_parsed : parses L_range (parse_range rc ri ru rp n).
Proof.
  intros sc. unfold parse_range.
  repeat pg_step ltac:(pg_use parse_sum_parsed).
Qed.

Lemma parse_relation_parsed : parses L_relation (parse_relation rc ri ru rp n).
Proof.
  intros sc. unfold parse_relation.
  repeat pg_step ltac:(pg_use parse_range_parsed).
Qed.

Lemma parse_conjunction_loop_parsed k left_ sc0 sc :
  parsed L_conjunction sc0 left_ sc ->
  post (parse_conjunction_loop rc ri ru rp n k left_)
       (parsed L_conjunction sc0) sc.
Proof.
  revert left_ sc. induction k as [|k IH]; intros left_ sc Hacc;
    [apply post_out_of_fuel|].
  simpl.
  repeat pg_step ltac:(first [pg_use parse_relation_parsed | pg_use IH]).
Qed.

Lemma parse_conjunction_parsed :
  parses L_conjunction (parse_conjunction rc ri ru rp n).
Proof.
  intros sc. unfold parse_conjunction.
  repeat pg_step ltac:(first [ pg_use parse_relation_parsed
                             | pg_use parse_conjunction_loop_parsed ]).
Qed.

Lemma parse_disjunction_loop_parsed k left_ sc0 sc :
  parsed L_disjunction sc0 left_ sc ->
  post (parse_disjunction_loop rc ri ru rp n k left_)
       (parsed L_disjunction sc0) sc.
Proof.
  revert left_ sc. induction k as [|k IH]; intros left_ sc Hacc;
    [apply post_out_of_fuel|].
  simpl.
  repeat pg_step ltac:(first [pg_use parse_conjunction_parsed | pg_use IH]).
Qed.

Lemma parse_disjunction_parsed :
  parses L_disjunction (parse_disjunction rc ri ru rp n).
Proof.
  intros sc. unfold parse_disjunction.
  repeat pg_step ltac:(first [ pg_use parse_conjunction_parsed
                             | pg_use parse_disjunction_loop_parsed ]).
Qed.

Lemma parse_item_parsed : parses L_item (parse_item rc ri ru rp n).
Proof.
  intros sc. unfold parse_item.
  repeat pg_step ltac:(first [ pg_use parse_primary_what_parsed
                             | pg_use parse_disjunction_parsed ]).
Qed.

Lemma parse_semicolons_loop_parsed k args sc0 sc :
  stream sc0 = args_tokens args ++ stream sc ->
  elements_conform L_item k_semicolon args = true ->
  post (parse_semicolons_loop rc ri ru rp n k args)
       (parsed L_semicolons sc0) sc.
Proof.
  revert args sc. induction k as [|k IH]; intros args sc Hsc Hargs;
    [apply post_out_of_fuel|].
  unfold args_tokens, elements_conform in *. simpl.
  repeat pg_step ltac:(first [pg_use parse_item_parsed | pg_use IH]).
Qed.

Lemma parse_semicolons_parsed :
  parses L_semicolons (parse_semicolons rc ri ru rp n).
Proof.
  intros sc. unfold parse_semicolons.
  by apply parse_semicolons_loop_parsed.
Qed.

Lemma parse_commas_loop_parsed k args sc0 sc :
  stream sc0 = args_tokens args ++ stream sc ->
  elements_conform L_semicolons k_comma args = true ->
  post (parse_commas_loop rc ri ru rp n k args) (parsed L_commas sc0) sc.
Proof.
  revert args sc. induction k as [|k IH]; intros args sc Hsc Hargs;
    [apply post_out_of_fuel|].
  unfold args_tokens, elements_conform in *. simpl.
  repeat pg_step ltac:(first [pg_use parse_semicolons_parsed | pg_use IH]).
Qed.

Lemma parse_commas_parsed : parses L_commas (parse_commas rc ri ru rp n).
Proof.
  intros sc. unfold parse_commas.
  repeat pg_step ltac:(pg_use parse_commas_loop_parsed).
Qed.

End Parse_grammar.

Lemma parse_fuel_parsed fuel :
  parses L_commas (parse_commas_fuel fuel)
  /\ parses L_item (parse_item_fuel fuel)
  /\ parses L_unary (parse_unary_fuel fuel)
  /\ forall what sc, post (parse_primary_fuel fuel what) (parsed_opt sc) sc.
Proof.
  induction fuel as [|fuel (IHc & IHi & IHu & IHp)].
  { split; [|split; [|split; [|intros what]]]; by intros sc. }
  split; [|split; [|split; [|intros what]]]; intros sc.
  - by apply parse_commas_parsed.
  - by apply parse_item_parsed.
  - by apply parse_unary_parsed.
  - by apply parse_primary_parsed.
Qed.

Lemma parse_program_parsed fuel sc ph sc' :
  parse_program fuel sc = Ok (ph, sc') ->
  exists body end_ sc1,
    ph = Program_Phrase body end_ /\ kind end_ = k_end
    /\ parsed L_commas sc body sc1 /\ stream sc1 = stream sc'.
Proof.
  unfold parse_program. intros H.
  apply bind_Ok in H as (body & sc1 & Hbody & H).
  apply bind_Ok in H as (tok & sc2 & Htok & H).
  case_decide as Hk; [|done]. injection H as <- <-.
  exists body, tok, sc1. split; [done|]. split; [done|]. split.
  - eapply post_Ok; [apply parse_fuel_parsed|done].
  - eapply (post_Ok get_token (fun tok sc' => stream sc1 = real tok ++ stream sc'))
      in Htok; [|by apply post_get_token].
    unfold real in Htok. by rewrite Hk in Htok.
Qed.

(** Property X1.  The parser neither drops nor invents a token: the
    tokens of the phrase it returns, read from left to right, are the
    tokens it has taken from the scanner, end tokens apart; an optional
    primary that is absent takes none.  A program is parsed up to an
    end token. *)
Theorem parser_conserves_tokens :
  (forall fuel sc ph sc',
     parse_commas_fuel fuel sc = Ok (ph, sc') ->
     stream sc = phrase_tokens ph ++ stream sc')
  /\ (forall fuel sc ph sc',
        parse_item_fuel fuel sc = Ok (ph, sc') ->
        stream sc = phrase_tokens ph ++ stream sc')
  /\ (forall fuel sc ph sc',
        parse_unary_fuel fuel sc = Ok (ph, sc') ->
        stream sc = phrase_tokens ph ++ stream sc')
  /\ (forall fuel what sc p sc',
        parse_primary_fuel fuel what sc = Ok (p, sc') ->
        stream sc
        = match p with Some ph => phrase_tokens ph | None => [] end
          ++ stream sc')
  /\ (forall fuel sc ph sc',
        parse_program fuel sc = Ok (ph, sc') ->
        exists body end_,
          ph = Program_Phrase body end_ /\ kind end_ = k_end
          /\ stream sc = phrase_tokens body ++ stream sc').
Proof.
  split; [|split; [|split; [|split]]].
  - intros fuel sc ph sc' H.
    destruct (parse_fuel_parsed fuel) as (Hc & _).
    by destruct (post_Ok _ _ _ _ _ (Hc sc) H).
  - intros fuel sc ph sc' H.
    destruct (parse_fuel_parsed fuel) as (_ & Hi & _).
    by destruct (post_Ok _ _ _ _ _ (Hi sc) H).
  - intros fuel sc ph sc' H.
    destruct (parse_fuel_parsed fuel) as (_ & _ & Hu & _).
    by destruct (post_Ok _ _ _ _ _ (Hu sc) H).
  - intros fuel what sc p sc' H.
    destruct (parse_fuel_parsed fuel) as (_ & _ & _ & Hp).
    pose proof (post_Ok _ _ _ _ _ (Hp what sc) H) as Hq.
    destruct p as [ph|]; [by destruct Hq|done].
  - intros fuel sc ph sc' H.
    destruct (parse_program_parsed _ _ _ _ H)
      as (body & end_ & sc1 & -> & Hk & (Hs & _) & Hs1).
    exists body, end_. by rewrite Hs, Hs1.
Qed.


Lemma parser_conserves_tokens_witness :
  let sc := mkScanner Example_let.script Example_let.tokens in
  let ph := Program_Phrase Example_let.phrase (mkToken 17 17 17 k_end) in
  let sc' := mkScanner Example_let.script [] in
  parse_program 10 sc = Ok (ph, sc')
  /\ exists body end_,
       ph = Program_Phrase body end_ /\ kind end_ = k_end
       /\ stream sc = phrase_tokens body ++ stream sc'.
Proof.
  intros sc ph sc'.
  assert (parse_program 10 sc = Ok (ph, sc')) as H by (vm_compute; reflexivity).
  split; [exact H|].
  exact (proj2 (proj2 (proj2 (proj2 parser_conserves_tokens))) 10 sc ph sc' H).
Defined.


Lemma parse_item_fuel_le fuel fuel' sc :
  fuel <= fuel' -> parse_item_fuel fuel sc <> Out_Of_Fuel ->
  parse_item_fuel fuel' sc = parse_item_fuel fuel sc.
Proof.
  induction 1 as [|fuel' Hle IH]; [done|]. intros H.
  rewrite <- (IH H). apply parse_fuel_S. by rewrite (IH H).
Qed.

(** Property X3.  The parser terminates.  An item is made of at least
    one token of the stream; hence the loops and the recursion of the
    parser end: with more fuel than there are tokens to read, and one
    more, [parse_program] returns a phrase or throws, and the outcome is
    the same for any such fuel. *)
Theorem parser_terminates :
  (forall fuel sc ph sc',
     parse_item_fuel fuel sc = Ok (ph, sc') -> pending sc' < pending sc)
  /\ (forall fuel sc,
        pending sc + 2 <= fuel ->
        parse_program fuel sc <> Out_Of_Fuel
        /\ parse_program fuel sc = parse_program (pending sc + 2) sc).
Proof.
  split.
  - intros fuel sc ph sc' H.
    assert (parse_item_fuel (fuel + (pending sc + 2)) sc = Ok (ph, sc')) as H'.
    { rewrite (parse_item_fuel_le fuel); [done|lia|by rewrite H]. }
    destruct (parse_fuel_eats (fuel + (pending sc + 2))) as (_ & Hi & _).
    specialize (Hi sc). unfold wp in Hi. rewrite H' in Hi.
    assert (pending sc < pred (fuel + (pending sc + 2))) as Hlt by lia.
    specialize (Hi Hlt). simpl in Hi. lia.
  - intros fuel sc H. split; [by apply parse_program_runs|].
    by apply parse_program_enough_fuel.
Qed.

Lemma parser_terminates_witness :
  let sc := mkScanner Example_let.script Example_let.tokens in
  pending sc + 2 <= 15
  /\ parse_program 15 sc <> Out_Of_Fuel
  /\ parse_program 15 sc = parse_program (pending sc + 2) sc.
Proof.
  intros sc.
  assert (pending sc + 2 <= 15) as H by (vm_compute; lia).
  split; [exact H|]. exact (proj2 parser_terminates 15 sc H).
Defined.

(** * Further properties of the analyzer *)

Lemma nbc_ret {S A} (a : A) : no_bad_cast (@ret S A a).
Proof. by intros s []. Qed.

Lemma nbc_raise {S A} cx msg : no_bad_cast (@raise S A cx msg).
Proof. by intros s []. Qed.

Lemma nbc_get_env : no_bad_cast get_env.
Proof. by intros s []. Qed.

Lemma nbc_to_operation m : no_bad_cast (to_operation m).
Proof. by destruct m; intros s []. Qed.

Lemma nbc_bind {S A B} (c : St S A) (k : A -> St S B) :
  no_bad_cast c -> (forall a, no_bad_cast (k a)) -> no_bad_cast (bind c k).
Proof.
  intros Hc Hk s. unfold bind. specialize (Hc s).
  destruct (c s) as [[a s']|e| |]; try done. apply Hk.
Qed.

Lemma nbc_lift {S A} (r : Result A) :
  ~ is_bad_cast r -> no_bad_cast (@lift S A r).
Proof. intros Hr s. unfold lift. by destruct r. Qed.

Lemma nbc_in_scope {A} child (c : M A) :
  no_bad_cast c -> no_bad_cast (in_scope child c).
Proof.
  intros Hc env. unfold in_scope. specialize (Hc (child :: env)).
  by destruct (c (child :: env)) as [[a [|]]|e| |].
Qed.

Lemma lookup_no_bad_cast env id : ~ is_bad_cast (lookup env id).
Proof.
  induction env as [|e parent IH]; [by intros []|]. simpl.
  assert (~ is_bad_cast (single_lookup e parent (lookup parent id) id)) as H.
  { unfold single_lookup.
    destruct (lookup parent id) as [[m p]|ex| |]; simpl;
      repeat case_match; simpl; try done; by intros []. }
  destruct (single_lookup e parent (lookup parent id) id)
    as [[[[m e'] parent']|]|ex| |]; try done; try by intros [].
  by destruct (lookup parent id) as [[m parent']|ex| |].
Qed.

Lemma analyze_def_no_bad_cast ph : ~ is_bad_cast (analyze_def ph).
Proof. destruct ph; try by intros []. simpl. repeat case_match; by intros []. Qed.

Lemma lambda_params_no_bad_cast left_ : ~ is_bad_cast (lambda_params left_).
Proof.
  destruct left_; try by intros []. simpl. generalize (∅ : gmap Atom nat) 0.
  induction (args_ parens) as [|a args IH]; intros params slot;
    [by intros []|].
  simpl. destruct (expr_ a); try by intros []. apply IH.
Qed.

Lemma let_bindings_loop_no_bad_cast args b0 slot :
  ~ is_bad_cast (let_bindings_loop args b0 slot).
Proof.
  revert b0 slot. induction args as [|x args IH]; intros b0 slot;
    [by intros []|].
  simpl. pose proof (analyze_def_no_bad_cast (expr_ x)) as Hd.
  destruct (analyze_def (expr_ x)) as [[d|]| | |]; try done; simpl;
    try by intros [].
  destruct (b0 !! _); [by intros []|]. apply IH.
Qed.

Lemma module_fields_loop_no_bad_cast stmts f0 el0 :
  ~ is_bad_cast (module_fields_loop stmts f0 el0).
Proof.
  revert f0 el0. induction stmts as [|st stmts IH]; intros f0 el0;
    [by intros []|].
  simpl. pose proof (analyze_def_no_bad_cast st) as Hd.
  destruct (analyze_def st) as [[d|]| | |]; try done; simpl;
    try (by intros []); [|apply IH].
  unfold add_definition. destruct (dictionary_ f0 !! _); [by intros []|].
  apply IH.
Qed.

Section Analyze_cast.
Variable analyze : Phrase -> M Meaning.
Hypothesis analyze_nbc : forall ph, no_bad_cast (analyze ph).
Hypothesis analyze_lambda :
  forall ph env m env',
    isa_Lambda_Phrase ph = true -> analyze ph env = Ok (m, env') ->
    exists body nonlocals nargs nslots,
      m = Op (Lambda_Expr ph body nonlocals nargs nslots).

Lemma nbc_analyze_op ph : no_bad_cast (analyze_op analyze ph).
Proof. apply nbc_bind; [apply analyze_nbc|apply nbc_to_operation]. Qed.

Lemma nbc_analyze_ops args : no_bad_cast (analyze_ops analyze args).
Proof.
  induction args as [|a args IH]; simpl; [apply nbc_ret|].
  apply nbc_bind; [apply nbc_analyze_op|]. intros x.
  apply nbc_bind; [apply IH|]. intros xs. apply nbc_ret.
Qed.

Lemma nbc_analyze_phrases phs : no_bad_cast (analyze_phrases analyze phs).
Proof.
  induction phs as [|a args IH]; simpl; [apply nbc_ret|].
  apply nbc_bind; [apply nbc_analyze_op|]. intros x.
  apply nbc_bind; [apply IH|]. intros xs. apply nbc_ret.
Qed.

(** The cast of [Bindings::analyze_values]: the analysis of a lambda
    phrase is a [Lambda_Expr]. *)
Lemma nbc_analyze_values phs : no_bad_cast (analyze_values analyze phs).
Proof.
  induction phs as [|ph phs IH]; simpl; [apply nbc_ret|].
  intros env. unfold bind at 1.
  pose proof (nbc_analyze_op ph env) as Hop.
  destruct (analyze_op analyze ph env) as [[expr env1]| | |] eqn:E; try done;
    try by intros [].
  apply nbc_bind; [|intros v; apply nbc_bind; [apply IH|intros; apply nbc_ret]].
  destruct (isa_Lambda_Phrase ph) eqn:Hl; [|apply nbc_ret].
  unfold analyze_op in E. apply bind_Ok in E as (m & env0 & Hm & Ho).
  destruct (analyze_lambda _ _ _ _ Hl Hm) as (b & nl & na & ns & ->).
  simpl in Ho. injection Ho as <- <-. apply nbc_ret.
Qed.

Lemma nbc_let_values_loop items first_slot values :
  no_bad_cast (let_values_loop analyze items first_slot values).
Proof.
  revert values. induction items as [|b items IH]; intros values; simpl;
    [apply nbc_ret|].
  apply nbc_bind; [apply nbc_analyze_op|]. intros x. apply IH.
Qed.

Lemma nbc_Record_Phrase_loop args fields :
  no_bad_cast (Record_Phrase_loop analyze args fields).
Proof.
  revert fields. induction args as [|a args IH]; intros fields; simpl;
    [apply nbc_ret|].
  apply nbc_bind; [apply nbc_lift, analyze_def_no_bad_cast|].
  intros [d|]; [|apply nbc_raise].
  apply nbc_bind; [|intros ?; apply IH].
  unfold analyze_definition. destruct (fields !! _); [apply nbc_raise|].
  apply nbc_bind; [apply nbc_analyze_op|intros ?; apply nbc_ret].
Qed.

Ltac nbc :=
  repeat first
    [ apply nbc_ret
    | apply nbc_raise
    | apply nbc_get_env
    | apply nbc_analyze_op
    | apply nbc_analyze_ops
    | apply nbc_analyze_phrases
    | apply nbc_analyze_values
    | apply nbc_let_values_loop
    | apply nbc_Record_Phrase_loop
    | apply analyze_nbc
    | apply nbc_in_scope
    | apply nbc_lift;
      first [ apply lambda_params_no_bad_cast
            | apply let_bindings_loop_no_bad_cast
            | apply module_fields_loop_no_bad_cast ]
    | apply nbc_bind; [|intros ?]
    | case_match
    | case_decide
    | (by intros ? []) ].

Lemma analyze_phrase_no_bad_cast ph : no_bad_cast (analyze_phrase analyze ph).
Proof.
  destruct ph; simpl;
    unfold Identifier_analyze, Numeral_analyze, String_Phrase_analyze,
      Unary_Phrase_analyze, Lambda_Phrase_analyze, Binary_Phrase_analyze,
      binary, throw,
      Semicolon_Phrase_analyze, sequence_analyze, List_Phrase_analyze,
      Call_Phrase_analyze, analyze_args, Record_Phrase_analyze,
      analyze_module, If_Phrase_analyze, Let_Phrase_analyze,
      For_Phrase_analyze, Range_Phrase_analyze;
    try (intros env; apply lookup_no_bad_cast); nbc.
Qed.

End Analyze_cast.

(** Property X4.  [Bindings::analyze_values] casts the analysis of every
    slot phrase that is a lambda phrase to [Lambda_Expr&].  The cast
    never fails: no analysis throws [std::bad_cast]. *)
Theorem analyze_no_bad_cast fuel ph env :
  analyze fuel ph env <> Throw bad_cast.
Proof.
  assert (forall fuel ph, no_bad_cast (analyze fuel ph)) as H.
  { clear. intros fuel. induction fuel as [|fuel IH]; intros ph env;
      [by intros []|].
    simpl. apply analyze_phrase_no_bad_cast.
    - intros ph' env'. apply IH.
    - intros. by eapply analyze_Lambda_Phrase. }
  intros E. apply (H fuel ph env). by rewrite E.
Qed.



(** Property X6.  An analysis that succeeds hands the environment back
    as it got it, but for what the scopes record on purpose: no scope is
    added, removed or replaced; every scope keeps its class, its names
    and its [frame_nslots]; a [frame_maxslots] can only have grown; the
    scope of a lambda can only have got more captures at the end of its
    list.  At top level, where the environment is the builtin namespace
    alone, nothing but its [frame_maxslots] can differ. *)
Theorem analysis_keeps_scopes :
  (forall fuel ph env m env',
     analyze fuel ph env = Ok (m, env') ->
     length env' = length env /\ Forall2 scope_evolves env env')
  /\ (forall fuel ph names nslots maxslots m env',
        analyze fuel ph [mkScope (Builtin_Environ names) nslots maxslots]
        = Ok (m, env') ->
        exists maxslots',
          maxslots <= maxslots'
          /\ env' = [mkScope (Builtin_Environ names) nslots maxslots']).
Proof.
  split.
  - intros fuel ph env m env' H. apply analyze_evolves in H.
    split; [symmetry; by apply evolves_length|done].
  - intros fuel ph names nslots maxslots m env' H. apply analyze_evolves in H.
    inversion H as [|s s' l l' Hs Hl]; subst. inversion Hl; subst.
    destruct s' as [c n k]. destruct Hs as (Hn & Hm & Hc). simpl in *.
    exists k. split; [done|]. destruct c; by simplify_eq.
Qed.

Lemma analysis_keeps_scopes_witness :
  analyze 4 Example_let.phrase top_env
  = Ok (Op Example_let.meaning, set_maxslots 2 top_env)
  /\ length (set_maxslots 2 top_env) = length top_env
  /\ Forall2 scope_evolves top_env (set_maxslots 2 top_env).
Proof.
  assert (analyze 4 Example_let.phrase top_env
          = Ok (Op Example_let.meaning, set_maxslots 2 top_env)) as H
    by (vm_compute; reflexivity).
  split; [exact H|].
  exact (proj1 analysis_keeps_scopes 4 _ _ _ _ H).
Defined.

Lemma Record_Phrase_loop_spec fuel args fields env fields' env' :
  Record_Phrase_loop (analyze fuel) args fields env = Ok (fields', env') ->
  exists defs,
    Forall2 (fun a d => analyze_def (expr_ a) = Ok (Some d)) args defs
    /\ NoDup (def_atom <$> defs)
    /\ (forall d, d ∈ defs -> fields !! def_atom d = None)
    /\ (forall a x, fields !! a = Some x -> fields' !! a = Some x)
    /\ dom fields' = dom fields ∪ list_to_set (def_atom <$> defs)
    /\ Forall (fun d =>
                 exists x e e',
                   evolves env e
                   /\ analyze_op (analyze fuel) (definiens_ d) e = Ok (x, e')
                   /\ fields' !! def_atom d = Some x)
              defs
    /\ evolves env env'.
Proof.
  revert fields env. induction args as [|i args IH]; intros fields env H;
    simpl in H.
  - inv_M H. exists []. repeat split; try done; try constructor.
    + by intros d Hd%elem_of_nil.
    + set_solver.
    + apply evolves_refl.
  - inv_M H. destruct a as [d|]; [|done]. inv_M H.
    unfold analyze_definition in H1.
    destruct (fields !! atom_ (name_ d)) eqn:Hfresh; [done|]. inv_M H1.
    match goal with
    | Hop : analyze_op _ _ ?e0 = Ok (?x, ?e1) |- _ =>
        rename Hop into Hop'; rename x into x0; rename e0 into envA;
        rename e1 into envB
    end.
    pose proof (analyze_op_evolves _ _ _ _ _ Hop') as Hev.
    destruct (IH _ _ H) as (defs & Hall & Hnd & Hfr & Hkeep & Hdom & Hf & Hev').
    exists (d :: defs).
    assert (def_atom d ∉ def_atom <$> defs) as Hnotin.
    { intros (d' & Hd' & Hin)%list_elem_of_fmap.
      specialize (Hfr d' Hin). rewrite <- Hd' in Hfr.
      unfold def_atom in Hfr. by rewrite lookup_insert_eq in Hfr. }
    split; [by constructor|]. split; [by constructor|].
    split.
    { intros d' [->|Hin]%elem_of_cons; [done|].
      specialize (Hfr d' Hin).
      destruct (decide (def_atom d' = def_atom d)) as [E|E].
      - destruct Hnotin. rewrite <- E. by apply list_elem_of_fmap_2.
      - unfold def_atom in *. by rewrite lookup_insert_ne in Hfr. }
    split.
    { intros a x Ha. apply Hkeep.
      destruct (decide (a = atom_ (name_ d))) as [->|E]; [congruence|].
      by rewrite lookup_insert_ne. }
    split.
    { rewrite Hdom, dom_insert_L. simpl. unfold def_atom at 2. set_solver. }
    split; [|by eapply evolves_trans].
    constructor.
    + exists x0, envA, envB. split; [apply evolves_refl|]. split; [done|].
      apply Hkeep. unfold def_atom. by rewrite lookup_insert_eq.
    + eapply Forall_impl; [exact Hf|]. simpl.
      intros d' (x & e & e' & He & Hx & Hl). exists x, e, e'.
      split; [by eapply evolves_trans|done].
Qed.

(** Property X7.  A record literal is analyzed without a scope of its
    own.  When the analysis succeeds, every element is a definition, the
    names are distinct, and the record has exactly one field per
    element, named as the definition and holding the analysis of its
    definiens in the environment of the record itself: a field cannot
    refer to another field.  The empty record has no field. *)
Theorem record_analysis fuel braces env m env' :
  analyze (S fuel) (Record_Phrase braces) env = Ok (m, env') ->
  exists fields defs,
    m = Op (Record_Expr (Record_Phrase braces) fields)
    /\ Forall2 (fun a d => analyze_def (expr_ a) = Ok (Some d))
         (args_ braces) defs
    /\ NoDup (def_atom <$> defs)
    /\ dom fields = list_to_set (def_atom <$> defs)
    /\ size fields = length (args_ braces)
    /\ Forall (fun d =>
                 exists x e e',
                   evolves env e
                   /\ analyze_op (analyze fuel) (definiens_ d) e = Ok (x, e')
                   /\ fields !! def_atom d = Some x)
              defs
    /\ evolves env env'.
Proof.
  intros H. simpl in H. unfold Record_Phrase_analyze in H. inv_M H.
  destruct (Record_Phrase_loop_spec _ _ _ _ _ _ H0)
    as (defs & Hall & Hnd & _ & _ & Hdom & Hf & Hev).
  exists a, defs. split; [done|]. split; [done|]. split; [done|].
  rewrite dom_empty_L, (left_id_L ∅ (∪)) in Hdom.
  split; [done|]. split; [|done].
  rewrite <- size_dom, Hdom, size_list_to_set by done.
  rewrite length_fmap. symmetry. by eapply Forall2_length.
Qed.

Lemma record_analysis_witness :
  let braces :=
    mkDelimited (mkToken 3 3 4 k_lbrace)
      [mkArg (Definition_Phrase (Identifier Example_let.a1)
                (mkToken 5 5 6 k_equate) Example_let.one1)
             Token_default]
      (mkToken 7 7 8 k_rbrace) in
  let fields0 : gmap Atom Operation :=
    <[atom_ Example_let.a1 := Constant Example_let.one1 (Num (strtod "1"))]> ∅ in
  analyze 2 (Record_Phrase braces) top_env
  = Ok (Op (Record_Expr (Record_Phrase braces) fields0), top_env)
  /\ exists fields defs,
       Op (Record_Expr (Record_Phrase braces) fields0)
       = Op (Record_Expr (Record_Phrase braces) fields)
       /\ Forall2 (fun a d => analyze_def (expr_ a) = Ok (Some d))
            (args_ braces) defs
       /\ NoDup (def_atom <$> defs)
       /\ dom fields = list_to_set (def_atom <$> defs)
       /\ size fields = length (args_ braces)
       /\ Forall (fun d =>
                    exists x e e',
                      evolves top_env e
                      /\ analyze_op (analyze 1) (definiens_ d) e = Ok (x, e')
                      /\ fields !! def_atom d = Some x)
                 defs
       /\ evolves top_env top_env.
Proof.
  intros braces fields0.
  assert (analyze 2 (Record_Phrase braces) top_env
          = Ok (Op (Record_Expr (Record_Phrase braces) fields0), top_env)) as H
    by (vm_compute; reflexivity).
  split; [exact H|].
  exact (record_analysis 1 braces top_env _ _ H).
Defined.








(** ** The frame of an operation *)

Lemma scoped_mono n k op :
  scoped n k op -> forall n' k', n <= n' -> k <= k' -> scoped n' k' op.
Proof.
  induction 1; intros n' k' Hn Hk; econstructor; eauto; lia.
Qed.

Lemma env_scoped_counters env :
  env_scoped env -> env_nslots env <= env_maxslots env.
Proof. destruct env; simpl; [done|]. by intros [? _]. Qed.

Lemma nl_count_evolves env env' :
  evolves env env' -> nl_count env <= nl_count env'.
Proof.
  induction 1 as [|s s' p p' (Hn & Hm & Hc) _ IH]; simpl; [done|].
  destruct (self s), (self s'); simplify_eq; try done.
  destruct Hc as (_ & _ & _ & Hx). by apply prefix_length.
Qed.

Lemma nl_count_set_maxslots n env :
  nl_count (set_maxslots n env) = nl_count env.
Proof. by destruct env. Qed.

(** The scopes above stay in order when the chain below them evolves. *)
Lemma env_scoped_parent s p p' :
  env_scoped (s :: p) -> evolves p p' -> env_scoped p' ->
  env_scoped (s :: p').
Proof.
  simpl. intros [Hn Hs] Hp Hp'. split; [done|].
  pose proof (evolves_env_nslots _ _ Hp).
  pose proof (evolves_env_maxslots _ _ Hp).
  pose proof (nl_count_evolves _ _ Hp).
  destruct (self s); try done.
  - subst p. by inversion Hp.
  - destruct Hs as (_ & ? & ? & ? & Hx). repeat split; try done.
    intros e He. eapply scoped_mono; eauto.
  - destruct Hs as (_ & ? & ?). repeat split; try done. lia.
  - destruct Hs as (_ & ? & ?). repeat split; try done. lia.
Qed.

Lemma env_scoped_set_maxslots n env :
  env_scoped env -> env_nslots env <= n -> env_scoped (set_maxslots n env).
Proof. destruct env as [|s p]; simpl; [done|]. intros [_ H] Hn. done. Qed.

Lemma env_maxslots_set_maxslots n env :
  env <> [] -> env_maxslots (set_maxslots n env) = n.
Proof. by destruct env. Qed.

Lemma lookup_evolves id env m env' :
  lookup env id = Ok (m, env') -> evolves env env'.
Proof.
  intros H. eapply env_steps_evolves, (lookup_steps (fun _ => True)); eauto.
Qed.

(** What [Environ::lookup] resolves an identifier to is in the frame
    and among the nonlocals of the scope it was asked in. *)
Lemma lookup_scoped id env m env' :
  env_scoped env -> lookup env id = Ok (m, env') ->
  env_scoped env'
  /\ forall op, m = Op op -> scoped (env_nslots env') (nl_count env') op.
Proof.
  revert m env'. induction env as [|e parent IH]; intros m env' Hs H; [done|].
  assert (forall m0 p0, lookup parent id = Ok (m0, p0) ->
            env_scoped parent -> env_scoped (e :: p0)) as Hup.
  { intros m0 p0 Hp Hsp. eapply env_scoped_parent; eauto.
    - eapply lookup_evolves, Hp.
    - eapply IH; eauto. }
  simpl in H; unfold single_lookup in H.
  destruct Hs as [Hn Hs].
  destruct (self e) as [names|b|names d x r|names|nm sl] eqn:Hc; try done.
  - (* Builtin_Environ *)
    subst parent. destruct (names !! atom_ id) as [p|] eqn:Hid; [|done].
    injection H as <- <-. split; [simpl; by rewrite Hc|].
    intros op. destruct p; simpl; [|done]. intros [= <-]. constructor.
  - (* Arg_Environ *)
    destruct Hs as (Hsp & -> & Hnames & Hd & Hx).
    destruct (names !! atom_ id) as [slot|] eqn:Hid.
    { injection H as <- <-. split; [simpl; by rewrite Hc|].
      intros op [= <-]. constructor. simpl. eauto. }
    destruct (d !! atom_ id) as [k|] eqn:Hk.
    { injection H as <- <-. split; [simpl; by rewrite Hc|].
      intros op [= <-]. constructor. simpl. rewrite Hc. eauto. }
    remember (lookup parent id) as r eqn:Hp in H; symmetry in Hp.
    destruct r as [[m0 p0]| | |]; try done.
    destruct (IH _ _ Hsp Hp) as [Hsp0 Hm0].
    pose proof (lookup_evolves _ _ _ _ Hp) as Hev.
    pose proof (evolves_env_maxslots _ _ Hev).
    pose proof (nl_count_evolves _ _ Hev).
    pose proof (env_scoped_counters _ Hsp0).
    assert (env_scoped (e :: p0)) as He0 by eauto.
    simpl in H.
    assert (forall expr, m0 = Op expr -> is_Constant expr = false ->
              env_scoped
                (mkScope (Arg_Environ names (<[atom_ id := length x]> d)
                            (x ++ [expr]) false)
                   (frame_nslots e) (frame_maxslots e) :: p0)
              /\ scoped (frame_nslots e) (length (x ++ [expr]))
                    (Nonlocal_Ref (Identifier id) (length x))) as Hcap.
    { intros expr -> _. split.
      - simpl. split; [done|]. repeat split; try done.
        + intros a i. rewrite lookup_insert, length_app. simpl.
          case_decide; [intros [= <-]; lia|].
          intros Hi%Hd. lia.
        + intros e0 [He0'| ->%list_elem_of_singleton]%elem_of_app.
          * eapply scoped_mono; eauto.
          * eapply scoped_mono; [by apply Hm0|done..].
      - constructor. rewrite length_app. simpl. lia. }
    destruct m0 as [expr|src].
    + destruct expr; simplify_eq;
        try (destruct (Hcap _ eq_refl eq_refl) as [? ?];
             split; [done|]; by intros op [= <-]).
      split; [done|]. intros op [= <-]. constructor.
    + simplify_eq. split; [done|]. by intros op.
  - (* Let_Environ *)
    destruct Hs as (Hsp & Hnames & Hle).
    destruct (names !! atom_ id) as [b|] eqn:Hid.
    { injection H as <- <-. split; [simpl; by rewrite Hc|].
      intros op [= <-]. constructor. simpl. eauto. }
    remember (lookup parent id) as r eqn:Hp in H; symmetry in Hp.
    destruct r as [[m0 p0]| | |]; try done.
    injection H as <- <-. split; [eauto|].
    destruct (IH _ _ Hsp Hp) as [Hsp0 Hm0].
    pose proof (evolves_env_nslots _ _ (lookup_evolves _ _ _ _ Hp)).
    intros op Hop. simpl. rewrite Hc.
    eapply scoped_mono; [by apply Hm0|lia|done].
  - (* For_Environ *)
    destruct Hs as (Hsp & Hsl & Hle).
    case_decide.
    { injection H as <- <-. split; [simpl; by rewrite Hc|].
      intros op [= <-]. constructor. simpl. eauto. }
    remember (lookup parent id) as r eqn:Hp in H; symmetry in Hp.
    destruct r as [[m0 p0]| | |]; try done.
    injection H as <- <-. split; [eauto|].
    destruct (IH _ _ Hsp Hp) as [Hsp0 Hm0].
    pose proof (evolves_env_nslots _ _ (lookup_evolves _ _ _ _ Hp)).
    intros op Hop. simpl. rewrite Hc.
    eapply scoped_mono; [by apply Hm0|lia|done].
Qed.

(** ** Phase 1 of the lambda and [let] analyses, for the slots *)

Lemma lambda_params_loop_bound args params slot p :
  lambda_params_loop args params slot = Ok p ->
  NoDup (element_names args) ->
  (forall a, a ∈ element_names args -> params !! a = None) ->
  size params = slot ->
  (forall a i, params !! a = Some i -> i < slot) ->
  size p = slot + length args
  /\ forall a i, p !! a = Some i -> i < slot + length args.
Proof.
  revert params slot. induction args as [|x args IH]; intros params slot H;
    simpl in H.
  - injection H as <-. simpl. intros _ _ <- Hb. split; [lia|].
    intros a i Hi. apply Hb in Hi. lia.
  - destruct (expr_ x) as [id| | | | | | | | | | | | | | | | | | |] eqn:Hx;
      try done.
    unfold element_names. simpl. rewrite Hx. simpl.
    fold (element_names args).
    intros [Hnin Hnd]%NoDup_cons Hfresh Hsize Hb.
    destruct (IH _ _ H Hnd) as [Hs1 Hb1].
    + intros a Ha. rewrite lookup_insert_ne; [apply Hfresh; set_solver|].
      intros <-. done.
    + rewrite map_size_insert_None; [lia|]. apply Hfresh. set_solver.
    + intros a i. rewrite lookup_insert. case_decide.
      * intros [= <-]. lia.
      * intros Hi%Hb. lia.
    + simpl. split; [lia|]. intros a i Hi%Hb1. lia.
Qed.

Lemma lambda_params_bound left_ params :
  lambda_params left_ = Ok params -> params_distinct left_ = true ->
  forall a i, params !! a = Some i -> i < size params.
Proof.
  destruct left_; try done; simpl.
  - intros [= <-] _ a i.
    rewrite map_size_insert_None, lookup_insert by apply lookup_empty.
    case_decide; [intros [= <-]; lia|]. by rewrite lookup_empty.
  - intros H Hnd%bool_decide_eq_true.
    destruct (lambda_params_loop_bound _ _ _ _ H Hnd) as [Hs Hb];
      try done.
    + intros a i Hi%Hb. lia.
Qed.

Lemma analyze_def_expression ph d :
  expression ph = true -> analyze_def ph = Ok (Some d) ->
  expression (definiens_ d) = true.
Proof.
  destruct ph; try done. simpl.
  rewrite !andb_true_iff. intros [[H1 H2] H3].
  destruct ph1; try done.
  - by intros [= <-].
  - destruct ph1_1; try done. intros [= <-]. simpl in *.
    by rewrite H1, H2, H3.
Qed.

Lemma elements_expression (args : list (Arg Phrase)) a :
  forallb (fun a => expression (expr_ a)) args = true -> a ∈ args ->
  expression (expr_ a) = true.
Proof.
  rewrite forallb_forall. intros H Ha. apply H. by apply list_elem_of_In.
Qed.

Lemma let_bindings_scoped args s0 b :
  let_bindings_loop args ∅ s0 = Ok b ->
  forallb (fun a => expression (expr_ a)) args = true ->
  forall a bd, b !! a = Some bd ->
    slot_ bd < s0 + size b /\ expression (phrase_ bd) = true.
Proof.
  intros H Hex a bd Hbd.
  destruct (let_bindings_loop_spec _ _ _ _ H)
    as (defs & Hall & Hnd & Hfr & Hb & Hsize).
  destruct (proj1 (Hb a bd) Hbd) as [Hbd'|(k & d & Hk & _ & Ebd)];
    [by rewrite lookup_empty in Hbd'|].
  rewrite Ebd. clear Hb Ebd.
  rewrite Hsize, map_size_empty. simpl. split.
  - apply lookup_lt_Some in Hk. lia.
  - destruct (Forall2_lookup_r _ _ _ _ _ Hall Hk) as (x & Hx & Hd).
    eapply analyze_def_expression; [|exact Hd].
    eapply elements_expression; [done|]. by eapply list_elem_of_lookup_2.
Qed.

Section Analyze_scoped.

Variable analyze : Phrase -> M Meaning.
Hypothesis analyze_scoped :
  forall ph env m env',
    expression ph = true -> env_scoped env ->
    analyze ph env = Ok (m, env') ->
    env_scoped env' /\ evolves env env'
    /\ forall op, m = Op op ->
         scoped (env_maxslots env') (nl_count env') op.

Lemma analyze_op_scoped ph env op env' :
  expression ph = true -> env_scoped env ->
  analyze_op analyze ph env = Ok (op, env') ->
  env_scoped env' /\ evolves env env'
  /\ scoped (env_maxslots env') (nl_count env') op.
Proof.
  intros Hex Hs H. unfold analyze_op in H. inv_M H.
  destruct (analyze_scoped _ _ _ _ Hex Hs H0) as (? & ? & Hop). auto.
Qed.

Ltac grow H :=
  pose proof (evolves_env_nslots _ _ H);
  pose proof (evolves_env_maxslots _ _ H);
  pose proof (nl_count_evolves _ _ H).

Ltac scoped_ops :=
  repeat match goal with
    | H : analyze_op analyze ?ph ?e = Ok (?x, ?e'), He : env_scoped ?e,
      Hx : expression ?ph = true |- _ =>
        let Hev := fresh "Hev" in
        destruct (analyze_op_scoped _ _ _ _ Hx He H) as (? & Hev & ?);
        grow Hev; clear H
    end.

Ltac evolves_chain :=
  first [ assumption
        | apply evolves_refl
        | eapply evolves_trans; [eassumption|evolves_chain] ].

Ltac weaken := eapply scoped_mono; [eassumption|lia|lia].

Ltac scoped_done :=
  split; [assumption|];
  split; [evolves_chain|];
  intros ? [= <-]; try constructor; try weaken.

Ltac expr_split H :=
  simpl in H; rewrite ?andb_true_iff in H; destruct_and?.

Lemma analyze_ops_scoped args env xs env' :
  forallb (fun a => expression (expr_ a)) args = true -> env_scoped env ->
  analyze_ops analyze args env = Ok (xs, env') ->
  env_scoped env' /\ evolves env env'
  /\ forall x, x ∈ xs -> scoped (env_maxslots env') (nl_count env') x.
Proof.
  revert env xs env'. induction args as [|a args IH];
    intros env xs env' Hex Hs H; simpl in H; inv_M H.
  - split; [done|]. split; [apply evolves_refl|]. by intros x ?%elem_of_nil.
  - expr_split Hex. scoped_ops.
    match goal with
    | H1 : analyze_ops analyze _ ?e = Ok _ |- _ =>
        edestruct (IH e) as (? & Hev' & Hxs); [eassumption..|]
    end.
    grow Hev'.
    split; [done|]. split; [evolves_chain|].
    intros x [->|Hx]%elem_of_cons; [weaken|auto].
Qed.

Lemma analyze_args_scoped args env xs env' :
  expression args = true -> env_scoped env ->
  analyze_args analyze args env = Ok (xs, env') ->
  env_scoped env' /\ evolves env env'
  /\ forall x, x ∈ xs -> scoped (env_maxslots env') (nl_count env') x.
Proof.
  intros Hex Hs H. unfold analyze_args in H.
  destruct args;
    try (simpl in Hex; eapply analyze_ops_scoped; eassumption).
  all: inv_M H; scoped_ops.
  all: split; [done|]; split; [done|].
  all: by intros x ->%list_elem_of_singleton.
Qed.

Lemma Record_Phrase_loop_scoped args fields env fields' env' :
  forallb (fun a => expression (expr_ a)) args = true -> env_scoped env ->
  (forall a x, fields !! a = Some x ->
     scoped (env_maxslots env) (nl_count env) x) ->
  Record_Phrase_loop analyze args fields env = Ok (fields', env') ->
  env_scoped env' /\ evolves env env'
  /\ forall a x, fields' !! a = Some x ->
       scoped (env_maxslots env') (nl_count env') x.
Proof.
  revert env fields env'. induction args as [|i args IH];
    intros env fields env' Hex Hs Hf H; simpl in H; inv_M H.
  - split; [done|]. split; [apply evolves_refl|]. done.
  - expr_split Hex. destruct a as [def|]; [|done]. inv_M H.
    match goal with
    | Hd : analyze_definition _ _ _ _ = Ok _ |- _ =>
        unfold analyze_definition in Hd;
        destruct (fields !! atom_ (name_ def)); [done|]; inv_M Hd
    end.
    match goal with
    | Hd : analyze_def _ = Ok (Some def), Hx : expression _ = true |- _ =>
        pose proof (analyze_def_expression _ _ Hx Hd)
    end.
    scoped_ops.
    match goal with
    | H1 : Record_Phrase_loop analyze _ _ ?e = Ok _ |- _ =>
        edestruct (IH e) as (? & Hev' & Hxs);
          [eassumption|eassumption| |exact H1|]
    end.
    + intros a x. rewrite lookup_insert. case_decide.
      * by intros [= <-].
      * intros Hx%Hf. weaken.
    + split; [done|]. split; [evolves_chain|]. done.
Qed.

Lemma let_values_loop_scoped items first_slot values env values' env' :
  (forall b, b ∈ items -> expression (phrase_ b.2) = true) ->
  env_scoped env ->
  (forall i e, values !! i = Some (Thunk e) ->
     scoped (env_maxslots env) (nl_count env) e) ->
  let_values_loop analyze items first_slot values env = Ok (values', env') ->
  env_scoped env' /\ evolves env env'
  /\ length values' = length values
  /\ forall i e, values' !! i = Some (Thunk e) ->
       scoped (env_maxslots env') (nl_count env') e.
Proof.
  revert env values env'. induction items as [|b items IH];
    intros env values env' Hex Hs Hv H; simpl in H; inv_M H.
  - split; [done|]. split; [apply evolves_refl|]. done.
  - pose proof (Hex b ltac:(left)). scoped_ops.
    match goal with
    | H1 : let_values_loop analyze _ _ _ ?e = Ok _ |- _ =>
        edestruct (IH e) as (? & Hev' & Hlen & Hxs);
          [|eassumption| |exact H1|]
    end.
    + intros b' Hb'. apply Hex. by right.
    + intros i e Hi.
      destruct (decide (i = slot_ b.2 - first_slot)) as [->|Hne].
      * apply list_lookup_insert_Some in Hi as [(_ & [= <-] & _)|[? _]];
          done.
      * rewrite list_lookup_insert_ne in Hi by done. apply Hv in Hi. weaken.
    + split; [done|]. split; [evolves_chain|].
      rewrite length_insert in Hlen. done.
Qed.

Lemma binary_scoped mk l r env m env' :
  (forall n k a b, scoped n k a -> scoped n k b -> scoped n k (mk a b)) ->
  expression l = true -> expression r = true -> env_scoped env ->
  binary analyze mk l r env = Ok (m, env') ->
  env_scoped env' /\ evolves env env'
  /\ forall op, m = Op op ->
       scoped (env_maxslots env') (nl_count env') op.
Proof.
  intros Hmk Hl Hr Hs H. unfold binary in H. inv_M H. scoped_ops.
  split; [done|]. split; [evolves_chain|].
  intros ? [= <-]. apply Hmk; [weaken|done].
Qed.

Lemma evolves_set_maxslots env env' n :
  evolves env env' -> env_maxslots env <= n ->
  evolves env (set_maxslots n env').
Proof.
  intros H. destruct H as [|s s' env env' Hs H]; simpl; intros Hn;
    constructor; auto.
  unfold scope_evolves in *. simpl in *. destruct Hs as (? & ? & ?). done.
Qed.

Lemma sequence_analyze_scoped this args env m env' :
  forallb (fun a => expression (expr_ a)) args = true -> env_scoped env ->
  sequence_analyze analyze this args env = Ok (m, env') ->
  env_scoped env' /\ evolves env env'
  /\ forall op, m = Op op ->
       scoped (env_maxslots env') (nl_count env') op.
Proof.
  intros Hex Hs H.
  assert (forall xs e',
            analyze_ops analyze args env = Ok (xs, e') ->
            env_scoped e' /\ evolves env e'
            /\ scoped (env_maxslots e') (nl_count e')
                 (Sequence_Expr this xs)) as Hseq.
  { intros xs e' Hxs.
    destruct (analyze_ops_scoped _ _ _ _ Hex Hs Hxs) as (? & ? & ?).
    split; [done|]. split; [done|]. by constructor. }
  unfold sequence_analyze in H.
  destruct args as [|a [|]]; try case_decide.
  2: { expr_split Hex. inv_M H. scoped_ops. scoped_done. }
  all: inv_M H.
  all: match goal with
       | Hxs : analyze_ops _ _ _ = Ok _ |- _ =>
           destruct (Hseq _ _ Hxs) as (? & ? & ?)
       end.
  all: split; [done|]; split; [done|]; by intros ? [= <-].
Qed.

Lemma Lambda_Phrase_analyze_scoped this left_ right_ env m env' :
  params_distinct left_ = true -> expression right_ = true ->
  env_scoped env ->
  Lambda_Phrase_analyze analyze this left_ right_ false env = Ok (m, env') ->
  env_scoped env' /\ evolves env env'
  /\ forall op, m = Op op ->
       scoped (env_maxslots env') (nl_count env') op.
Proof.
  intros Hnd Hex Hs H. unfold Lambda_Phrase_analyze in H. inv_M H.
  destruct a0 as [expr env2]. simpl in *. inv_M H.
  match goal with
  | Hb : analyze_op _ _ (?child :: _) = Ok _ |- _ =>
      assert (env_scoped (child :: env0)) as Hchild;
        [|destruct (analyze_op_scoped _ _ _ _ Hex Hchild Hb)
            as (Hs2 & Hev & Hbody)]
  end.
  { simpl. split; [done|]. repeat split; try done.
    - eapply lambda_params_bound; eauto.
    - intros e He. by apply elem_of_nil in He. }
  inversion Hev as [|? ? ? ? (Hn & Hm & Hc) Hrest]; subst. simpl in *.
  destruct Hs2 as [Hle Hs2].
  destruct (self env2) as [| |names d x r| |] eqn:Hc2; try done.
  destruct Hc as (<- & <- & _ & _).
  destruct Hs2 as (Hs' & _ & _ & _ & Hx).
  split; [done|]. split; [done|]. intros op [= <-].
  unfold nonlocal_exprs_of. rewrite Hc2.
  constructor; [lia|done|done].
Qed.

Lemma For_Phrase_analyze_scoped this args body env m env' :
  forallb (fun a => expression (expr_ a)) (args_ args) = true ->
  expression body = true -> env_scoped env ->
  For_Phrase_analyze analyze this args body env = Ok (m, env') ->
  env_scoped env' /\ evolves env env'
  /\ forall op, m = Op op ->
       scoped (env_maxslots env') (nl_count env') op.
Proof.
  intros Hargs Hex Hs H. unfold For_Phrase_analyze in H.
  destruct (args_ args) as [|a [|]] eqn:E; try done.
  destruct (expr_ a) eqn:Ea; try done.
  destruct p1; try done.
  expr_split Hargs.
  match goal with
  | Hx : expression (expr_ a) = true |- _ =>
      rewrite Ea in Hx; simpl in Hx; rewrite ?andb_true_iff in Hx
  end.
  destruct_and?.
  inv_M H. destruct a1 as [body' body_env]. simpl in *. simplify_eq.
  scoped_ops.
  match goal with
  | Hb : analyze_op _ body (?child :: ?e) = Ok (_, _ :: ?e') |- _ =>
      assert (env_scoped (child :: e)) as Hchild;
        [|destruct (analyze_op_scoped _ _ _ _ Hex Hchild Hb)
            as (Hs2 & Hev2 & Hbody);
          rename e' into env2]
  end.
  { simpl. split; [lia|]. split; [done|]. lia. }
  inversion Hev2 as [|? ? ? ? (Hn & Hm & Hc) Hrest]; subst. simpl in *.
  destruct Hs2 as [Hle Hs2].
  destruct (self body_env) as [| | | |nm sl] eqn:Hc2; try done.
  injection Hc as <- <-.
  destruct Hs2 as (Hs' & Hsl & Hle').
  grow Hrest.
  assert (env2 <> []) as Hne by (intros ->; done).
  split; [apply env_scoped_set_maxslots; [done|lia]|].
  split.
  { eapply evolves_trans; [eassumption|].
    apply evolves_set_maxslots; [done|]. lia. }
  intros op [= <-].
  rewrite env_maxslots_set_maxslots, nl_count_set_maxslots by done.
  constructor; [lia|weaken|done].
Qed.

Lemma Let_Phrase_analyze_scoped this args body env m env' :
  forallb (fun a => expression (expr_ a)) (args_ args) = true ->
  expression body = true -> env_scoped env ->
  Let_Phrase_analyze analyze this args body env = Ok (m, env') ->
  env_scoped env' /\ evolves env env'
  /\ forall op, m = Op op ->
       scoped (env_maxslots env') (nl_count env') op.
Proof.
  intros Hargs Hex Hs H. unfold Let_Phrase_analyze in H.
  inv_M H. destruct a0 as [[values body'] env2]. simpl in *. simplify_eq.
  match goal with
  | Hb : let_bindings_loop _ _ _ = Ok ?b |- _ =>
      pose proof (let_bindings_scoped _ _ _ Hb Hargs) as Hbind;
      rename b into bindings
  end.
  assert (forall b, b ∈ Atom_Map_items bindings ->
            expression (phrase_ b.2) = true) as Hitems.
  { intros [x bd] Hb%elem_of_map_to_list. by destruct (Hbind _ _ Hb). }
  match goal with
  | Hv : let_values_loop _ _ _ _ (?child :: ?e) = Ok (_, ?e1) |- _ =>
      assert (forall i x, replicate (size bindings) Null !! i
                          = Some (Thunk x) ->
                scoped (env_maxslots (child :: e)) (nl_count (child :: e)) x)
        as Hnull by (by intros i x [[=] _]%lookup_replicate);
      assert (env_scoped (child :: e)) as Hchild;
        [|destruct (let_values_loop_scoped _ _ _ _ _ _ Hitems Hchild Hnull Hv)
            as (Hs1 & Hev1 & Hlen & Hvalues)]
  end.
  { simpl. split; [lia|]. split; [done|]. split; [|lia].
    intros x bd Hbd. by destruct (Hbind _ _ Hbd). }
  scoped_ops.
  match goal with
  | Hev2 : evolves ?e1 (env2 :: ?e') |- _ =>
      pose proof (evolves_trans _ _ _ Hev1 Hev2) as Hchain;
      rename e' into env3
  end.
  match goal with
  | Hs2 : env_scoped (env2 :: env3) |- _ => destruct Hs2 as [Hle Hscope]
  end.
  inversion Hchain as [|? ? ? ? (Hn & Hm & Hc) Hrest]; subst. simpl in *.
  destruct (self env2) as [| | |names|] eqn:Hc2; try done.
  injection Hc as <-.
  destruct Hscope as (Hs' & Hsl & Hle').
  grow Hrest.
  assert (env3 <> []) as Hne by (intros ->; done).
  rewrite length_replicate in Hlen.
  split; [apply env_scoped_set_maxslots; [done|lia]|].
  split; [apply evolves_set_maxslots; [done|]; lia|].
  intros op [= <-].
  rewrite env_maxslots_set_maxslots, nl_count_set_maxslots by done.
  constructor; [lia| |done].
  intros i e Hi. apply Hvalues in Hi. weaken.
Qed.

Lemma analyze_phrase_scoped ph env m env' :
  expression ph = true -> env_scoped env ->
  analyze_phrase analyze ph env = Ok (m, env') ->
  env_scoped env' /\ evolves env env'
  /\ forall op, m = Op op ->
       scoped (env_maxslots env') (nl_count env') op.
Proof.
  intros Hex Hs H. destruct ph; simpl in H; try done.
  - (* Identifier *)
    unfold Identifier_analyze in H.
    destruct (lookup_scoped _ _ _ _ Hs H) as [Hs' Hm].
    pose proof (env_scoped_counters _ Hs').
    split; [done|]. split; [eapply lookup_evolves, H|].
    intros op Hop. eapply scoped_mono; [by apply Hm|done..].
  - (* Numeral *)
    unfold Numeral_analyze in H. inv_M H. scoped_done.
  - (* String_Phrase *)
    unfold String_Phrase_analyze in H. inv_M H. scoped_done.
  - (* Unary_Phrase *)
    unfold Unary_Phrase_analyze in H. expr_split Hex.
    destruct (kind op_); inv_M H; scoped_ops; scoped_done.
  - (* Binary_Phrase *)
    unfold Binary_Phrase_analyze in H. expr_split Hex.
    destruct (kind op_);
      try (eapply binary_scoped; [| | | |exact H];
           [by constructor|assumption..]).
    destruct ph2; try done.
    + inv_M H. scoped_ops. scoped_done.
    + destruct (args_ brackets) as [|a [|]] eqn:E; try done.
      case_decide; [|done].
      match goal with
      | Hx : expression (List_Phrase _) = true |- _ =>
          simpl in Hx; rewrite E in Hx; expr_split Hx
      end.
      inv_M H. scoped_ops. scoped_done.
  - (* Lambda_Phrase *)
    expr_split Hex.
    match goal with
    | Hr : negb recursive_ = true |- _ =>
        apply negb_true_iff in Hr; subst recursive_
    end.
    eapply Lambda_Phrase_analyze_scoped; eauto.
  - (* Semicolon_Phrase *)
    unfold Semicolon_Phrase_analyze in H.
    destruct sargs_ as [|a [|]]; try done.
    expr_split Hex. inv_M H. scoped_ops. scoped_done.
  - (* Comma_Phrase *)
    eapply sequence_analyze_scoped; eauto.
  - (* Paren_Phrase *)
    eapply sequence_analyze_scoped; eauto.
  - (* List_Phrase *)
    unfold List_Phrase_analyze in H. inv_M H.
    match goal with
    | Hxs : analyze_ops _ _ _ = Ok _ |- _ =>
        destruct (analyze_ops_scoped _ _ _ _ Hex Hs Hxs) as (? & ? & ?)
    end.
    split; [done|]. split; [done|]. intros ? [= <-]. by constructor.
  - (* Record_Phrase *)
    unfold Record_Phrase_analyze in H. inv_M H.
    assert (forall (i : Atom) x, (∅ : gmap Atom Operation) !! i = Some x ->
              scoped (env_maxslots env) (nl_count env) x) as Hempty.
    { intros i x. by rewrite lookup_empty. }
    match goal with
    | Hxs : Record_Phrase_loop _ _ _ _ = Ok _ |- _ =>
        destruct (Record_Phrase_loop_scoped (args_ braces) ∅ _ _ _ Hex Hs
                    Hempty Hxs) as (? & ? & ?)
    end.
    split; [done|]. split; [done|]. intros ? [= <-]. by constructor.
  - (* Call_Phrase *)
    unfold Call_Phrase_analyze in H. expr_split Hex. inv_M H.
    match goal with
    | Hf : analyze ?p _ = Ok _, Hx : expression ?p = true |- _ =>
        destruct (analyze_scoped _ _ _ _ Hx Hs Hf) as (Hs1 & Hev1 & Hfun)
    end.
    destruct a as [f|src]; inv_M H.
    all: match goal with
         | Ha : analyze_args _ ?p _ = Ok _, Hx : expression ?p = true |- _ =>
             destruct (analyze_args_scoped _ _ _ _ Hx Hs1 Ha)
               as (Hs2 & Hev2 & Hargv)
         end.
    all: grow Hev2.
    all: split; [done|]; split; [evolves_chain|]; intros ? [= <-].
    all: constructor; try done.
    eapply scoped_mono; [by apply Hfun|lia..].
  - (* If_Phrase *)
    unfold If_Phrase_analyze in H. expr_split Hex.
    destruct else_expr_; inv_M H; scoped_ops; scoped_done.
  - (* For_Phrase *)
    expr_split Hex. eapply For_Phrase_analyze_scoped; eauto.
  - (* Let_Phrase *)
    expr_split Hex. eapply Let_Phrase_analyze_scoped; eauto.
  - (* Range_Phrase *)
    unfold Range_Phrase_analyze in H. expr_split Hex.
    destruct step_; inv_M H; scoped_ops; scoped_done.
    + by intros ? [= <-].
    + by intros ? [=].
Qed.

End Analyze_scoped.

Lemma analyze_scoped_fuel fuel ph env m env' :
  expression ph = true -> env_scoped env ->
  analyze fuel ph env = Ok (m, env') ->
  env_scoped env' /\ evolves env env'
  /\ forall op, m = Op op ->
       scoped (env_maxslots env') (nl_count env') op.
Proof.
  revert ph env m env'. induction fuel as [|fuel IH];
    intros ph env m env' Hex Hs H; [done|].
  simpl in H. eapply analyze_phrase_scoped; eauto.
Qed.

(** Property X10.  Take a phrase with no module in it, in which no
    lambda is marked recursive or has two parameters of the same name,
    and analyze it in a chain of [let], [for] and lambda scopes on top
    of a builtin namespace.  The operation it becomes stays in its
    frame: every [Arg_Ref] and [Let_Ref], and the slots of every
    [Let_Expr] and [For_Expr], are below the [frame_maxslots] that the
    environment ends with; every [Nonlocal_Ref] is the index of a
    capture of the enclosing lambda; every [Lambda_Expr] in it has
    [nargs <= nslots], and its body stays below its own [nslots] and
    within its own list of nonlocals; and there is no reference into a
    module.  The chain of scopes is left in order for the next
    analysis. *)
Theorem analysis_stays_in_frame fuel ph env op env' :
  expression ph = true -> env_scoped env ->
  analyze fuel ph env = Ok (Op op, env') ->
  scoped (env_maxslots env') (nl_count env') op /\ env_scoped env'.
Proof.
  intros Hex Hs H.
  destruct (analyze_scoped_fuel _ _ _ _ _ Hex Hs H) as (Hs' & _ & Hop).
  split; [by apply Hop|done].
Qed.

Lemma analysis_stays_in_frame_witness :
  expression Example_capture.lambda = true
  /\ env_scoped Example_capture.env2
  /\ analyze 4 Example_capture.lambda Example_capture.env2
     = Ok (Op Example_capture.lambda_meaning, Example_capture.env2)
  /\ scoped 1 0 Example_capture.lambda_meaning
  /\ env_scoped Example_capture.env2.
Proof.
  assert (expression Example_capture.lambda = true) as Hex
    by (vm_compute; reflexivity).
  assert (env_scoped Example_capture.env2) as Hs.
  { simpl. split; [lia|]. split; [split; [lia|reflexivity]|].
    split; [|lia]. intros a b Hb. unfold Example_capture.bindings in Hb.
    apply lookup_insert_Some in Hb as [[_ <-]|[_ Hb]]; [vm_compute; lia|].
    by rewrite lookup_empty in Hb. }
  assert (analyze 4 Example_capture.lambda Example_capture.env2
          = Ok (Op Example_capture.lambda_meaning, Example_capture.env2))
    as H by (vm_compute; reflexivity).
  split; [exact Hex|]. split; [exact Hs|]. split; [exact H|].
  exact (analysis_stays_in_frame 4 _ _ _ _ Hex Hs H).
Defined.

(** ** Free identifiers *)

Lemma visible_cons s env : visible (s :: env) = scope_names s ∪ visible env.
Proof. done. Qed.

Lemma keeps_names_refl env : keeps_names env env.
Proof. by intros k. Qed.

Lemma keeps_names_trans e1 e2 e3 :
  keeps_names e1 e2 -> keeps_names e2 e3 -> keeps_names e1 e3.
Proof. intros H1 H2 k. by rewrite H2, H1. Qed.

Lemma keeps_names_visible env env' :
  keeps_names env env' -> visible env' = visible env.
Proof. intros H. apply (H 0). Qed.

Lemma keeps_names_cons s s' p p' :
  scope_names s' ∪ visible p' = scope_names s ∪ visible p ->
  keeps_names p p' -> keeps_names (s :: p) (s' :: p').
Proof. intros Hs Hp [|k]; simpl; [by rewrite !visible_cons|apply Hp]. Qed.

Lemma keeps_names_tail s s' p p' :
  keeps_names (s :: p) (s' :: p') -> keeps_names p p'.
Proof. intros H k. apply (H (S k)). Qed.

Lemma keeps_names_set_maxslots n env : keeps_names env (set_maxslots n env).
Proof. destruct env as [|s p]; [done|]. by intros [|k]. Qed.

Lemma resolves_ret {A} (a : A) : resolves ∅ (ret a).
Proof.
  intros env b env' H. inv_M H. split; [set_solver|apply keeps_names_refl].
Qed.

Lemma resolves_throw {A} F ph msg : resolves F (@throw A ph msg).
Proof. intros env b env' H. destruct (throw_Ok _ _ _ _ H). Qed.

Lemma resolves_get_env : resolves ∅ get_env.
Proof.
  intros env b env' H. inv_M H. split; [set_solver|apply keeps_names_refl].
Qed.

Lemma resolves_to_operation m : resolves ∅ (to_operation m).
Proof.
  intros env b env' H. inv_M H. split; [set_solver|apply keeps_names_refl].
Qed.

Lemma resolves_set_maxslots {A} (a : A) n :
  resolves ∅ (fun env => Ok (a, set_maxslots n env)).
Proof.
  intros env b env' [= <- <-].
  split; [set_solver|apply keeps_names_set_maxslots].
Qed.

Lemma resolves_mono {A} (F F' : gset Atom) (c : M A) :
  F' ⊆ F -> resolves F c -> resolves F' c.
Proof.
  intros HF Hc env a env' H. destruct (Hc _ _ _ H). split; [set_solver|done].
Qed.

Lemma resolves_bind {A B} F1 F2 (c : M A) (k : A -> M B) :
  resolves F1 c -> (forall a, resolves F2 (k a)) ->
  resolves (F1 ∪ F2) (bind c k).
Proof.
  intros Hc Hk env b env' H. inv_M H.
  destruct (Hc _ _ _ H0) as [H1 Hk1]. destruct (Hk _ _ _ _ H) as [H2 Hk2].
  rewrite (keeps_names_visible _ _ Hk1) in H2.
  split; [set_solver|eauto using keeps_names_trans].
Qed.

Lemma resolves_lift {A B} F (r : Result A) (k : A -> M B) :
  (forall a, r = Ok a -> resolves F (k a)) -> resolves F (bind (lift r) k).
Proof.
  intros Hk env b env' H. inv_M H. eapply Hk; eauto.
Qed.

Lemma resolves_in_scope {A} F child (c : M A) :
  resolves F c -> resolves (F ∖ scope_names child) (in_scope child c).
Proof.
  intros Hc env a env' H. inv_M H. destruct (Hc _ _ _ H) as [HF Hk].
  rewrite visible_cons in HF.
  split; [set_solver|eauto using keeps_names_tail].
Qed.

Lemma resolves_in_scope_names {A} F N child (c : M A) :
  scope_names child = N ->
  resolves F c -> resolves (F ∖ N) (in_scope child c).
Proof. intros <-. apply resolves_in_scope. Qed.

(** [Environ::lookup] finds only names that are visible. *)
Lemma lookup_resolves id : resolves {[atom_ id]} (fun env => lookup env id).
Proof.
  intros env. induction env as [|e parent IH]; intros m env' H; [done|].
  simpl in H. unfold single_lookup in H.
  assert (forall m0 p0, lookup parent id = Ok (m0, p0) ->
            {[atom_ id]} ⊆ visible (e :: parent)
            /\ keeps_names (e :: parent) (e :: p0)) as Hup.
  { intros m0 p0 Hp. destruct (IH _ _ Hp) as [Hin Hk]. split.
    - rewrite visible_cons. set_solver.
    - apply keeps_names_cons; [|done].
      by rewrite (keeps_names_visible _ _ Hk). }
  assert (forall X, atom_ id ∈ X -> scope_names e = X ->
            {[atom_ id]} ⊆ visible (e :: parent)) as Hhere.
  { intros X Hin HX. rewrite visible_cons, HX. set_solver. }
  destruct (self e) as [names|b|names d x r|names|nm sl] eqn:Hc.
  - (* Builtin_Environ *)
    destruct (names !! atom_ id) as [p|] eqn:Hid.
    + injection H as <- <-. split; [|apply keeps_names_refl].
      eapply Hhere; [|unfold scope_names; by rewrite Hc].
      by apply elem_of_dom.
    + remember (lookup parent id) as r eqn:Hp in H; symmetry in Hp.
      destruct r as [[m0 p0]| | |]; try done. injection H as <- <-. eauto.
  - (* Bindings_Environ *)
    destruct (dictionary_ b !! atom_ id) as [slot|] eqn:Hid.
    + assert (env' = e :: parent) as ->
        by (destruct (is_recursive_function b slot); by simplify_eq).
      split; [|apply keeps_names_refl].
      eapply Hhere; [|unfold scope_names; by rewrite Hc].
      by apply elem_of_dom.
    + remember (lookup parent id) as r eqn:Hp in H; symmetry in Hp.
      destruct r as [[m0 p0]| | |]; try done. injection H as <- <-. eauto.
  - (* Arg_Environ *)
    destruct (names !! atom_ id) as [slot|] eqn:Hid.
    { injection H as <- <-. split; [|apply keeps_names_refl].
      eapply Hhere; [|unfold scope_names; by rewrite Hc].
      apply elem_of_union_l. by apply elem_of_dom. }
    destruct r.
    { remember (lookup parent id) as r eqn:Hp in H; symmetry in Hp.
      destruct r as [[m0 p0]| | |]; try done. injection H as <- <-. eauto. }
    destruct (d !! atom_ id) as [k|] eqn:Hk.
    { injection H as <- <-. split; [|apply keeps_names_refl].
      eapply Hhere; [|unfold scope_names; by rewrite Hc].
      apply elem_of_union_r. by apply elem_of_dom. }
    remember (lookup parent id) as r eqn:Hp in H; symmetry in Hp.
    destruct r as [[m0 p0]| | |]; try done.
    destruct (Hup _ _ Hp) as [Hin Hkeep]. split; [done|].
    destruct (IH _ _ Hp) as [Hin0 Hk0].
    pose proof (keeps_names_visible _ _ Hk0) as Hv.
    simpl in H.
    assert (env' = e :: p0
            \/ env' = mkScope (Arg_Environ names (<[atom_ id := length x]> d)
                                 (x ++ [match m0 with
                                        | Op expr => expr
                                        | _ => Constant (Identifier id) Null
                                        end]) false)
                        (frame_nslots e) (frame_maxslots e) :: p0) as [->| ->].
    { destruct m0 as [[]|]; simplify_eq; auto. }
    + done.
    + apply keeps_names_cons; [|done].
      unfold scope_names. simpl. rewrite Hc, Hv, dom_insert_L. set_solver.
  - (* Let_Environ *)
    destruct (names !! atom_ id) as [b|] eqn:Hid.
    + injection H as <- <-. split; [|apply keeps_names_refl].
      eapply Hhere; [|unfold scope_names; by rewrite Hc].
      by apply elem_of_dom.
    + remember (lookup parent id) as r eqn:Hp in H; symmetry in Hp.
      destruct r as [[m0 p0]| | |]; try done. injection H as <- <-. eauto.
  - (* For_Environ *)
    case_decide.
    + injection H as <- <-. split; [|apply keeps_names_refl].
      eapply Hhere; [|unfold scope_names; by rewrite Hc]. set_solver.
    + remember (lookup parent id) as r eqn:Hp in H; symmetry in Hp.
      destruct r as [[m0 p0]| | |]; try done. injection H as <- <-. eauto.
Qed.

Lemma lambda_params_loop_dom args params slot p :
  lambda_params_loop args params slot = Ok p ->
  dom p = dom params ∪ list_to_set (element_names args).
Proof.
  revert params slot. induction args as [|x args IH]; intros params slot H;
    simpl in H.
  - injection H as <-. set_solver.
  - unfold element_names. simpl. fold (element_names args).
    destruct (expr_ x); try done. simpl.
    rewrite (IH _ _ H), dom_insert_L. set_solver.
Qed.

Lemma lambda_params_dom left_ params :
  lambda_params left_ = Ok params -> dom params = param_names left_.
Proof.
  destruct left_; try done; simpl.
  - intros [= <-]. rewrite dom_insert_L. set_solver.
  - intros H. rewrite (lambda_params_loop_dom _ _ _ _ H). set_solver.
Qed.

Lemma analyze_def_free ph d :
  analyze_def ph = Ok (Some d) -> free (definiens_ d) = free ph.
Proof.
  destruct ph; try done. simpl.
  destruct ph1; try done.
  - by intros [= <-].
  - destruct ph1_1; try done. by intros [= <-].
Qed.

Lemma free_set_recursive ph : free (set_recursive ph) = free ph.
Proof. by destruct ph. Qed.

Lemma def_names_cons ph phs :
  def_names (ph :: phs)
  = match analyze_def ph with
    | Ok (Some d) => {[def_atom d]} ∪ def_names phs
    | _ => def_names phs
    end.
Proof.
  unfold def_names. simpl. by destruct (analyze_def ph) as [[d|]| | |].
Qed.

Lemma let_bindings_loop_free args b0 s b :
  let_bindings_loop args b0 s = Ok b ->
  dom b = dom b0 ∪ def_names (map expr_ args)
  /\ b0 ⊆ b
  /\ forall x, x ∈ args ->
       exists a bd, b !! a = Some bd /\ free (phrase_ bd) = free (expr_ x).
Proof.
  revert b0 s. induction args as [|x args IH]; intros b0 s H; simpl in H.
  - injection H as <-. split; [set_solver|]. split; [done|].
    by intros x ?%elem_of_nil.
  - apply Result_bind_Ok in H as ([d|] & Hd & H); [|done].
    destruct (b0 !! atom_ (name_ d)) eqn:Hfresh; [done|].
    destruct (IH _ _ H) as (Hdom & Hsub & Hb). split; [|split].
    + simpl. rewrite def_names_cons, Hd, Hdom, dom_insert_L.
      unfold def_atom. set_solver.
    + etrans; [|exact Hsub]. by apply insert_subseteq.
    + intros y [->|Hy]%elem_of_cons; [|by apply Hb].
      eexists _, _. split.
      * eapply lookup_weaken; [|exact Hsub]. apply lookup_insert_eq.
      * simpl. by apply analyze_def_free.
Qed.

Lemma module_fields_loop_free stmts f0 el0 f el :
  module_fields_loop stmts f0 el0 = Ok (f, el) ->
  dom (dictionary_ f) = dom (dictionary_ f0) ∪ def_names stmts
  /\ (forall ph, ph ∈ slot_phrases_ f0 ++ el0 -> ph ∈ slot_phrases_ f ++ el)
  /\ forall st, st ∈ stmts ->
       exists ph, ph ∈ slot_phrases_ f ++ el /\ free ph = free st.
Proof.
  revert f0 el0. induction stmts as [|st stmts IH]; intros f0 el0 H;
    simpl in H.
  - injection H as <- <-. split; [set_solver|]. split; [done|].
    by intros x ?%elem_of_nil.
  - apply Result_bind_Ok in H as ([d|] & Hd & H).
    + apply Result_bind_Ok in H as (f1 & Hf1 & H).
      unfold add_definition in Hf1.
      destruct (dictionary_ f0 !! atom_ (name_ d)); [done|].
      injection Hf1 as <-. destruct (IH _ _ H) as (Hdom & Hold & Hph).
      simpl in *. split; [|split].
      * rewrite def_names_cons, Hd, Hdom, dom_insert_L.
        unfold def_atom. set_solver.
      * intros ph Hin. apply Hold. set_solver.
      * intros y [->|Hy]%elem_of_cons; [|by apply Hph].
        exists (set_recursive (definiens_ d)). split.
        -- apply Hold. set_solver.
        -- rewrite free_set_recursive. by apply analyze_def_free.
    + destruct (IH _ _ H) as (Hdom & Hold & Hph). split; [|split].
      * by rewrite def_names_cons, Hd, Hdom.
      * intros ph Hin. apply Hold. set_solver.
      * intros y [->|Hy]%elem_of_cons; [|by apply Hph].
        exists st. split; [|done]. apply Hold. set_solver.
Qed.

Lemma union_list_map_subseteq {A B} (f : A -> gset Atom) (g : B -> gset Atom)
    (xs : list A) (ys : list B) :
  (forall x, x ∈ xs -> exists y, y ∈ ys /\ g y = f x) ->
  ⋃ (map f xs) ⊆ ⋃ (map g ys).
Proof.
  intros H a (X & HX & Ha)%elem_of_union_list.
  apply list_elem_of_fmap in HX as (x & -> & Hx).
  destruct (H x Hx) as (y & Hy & Hg).
  apply elem_of_union_list. exists (g y). split; [|by rewrite Hg].
  apply list_elem_of_fmap. eauto.
Qed.

Lemma free_Module_Phrase body :
  free (Module_Phrase body)
  = ⋃ (map free (Statements body)) ∖ def_names (Statements body).
Proof.
  destruct body; simpl; try (f_equal; set_solver).
  by rewrite map_map.
Qed.

Section Analyze_resolves.

Variable analyze : Phrase -> M Meaning.
Hypothesis analyze_resolves : forall ph, resolves (free ph) (analyze ph).

Lemma resolves_analyze_op ph : resolves (free ph) (analyze_op analyze ph).
Proof.
  unfold analyze_op. eapply resolves_mono;
    [|apply resolves_bind; [apply analyze_resolves|
                            intros m; apply resolves_to_operation]].
  set_solver.
Qed.

Lemma resolves_get_bind {B} F (k : Environ -> M B) :
  (forall env, resolves F (k env)) -> resolves F (bind get_env k).
Proof. intros Hk env b env' H. inv_M H. eapply Hk; eauto. Qed.

Ltac res_step :=
  lazymatch goal with
  | |- resolves _ (ret _) => apply resolves_ret
  | |- resolves _ (throw _ _) => apply resolves_throw
  | |- resolves _ get_env => apply resolves_get_env
  | |- resolves _ (analyze_op _ _) => apply resolves_analyze_op
  | |- resolves _ (bind _ _) => eapply resolves_bind; [|intros ?]
  end.

Ltac res_steps := eapply resolves_mono; [|repeat res_step]; try set_solver.

Lemma resolves_analyze_ops args :
  resolves (⋃ (map (fun a => free (expr_ a)) args))
    (analyze_ops analyze args).
Proof.
  induction args as [|a args IH]; simpl; [apply resolves_ret|].
  eapply resolves_mono;
    [|eapply resolves_bind;
        [apply resolves_analyze_op|
         intros x; eapply resolves_bind;
           [apply IH|intros xs; apply resolves_ret]]].
  set_solver.
Qed.

Lemma resolves_analyze_phrases phs :
  resolves (⋃ (map free phs)) (analyze_phrases analyze phs).
Proof.
  induction phs as [|ph phs IH]; simpl; [apply resolves_ret|].
  eapply resolves_mono;
    [|eapply resolves_bind;
        [apply resolves_analyze_op|
         intros x; eapply resolves_bind;
           [apply IH|intros xs; apply resolves_ret]]].
  set_solver.
Qed.

Lemma resolves_analyze_values phs :
  resolves (⋃ (map free phs)) (analyze_values analyze phs).
Proof.
  induction phs as [|ph phs IH]; simpl; [apply resolves_ret|].
  eapply resolves_mono;
    [|eapply resolves_bind;
        [apply resolves_analyze_op|
         intros x; eapply (resolves_bind ∅);
           [|intros v; eapply resolves_bind;
               [apply IH|intros xs; apply resolves_ret]]]].
  { set_solver. }
  destruct (isa_Lambda_Phrase ph); [|apply resolves_ret].
  destruct x; try apply resolves_ret; by intros ? ? ? ?.
Qed.

Lemma resolves_let_values_loop items first_slot values :
  resolves (⋃ (map (fun b : Atom * Binding => free (phrase_ b.2)) items))
    (let_values_loop analyze items first_slot values).
Proof.
  revert values. induction items as [|b items IH]; intros values; simpl;
    [apply resolves_ret|].
  eapply resolves_mono;
    [|eapply resolves_bind;
        [apply resolves_analyze_op|intros x; apply IH]].
  set_solver.
Qed.

Lemma resolves_sequence_analyze this args :
  resolves (⋃ (map (fun a => free (expr_ a)) args))
    (sequence_analyze analyze this args).
Proof.
  assert (resolves (⋃ (map (fun a => free (expr_ a)) args))
            (let* xs := analyze_ops analyze args in
             ret (Op (Sequence_Expr this xs)))) as Hseq.
  { eapply resolves_mono;
      [|eapply resolves_bind;
          [apply resolves_analyze_ops|intros xs; apply resolves_ret]].
    set_solver. }
  unfold sequence_analyze. destruct args as [|a [|]]; try exact Hseq.
  case_decide; [|exact Hseq]. simpl. res_steps.
Qed.

Lemma resolves_Record_Phrase_loop args fields :
  resolves (⋃ (map (fun a => free (expr_ a)) args))
    (Record_Phrase_loop analyze args fields).
Proof.
  revert fields. induction args as [|i args IH]; intros fields; simpl;
    [apply resolves_ret|].
  apply resolves_lift. intros [def|] Hd; [|apply resolves_throw].
  eapply resolves_mono; [|eapply resolves_bind; [|intros f; apply IH]].
  2: { unfold analyze_definition.
       destruct (fields !! atom_ (name_ def)); [apply resolves_throw|].
       res_steps. }
  rewrite (analyze_def_free _ _ Hd). set_solver.
Qed.

Lemma resolves_analyze_args args :
  resolves (free args) (analyze_args analyze args).
Proof.
  unfold analyze_args. destruct args; try res_steps.
  apply resolves_analyze_ops.
Qed.

Lemma resolves_binary mk l r :
  resolves (free l ∪ free r) (binary analyze mk l r).
Proof. unfold binary. res_steps. Qed.

Lemma analyze_phrase_resolves ph :
  resolves (free ph) (analyze_phrase analyze ph).
Proof.
  destruct ph; cbn [analyze_phrase]; [simpl..|idtac|simpl].
  - (* Identifier *) apply lookup_resolves.
  - apply resolves_ret.
  - apply resolves_ret.
  - by intros ? ? ? ?.
  - (* Unary_Phrase *)
    unfold Unary_Phrase_analyze. destruct (kind op_); res_steps.
  - (* Binary_Phrase *)
    unfold Binary_Phrase_analyze.
    destruct (kind op_); try apply resolves_binary.
    destruct ph2; try apply resolves_throw.
    + res_steps.
    + destruct (args_ brackets) as [|a [|]] eqn:E; try apply resolves_throw.
      case_decide; [|apply resolves_throw].
      simpl. rewrite E. res_steps.
  - (* Lambda_Phrase *)
    unfold Lambda_Phrase_analyze. apply resolves_lift. intros params Hp.
    eapply resolves_mono;
      [|eapply resolves_bind;
          [apply resolves_in_scope, resolves_analyze_op|
           intros [expr env2]; apply resolves_ret]].
    unfold scope_names. simpl. rewrite (lambda_params_dom _ _ Hp).
    destruct recursive_; set_solver.
  - (* Definition_Phrase *) apply resolves_throw.
  - (* Semicolon_Phrase *)
    unfold Semicolon_Phrase_analyze.
    destruct sargs_ as [|a [|]]; try apply resolves_throw.
    simpl. res_steps.
  - (* Comma_Phrase *) apply resolves_sequence_analyze.
  - (* Paren_Phrase *) apply resolves_sequence_analyze.
  - (* List_Phrase *)
    unfold List_Phrase_analyze.
    eapply resolves_mono;
      [|eapply resolves_bind;
          [apply resolves_analyze_ops|intros xs; apply resolves_ret]].
    set_solver.
  - (* Record_Phrase *)
    unfold Record_Phrase_analyze.
    eapply resolves_mono;
      [|eapply resolves_bind;
          [apply resolves_Record_Phrase_loop|intros xs; apply resolves_ret]].
    set_solver.
  - (* Call_Phrase *)
    unfold Call_Phrase_analyze.
    eapply resolves_mono;
      [|eapply resolves_bind; [apply analyze_resolves|intros m]].
    2: { destruct m;
           (eapply resolves_bind;
              [apply resolves_analyze_args|intros argv; apply resolves_ret]). }
    set_solver.
  - (* If_Phrase *)
    unfold If_Phrase_analyze. destruct else_expr_; res_steps.
  - (* For_Phrase *)
    unfold For_Phrase_analyze.
    destruct (args_ fargs_) as [|a [|]] eqn:E; try apply resolves_throw.
    destruct (expr_ a) eqn:Ea; try apply resolves_throw.
    destruct p1; try apply resolves_throw.
    eapply resolves_mono;
      [|eapply resolves_bind; [apply resolves_analyze_op|intros list];
        apply resolves_get_bind; intros env;
        eapply resolves_bind;
          [eapply resolves_in_scope_names;
             [unfold scope_names; simpl; reflexivity|
              apply resolves_analyze_op]|
           intros [body' body_env]; apply resolves_set_maxslots]].
    set_solver.
  - (* Let_Phrase *)
    unfold Let_Phrase_analyze. apply resolves_get_bind. intros env.
    apply resolves_lift. intros bindings Hb.
    destruct (let_bindings_loop_free _ _ _ _ Hb) as (Hdom & _ & Hargs).
    eapply resolves_mono;
      [|eapply resolves_bind;
          [apply resolves_in_scope;
           eapply resolves_bind;
             [apply resolves_let_values_loop|
              intros values; eapply resolves_bind;
                [apply resolves_analyze_op|intros b; apply resolves_ret]]|
           intros [[values body'] env2]; apply resolves_set_maxslots]].
    unfold scope_names. simpl. rewrite Hdom, dom_empty_L.
    assert (⋃ (map (fun a => free (expr_ a)) (args_ largs_))
            ⊆ ⋃ (map (fun b : Atom * Binding => free (phrase_ b.2))
                   (Atom_Map_items bindings))) as Hsub.
    { apply union_list_map_subseteq. intros x Hx.
      destruct (Hargs x Hx) as (a & bd & Hbd & Hfree).
      exists (a, bd). split; [|done]. by apply elem_of_map_to_list. }
    set_solver.
  - (* Range_Phrase *)
    unfold Range_Phrase_analyze. destruct step_; res_steps.
  - (* Module_Phrase *)
    rewrite free_Module_Phrase. unfold analyze_module.
    apply resolves_lift. intros [fields elements] Hf.
    destruct (module_fields_loop_free _ _ _ _ _ Hf) as (Hdom & _ & Hst).
    apply resolves_get_bind. intros env.
    eapply resolves_mono;
      [|eapply resolves_bind;
          [apply resolves_in_scope;
           eapply resolves_bind;
             [apply resolves_analyze_values|
              intros slots; eapply resolves_bind;
                [apply resolves_analyze_phrases|
                 intros xs; apply resolves_ret]]|
           intros [[slots xelements] env2]; apply resolves_ret]].
    unfold scope_names. simpl. rewrite Hdom. simpl. rewrite dom_empty_L.
    assert (⋃ (map free (Statements ph))
            ⊆ ⋃ (map free (slot_phrases_ fields ++ elements))) as Hsub.
    { apply union_list_map_subseteq. intros st Hin.
      destruct (Hst st Hin) as (p & Hp & Hfree). eauto. }
    rewrite map_app, union_list_app_L in Hsub. set_solver.
  - by intros ? ? ? ?.
Qed.

End Analyze_resolves.

Lemma analyze_resolves_fuel fuel ph : resolves (free ph) (analyze fuel ph).
Proof.
  revert ph. induction fuel as [|fuel IH]; intros ph env m env' H; [done|].
  simpl in H. eapply analyze_phrase_resolves; eauto.
Qed.

(** Property X11.  An analysis that succeeds has found every free
    identifier of the phrase: each one is a name that a scope of the
    environment resolves, that is a builtin, a field of an enclosing
    module, a parameter or a capture of an enclosing lambda, or the
    variable of an enclosing [let] or [for].  At top level the free
    identifiers are names of builtins.  The analysis leaves every scope
    of the chain seeing the names it saw before: what a lambda captures
    was visible to it already. *)
Theorem analysis_resolves_free_identifiers fuel ph env m env' :
  analyze fuel ph env = Ok (m, env') ->
  (forall a, a ∈ free ph -> a ∈ visible env)
  /\ (env = top_env ->
      forall a, a ∈ free ph -> is_Some (builtin_namespace !! a))
  /\ forall k, visible (drop k env') = visible (drop k env).
Proof.
  intros H. destruct (analyze_resolves_fuel _ _ _ _ _ H) as [Hfree Hkeep].
  split; [|split; [|done]].
  - intros a Ha. by apply Hfree.
  - intros -> a Ha. apply Hfree in Ha.
    unfold visible, top_env, scope_names in Ha. simpl in Ha.
    apply elem_of_dom. set_solver.
Qed.

Lemma analysis_resolves_free_identifiers_witness :
  analyze 4 Example_capture.lambda Example_capture.env2
  = Ok (Op Example_capture.lambda_meaning, Example_capture.env2)
  /\ (forall a, a ∈ free Example_capture.lambda ->
        a ∈ visible Example_capture.env2).
Proof.
  assert (analyze 4 Example_capture.lambda Example_capture.env2
          = Ok (Op Example_capture.lambda_meaning, Example_capture.env2))
    as H by (vm_compute; reflexivity).
  split; [exact H|].
  exact (proj1 (analysis_resolves_free_identifiers 4 _ _ _ _ H)).
Defined.

(** * Locations and literals *)

Lemma count_newlines_spec n s : count_newlines n s = newlines_before n s.
Proof.
  unfold newlines_before. revert n. induction s as [|c s IH]; intros [|n];
    simpl; try done.
  rewrite IH. by destruct (Ascii.eqb c "010"%char).
Qed.

Lemma count_newlines_mono n m s :
  n <= m -> count_newlines n s <= count_newlines m s.
Proof.
  revert n m. induction s as [|c s IH]; intros [|n] [|m] H; simpl; try lia.
  specialize (IH n m). lia.
Qed.

(** Property X12.  [Location::lineno] is one more than the number of
    newline characters before the first character of the token.  Hence
    it is 1 at the start of the script, it does not decrease along the
    script, and it is at most one more than the number of newlines of
    the whole script. *)
Theorem lineno_spec :
  (forall loc,
     lineno loc
     = 1 + newlines_before (first (token_ loc)) (text (script_ loc)))
  /\ (forall loc, first (token_ loc) = 0 -> lineno loc = 1)
  /\ (forall loc1 loc2,
        script_ loc1 = script_ loc2 ->
        first (token_ loc1) <= first (token_ loc2) ->
        lineno loc1 <= lineno loc2)
  /\ (forall loc,
        1 <= lineno loc
        <= 1 + newlines_before (String.length (text (script_ loc)))
                 (text (script_ loc))).
Proof.
  split; [|split; [|split]].
  - intros loc. unfold lineno. by rewrite count_newlines_spec.
  - intros loc H. unfold lineno. rewrite H. by destruct (text (script_ loc)).
  - intros loc1 loc2 Hs H. unfold lineno. rewrite Hs.
    pose proof (count_newlines_mono _ _ (text (script_ loc2)) H). lia.
  - intros loc. unfold lineno. rewrite <- count_newlines_spec. split; [lia|].
    apply le_n_S.
    assert (forall n s, count_newlines n s
                        <= count_newlines (String.length s) s) as Hmax.
    { clear. intros n s. revert n. induction s as [|c s IH]; intros [|n];
        simpl; try lia.
      specialize (IH n). lia. }
    apply Hmax.
Qed.

Lemma lineno_spec_witness :
  let script := mkScript "" (String "a" (String "010" (String "b" EmptyString))) in
  let loc1 := mkLocation script (mkToken 0 0 1 k_ident) in
  let loc2 := mkLocation script (mkToken 1 2 3 k_ident) in
  script_ loc1 = script_ loc2
  /\ first (token_ loc1) <= first (token_ loc2)
  /\ lineno loc1 <= lineno loc2
  /\ lineno loc1 = 1 /\ lineno loc2 = 2.
Proof.
  intros script loc1 loc2.
  assert (script_ loc1 = script_ loc2) as Hs by reflexivity.
  assert (first (token_ loc1) <= first (token_ loc2)) as H by (simpl; lia).
  split; [exact Hs|]. split; [exact H|]. split.
  - exact (proj1 (proj2 (proj2 lineno_spec)) loc1 loc2 Hs H).
  - split; reflexivity.
Defined.

(** Property X13.  [starting_at] and [ending_at] leave a location as it
    is when the token is missing.  Otherwise they move the start, with
    its leading white space, or the end of the location to that of the
    token and make it a phrase location; they commute, each is
    idempotent, and together they give the location that spans from the
    first token to the last one, whose range is that part of the
    script.  Moving the end does not change the line number. *)
Theorem location_span :
  (forall loc tok,
     kind tok = k_missing ->
     starting_at loc tok = loc /\ ending_at loc tok = loc)
  /\ (forall loc t1 t2,
        ending_at (starting_at loc t1) t2 = starting_at (ending_at loc t2) t1)
  /\ (forall loc tok,
        starting_at (starting_at loc tok) tok = starting_at loc tok
        /\ ending_at (ending_at loc tok) tok = ending_at loc tok)
  /\ (forall loc t1 t2,
        kind t1 <> k_missing -> kind t2 <> k_missing ->
        let span := ending_at (starting_at loc t1) t2 in
        span = mkLocation (script_ loc)
                 (mkToken (first_white t1) (first t1) (last t2) k_phrase)
        /\ range span
           = substring (first t1) (last t2 - first t1) (text (script_ loc)))
  /\ (forall loc tok, lineno (ending_at loc tok) = lineno loc).
Proof.
  unfold starting_at, ending_at.
  split; [|split; [|split; [|split]]].
  - intros loc tok H. rewrite !decide_True by done. done.
  - intros loc t1 t2. by repeat case_decide.
  - intros loc tok. by repeat case_decide.
  - intros loc t1 t2 H1 H2. simpl. rewrite !decide_False by done. done.
  - intros loc tok. by case_decide.
Qed.

Lemma location_span_witness :
  let loc := mkLocation Example_let.script (mkToken 4 4 5 k_ident) in
  let t1 := mkToken 3 3 4 k_lparen in
  let t2 := mkToken 14 14 15 k_rparen in
  kind t1 <> k_missing /\ kind t2 <> k_missing
  /\ ending_at (starting_at loc t1) t2
     = mkLocation Example_let.script (mkToken 3 3 15 k_phrase)
  /\ range (ending_at (starting_at loc t1) t2) = "(a=1, b=a+1)".
Proof.
  intros loc t1 t2.
  assert (kind t1 <> k_missing) as H1 by (intros H; discriminate H).
  assert (kind t2 <> k_missing) as H2 by (intros H; discriminate H).
  split; [exact H1|]. split; [exact H2|].
  destruct (proj1 (proj2 (proj2 (proj2 location_span))) loc t1 t2 H1 H2)
    as [Hspan Hrange].
  split; [exact Hspan|]. rewrite Hrange. reflexivity.
Defined.

Lemma substring_0_append s t :
  substring 0 (String.length s) (s ++ t)%string = s.
Proof. induction s as [|c s IH]; simpl; [by destruct t|by rewrite IH]. Qed.

Lemma length_append_one s c :
  String.length (s ++ String c EmptyString)%string = S (String.length s).
Proof. induction s as [|c' s IH]; simpl; [done|by rewrite IH]. Qed.

(** Property X14.  The value of a string literal is the text of its
    token without the two quote characters that enclose it; the
    analysis does not look at the environment. *)
Theorem string_literal_value fuel loc s env :
  let quote := ascii_of_nat 34 in
  range loc = String quote (s ++ String quote EmptyString)%string ->
  analyze (S fuel) (String_Phrase loc) env
  = Ok (Op (Constant (String_Phrase loc) (String_Value s)), env).
Proof.
  intros quote H. simpl. unfold String_Phrase_analyze, ret. rewrite H.
  do 3 f_equal. simpl.
  replace (String.length (s ++ String quote EmptyString)%string - 1)
    with (String.length s).
  - by rewrite substring_0_append.
  - rewrite length_append_one. lia.
Qed.

Lemma string_literal_value_witness :
  let script := mkScript EmptyString
                  (String (ascii_of_nat 34)
                     ("abc" ++ String (ascii_of_nat 34) EmptyString)%string) in
  let loc := mkLocation script (mkToken 0 0 5 k_string) in
  range loc = String (ascii_of_nat 34)
                ("abc" ++ String (ascii_of_nat 34) EmptyString)%string
  /\ analyze 1 (String_Phrase loc) top_env
     = Ok (Op (Constant (String_Phrase loc) (String_Value "abc")), top_env).
Proof.
  intros script loc.
  assert (range loc = String (ascii_of_nat 34)
                        ("abc" ++ String (ascii_of_nat 34) EmptyString)%string)
    as H by reflexivity.
  split; [exact H|].
  exact (string_literal_value 0 loc "abc" top_env H).
Defined.
